(** * libirc: connection registry, message queues, reactor drains and line reader

    A shallow embedding of [src/libirc/irc.c].  The C translation unit keeps
    its connections in the static array [conns], reaches every connection
    through pointers, and talks to the network, to GnuTLS, to the logger and
    to the hook layer through calls whose only visible effect on this module
    is that they happened.  The embedding therefore has

    - a [world]: the [conns] array, the heap of [irc_connection] cells
      (a pointer is the index of its cell, a freed cell stays in place as
      [Freed]), the C variable [errno], and the trace of external calls;
    - an [outcome] monad: a call returns, ends the process ([exit], [err]),
      or has no defined behaviour in C (null or dangling dereference);
    - the external collaborators ([irc_server] objects owned by the caller,
      the ircium parser and serializer) as the class [External]. *)

From Stdlib Require Import Ascii String.
From stdpp Require Import base numbers option strings list.

Local Open Scope Z_scope.

(** ** Data *)

(** [#define IRC_MESSAGE_SIZE 8192] and [#define MAX_CONNECTIONS 10]. *)
Definition IRC_MESSAGE_SIZE : Z := 8192.
Definition MAX_CONNECTIONS : nat := 10.

(** The characters this file names. *)
Definition CR : ascii := "013"%char.    (* '\r' *)
Definition LF : ascii := "010"%char.    (* '\n' *)
Definition NUL : ascii := "000"%char.   (* '\0' *)

(** [const irc_server *]: servers are owned by the caller and compared by
    address only ([s == conns[i]->server]). *)
Abbreviation server_ptr := nat (only parsing).

(** [irc_connection *]: the index of the cell in [heap]. *)
Abbreviation conn_ptr := nat (only parsing).

(** An entry of [struct addrinfo]'s list. *)
Abbreviation addr := nat (only parsing).

(** [struct irc_server] of irc.h (the fields this file reads). *)
Record irc_server := mk_server {
  name : string;
  host : string;
  port : string;
  secure : bool
}.

(** [irc_msg]: what [irc_msg_new (prefix, command, n, params)] builds and
    what the parser fills in. *)
Record irc_msg := mk_msg {
  prefix : option string;
  command : string;
  params : list string
}.

(** [irc_connection].  A [message_queue] linked list is the list of its
    [message] strings, head first; [NULL] is the empty list.  The mutexes,
    the libev watchers and the GnuTLS handles carry no data of their own. *)
Record irc_connection := mk_conn {
  server : server_ptr;
  socket : Z;
  ev_is_running : bool;
  read_queue : list string;
  write_queue : list string
}.

Inductive cell :=
| Live (c : irc_connection)
| Freed.

(** Calls that leave this module, in the order they are made.  Of the
    diagnostics only [log_info] is recorded; [log_debug], [puts] and
    [perror] are left out. *)
Inductive event :=
| EvSocket (a : addr) (ret : Z)            (* socket (ai->...)            *)
| EvConnect (fd : Z) (a : addr) (ret : Z)  (* connect (sock, ai->ai_addr) *)
| EvClose (fd : Z)                         (* close (fd)                  *)
| EvSend (tls : bool) (fd : Z) (data : string)
                                           (* send / gnutls_record_send   *)
| EvGnutls (call : string) (fd : Z)        (* other gnutls_* calls        *)
| EvLog (text : string)                    (* log_info (text)             *)
| EvHook (s : server_ptr) (key : string) (m : irc_msg).
                                           (* exec_hooks (s, key, m)      *)

Record world := mk_world {
  conns : list (option conn_ptr);   (* static irc_connection *conns[11] *)
  heap : list cell;
  errno : Z;
  trace : list event
}.

(** ** Outcomes *)

Inductive fault :=
| NullDeref            (* member access through NULL           *)
| UseAfterFree         (* member access through a freed pointer *)
| WildPointer          (* a pointer that was never allocated    *)
| PastArrayEnd.        (* read beyond conns[MAX_CONNECTIONS]    *)

Inductive outcome (A : Type) :=
| Done (a : A)
| Exits (code : Z)
| Undefined (f : fault).
Arguments Done {A} a.
Arguments Exits {A} code.
Arguments Undefined {A} f.

#[export] Instance outcome_ret : MRet outcome := λ A a, Done a.
#[export] Instance outcome_bind : MBind outcome := λ A B k m,
  match m with
  | Done a => k a
  | Exits code => Exits code
  | Undefined f => Undefined f
  end.

(** ** The world at program start and its elementary updates *)

(** A static array is zero-initialised: every slot is [NULL]. *)
Definition init_world : world :=
  mk_world (replicate (S MAX_CONNECTIONS) None) [] 0 [].

Definition emit (e : event) (w : world) : world :=
  mk_world (conns w) (heap w) (errno w) (trace w ++ [e]).

Definition set_errno (e : Z) (w : world) : world :=
  mk_world (conns w) (heap w) e (trace w).

Definition set_conns (cs : list (option conn_ptr)) (w : world) : world :=
  mk_world cs (heap w) (errno w) (trace w).

Definition set_heap (h : list cell) (w : world) : world :=
  mk_world (conns w) h (errno w) (trace w).

(** [c->field]: reading through a connection pointer. *)
Definition load (h : list cell) (p : conn_ptr) : outcome irc_connection :=
  match h !! p with
  | Some (Live c) => Done c
  | Some Freed => Undefined UseAfterFree
  | None => Undefined WildPointer
  end.

(** [c->field = v]: the cell must be live, as for a read. *)
Definition store (p : conn_ptr) (c : irc_connection) (w : world) : outcome world :=
  _ ← load (heap w) p;
  Done (set_heap (<[p := Live c]> (heap w)) w).

(** [free (conn)]. *)
Definition free (p : conn_ptr) (w : world) : outcome world :=
  _ ← load (heap w) p;
  Done (set_heap (<[p := Freed]> (heap w)) w).

(** ** Connection registry *)

(** The loop of [get_irc_server_connection]:
    [for (i = 0; conns[i] != NULL; i++) if (s == conns[i]->server) return conns[i];]
    walking the array from slot [i] on; [cs] is what is left of the array. *)
Fixpoint scan_conns (h : list cell) (s : server_ptr)
    (cs : list (option conn_ptr)) : outcome (option conn_ptr) :=
  match cs with
  | [] => Undefined PastArrayEnd
  | None :: _ => Done None
  | Some p :: rest =>
      c ← load h p;
      if decide (s = server c) then Done (Some p) else scan_conns h s rest
  end.

Definition get_irc_server_connection (w : world) (s : server_ptr)
    : outcome (option conn_ptr) :=
  scan_conns (heap w) s (conns w).

(** [return get_irc_server_connection (s) != NULL;] *)
Definition server_connected (w : world) (s : server_ptr) : outcome bool :=
  r ← get_irc_server_connection w s;
  Done (bool_decide (r ≠ None)).

(** [return conns[MAX_CONNECTIONS - 1] != NULL;] *)
Definition connections_cap_reached (w : world) : bool :=
  match conns w !! (MAX_CONNECTIONS - 1)%nat with
  | Some (Some _) => true
  | _ => false
  end.

(** The loop of [make_irc_connection_entry], with [n] iterations left
    ([i < MAX_CONNECTIONS] holds exactly while [n] is not zero). *)
Fixpoint entry_loop (n : nat) (i : nat) (cs : list (option conn_ptr))
    (c : conn_ptr) : Z * list (option conn_ptr) :=
  match n with
  | O => (-1, cs)
  | S n' =>
      match cs !! i with
      | Some (Some _) => entry_loop n' (S i) cs c
      | Some None => (0, <[i := Some c]> cs)
      | None => (-1, cs)   (* no such slot: the array has 11 of them *)
      end
  end.

Definition make_irc_connection_entry (w : world) (c : conn_ptr) : Z * world :=
  let '(r, cs) := entry_loop MAX_CONNECTIONS 0 (conns w) c in
  (r, set_conns cs w).

(** ** External collaborators *)

(** What this file takes from outside: the [irc_server] objects behind the
    pointers it is handed, [ircmsg_parse] (its [ret == 0] is [None]) and
    [ircmsg_serialize] of the ircium parser. *)
Class External := {
  server_at : server_ptr → irc_server;
  ircmsg_parse : string → option irc_msg;
  ircmsg_serialize : irc_msg → string
}.

(** What the network answers while one candidate address is tried: the
    [errno] values of the [socket()] calls that fail before one succeeds
    (the loop retries the same address on such a failure), the descriptor
    of the one that succeeds, and what [connect()] then returns. *)
Inductive connect_result :=
| ConnectOk
| ConnectFails (e : Z).

Record attempt := mk_attempt {
  socket_errs : list Z;
  sock_fd : Z;
  connect_res : connect_result
}.

(** The environment of one [irc_server_connect] call. *)
Record net_env := mk_env {
  resolved : option (list addr);   (* getaddrinfo: [None] when it fails *)
  net : addr → attempt;
  malloc_ok : bool;                (* malloc (sizeof (irc_connection))  *)
  nonblock_ok : bool;              (* fcntl (fd, F_SETFL, ...) != -1    *)
  select_ok : bool                 (* verify_socket does not exit       *)
}.

Section Model.
Context `{External}.

(** ** Socket setup *)

(** [sock = socket (...); if (sock == -1) { perror (...); continue; }]
    for every failing call in a row. *)
Definition failed_sockets (a : addr) (errs : list Z) (w : world) : world :=
  foldl (λ w e, emit (EvSocket a (-1)) (set_errno e w)) w errs.

(** The [while (conn == -1 && ai != NULL)] loop of [irc_create_socket];
    [ai] is the rest of the address list, [conn] and [sock] the C locals.
    Each round of the recursion is one candidate: the [socket()] calls that
    fail for it (each ends in [continue] with [ai] unchanged), the one that
    succeeds, and [connect()].  When the connect is taken as failed the
    descriptor is closed and [ai] advances; otherwise [conn] is [0], the
    loop test fails and [sock] is returned. *)
Fixpoint connect_loop (net : addr → attempt) (ai : list addr)
    (conn sock : Z) (w : world) : Z * world :=
  if negb (conn =? -1) then (sock, w) else
  match ai with
  | [] => (sock, w)
  | a :: ai_next =>
      let t := net a in
      let w := failed_sockets a (socket_errs t) w in
      let sock := sock_fd t in
      let w := emit (EvSocket a sock) w in
      let '(conn, w) :=
        match connect_res t with
        | ConnectOk => (0, emit (EvConnect sock a 0) w)
        | ConnectFails e => (-1, emit (EvConnect sock a (-1)) (set_errno e w))
        end in
      if (conn =? -1) || negb (errno w =? 0) then
        connect_loop net ai_next (-1) sock (set_errno 0 (emit (EvClose sock) w))
      else (sock, w)
  end.

Definition EXIT_FAILURE : Z := 1.

Definition irc_create_socket (w : world) (s : server_ptr) (env : net_env)
    : outcome (Z * world) :=
  match resolved env with
  | None => Exits EXIT_FAILURE
  | Some ai => Done (connect_loop (net env) ai (-1) (-1) w)
  end.

(** [create_irc_connection]: a fresh cell, or [NULL] when [malloc] fails.
    [ev_is_running] is not initialised there; it is set by the event loop
    before it is read. *)
Definition create_irc_connection (w : world) (s : server_ptr) (sock : Z)
    (env : net_env) : option conn_ptr * world :=
  if malloc_ok env then
    (Some (length (heap w)),
     set_heap (heap w ++ [Live (mk_conn s sock false [] [])]) w)
  else (None, w).

Definition encrypt_irc_connection (w : world) (c : conn_ptr) : outcome world :=
  cn ← load (heap w) c;
  Done (emit (EvGnutls "gnutls_handshake" (socket cn)) w).

Definition setup_irc_connection (w : world) (s : server_ptr) (sock : Z)
    (env : net_env) : outcome (Z * world) :=
  match create_irc_connection w s sock env with
  | (None, w) => Done (1, w)
  | (Some c, w) =>
      let '(_, w) := make_irc_connection_entry w c in
      w ← (if secure (server_at s) then encrypt_irc_connection w c else Done w);
      if negb (nonblock_ok env) then Exits EXIT_FAILURE
      else if negb (select_ok env) then Exits EXIT_FAILURE
      else Done (0, w)
  end.

Definition irc_server_connect (w : world) (s : server_ptr) (env : net_env)
    : outcome (Z * world) :=
  connected ← server_connected w s;
  if connected : bool then Done (-1, emit (EvLog "Server already connected") w)
  else if connections_cap_reached w then
    Done (-1, emit (EvLog "To Many Connections") w)
  else
    '(sock, w) ← irc_create_socket w s env;
    if sock =? -1 then Exits 1
    else
      '(ret, w) ← setup_irc_connection w s sock env;
      if ret =? 1 then Exits 1
      else if negb (ret =? 0) then Exits EXIT_FAILURE
      else Done (0, w).

(** ** Outbound queue *)

(** Appending a node at the tail of a [message_queue]: the empty queue gets
    a first node, otherwise the list is walked to its last node
    ([for (mq = c->write_queue; mq->next != NULL; mq = mq->next);]) and the
    new node is linked behind it.  [malloc] of the node and [strdup] are
    taken to succeed; the code does not test them. *)
Fixpoint mq_append (q : list string) (str : string) : list string :=
  match q with
  | [] => [str]
  | m :: next => m :: mq_append next str
  end.

Definition irc_push_string (w : world) (s : server_ptr) (str : string)
    : outcome world :=
  r ← get_irc_server_connection w s;
  match r with
  | None => Undefined NullDeref           (* &c->write_queue_mtx with c == NULL *)
  | Some c =>
      cn ← load (heap w) c;
      store c (mk_conn (server cn) (socket cn) (ev_is_running cn)
                 (read_queue cn) (mq_append (write_queue cn) str)) w
  end.

Definition irc_push_message (w : world) (s : server_ptr) (message : irc_msg)
    : outcome world :=
  irc_push_string w s (ircmsg_serialize message).

(** [irc_write_bytes]; [buf] is never [NULL] where this file calls it.  The
    value [send] returns is handed back and dropped by the caller, so it is
    not part of the model. *)
Definition irc_write_bytes (w : world) (s : server_ptr) (buf : string)
    : outcome world :=
  r ← get_irc_server_connection w s;
  match r with
  | None => Done w                        (* puts (...); return -1; *)
  | Some c =>
      cn ← load (heap w) c;
      Done (emit (EvSend (secure (server_at s)) (socket cn) buf) w)
  end.

(** The loop of [irc_process_write_message_queue] on the queue [q] that
    [conn->write_queue] holds: write the head, unlink it, go on with [next]. *)
Fixpoint write_loop (q : list string) (conn : conn_ptr) (w : world)
    : outcome world :=
  match q with
  | [] => Done w
  | str :: next =>
      cn ← load (heap w) conn;
      w ← irc_write_bytes w (server cn) str;
      cn ← load (heap w) conn;
      w ← store conn (mk_conn (server cn) (socket cn) (ev_is_running cn)
                        (read_queue cn) next) w;
      write_loop next conn w
  end.

Definition irc_process_write_message_queue (w : world) (conn : conn_ptr)
    : outcome world :=
  cn ← load (heap w) conn;
  write_loop (write_queue cn) conn w.

(** ** Inbound dispatch *)

(** [exec_hooks (s, key, m)] belongs to the hook layer; what the handlers do
    in turn (they may call back into this file) are calls of their own. *)
Definition exec_hooks (w : world) (s : server_ptr) (key : string) (m : irc_msg)
    : world :=
  emit (EvHook s key m) w.

(** ["ERROR: parsing message\n"] *)
Definition parse_error_text : string :=
  "ERROR: parsing message" +:+ String LF "".

Definition handle_message (w : world) (conn : conn_ptr) (message : string)
    : outcome world :=
  let msg_len := String.length message in
  if decide (msg_len = 0%nat) then Done w
  else
    match ircmsg_parse message with
    | None => Done (emit (EvLog parse_error_text) w)
    | Some parsed_msg =>
        cn ← load (heap w) conn;
        let w := exec_hooks w (server cn) (command parsed_msg) parsed_msg in
        cn ← load (heap w) conn;
        Done (exec_hooks w (server cn) "*" parsed_msg)
    end.

(** The loop of [irc_process_read_message_queue]. *)
Fixpoint read_queue_loop (q : list string) (conn : conn_ptr) (w : world)
    : outcome world :=
  match q with
  | [] => Done w
  | message :: next =>
      w ← handle_message w conn message;
      cn ← load (heap w) conn;
      w ← store conn (mk_conn (server cn) (socket cn) (ev_is_running cn)
                        next (write_queue cn)) w;
      read_queue_loop next conn w
  end.

Definition irc_process_read_message_queue (w : world) (conn : conn_ptr)
    : outcome world :=
  cn ← load (heap w) conn;
  read_queue_loop (read_queue cn) conn w.

(** What [irc_do_event_loop] does after every [ev_run (loop, EVRUN_ONCE)]:
    both drains; the loop then tests [conn->ev_is_running]. *)
Definition reactor_drain (w : world) (conn : conn_ptr) : outcome (bool * world) :=
  w ← irc_process_read_message_queue w conn;
  w ← irc_process_write_message_queue w conn;
  cn ← load (heap w) conn;
  Done (ev_is_running cn, w).

(** ** Quit *)

Definition quit_irc_connection (w : world) (s : server_ptr) : outcome world :=
  r ← get_irc_server_connection w s;
  let quit_msg := mk_msg None "QUIT" ["go i must now"] in
  w ← irc_push_message w s quit_msg;
  match r with
  | None => Undefined NullDeref           (* conn->ev_is_running with conn == NULL *)
  | Some conn =>
      cn ← load (heap w) conn;
      w ← store conn (mk_conn (server cn) (socket cn) false
                        (read_queue cn) (write_queue cn)) w;
      let w := emit (EvGnutls "gnutls_deinit" (socket cn)) w in
      let w := emit (EvGnutls "gnutls_certificate_free_credentials" (socket cn)) w in
      let w := emit (EvGnutls "gnutls_global_deinit" (socket cn)) w in
      let w := emit (EvClose (socket cn)) w in
      free conn w
  end.

(** ** Line reader *)

(** What one [recv] (or [gnutls_record_recv]) of a single byte does on the
    non-blocking socket: it delivers a byte and returns 1, or it delivers
    nothing and returns [ret]: 0 when the peer has shut down, a negative
    value on failure, in which case it may leave a new value in [errno]
    ([EAGAIN] is 11).  A call that succeeds leaves [errno] alone. *)
Inductive recv_result :=
| Received (b : ascii)
| NoData (ret : Z) (e : option Z).

(** [irc_read_message] works on a caller's [char buf[IRC_MESSAGE_SIZE]].
    A [reader] is that buffer together with what the function can observe
    around it: the two bytes that lie in memory just before [buf[0]], what
    the coming [recv] calls on the transport will answer, one entry per
    call (once the list is used up the peer has closed and every further
    call returns 0), and the list of every index the function applies to
    [buf], in order. *)
Record reader := mk_reader {
  under : ascii * ascii;      (* buf[-2], buf[-1] *)
  buf : list ascii;
  accesses : list Z;
  stream : list recv_result
}.

(** The value of [buf[idx]]. *)
Definition peek (r : reader) (idx : Z) : ascii :=
  if idx =? -2 then fst (under r)
  else if idx =? -1 then snd (under r)
  else if idx <? 0 then NUL
  else nth (Z.to_nat idx) (buf r) NUL.

Definition touch (idx : Z) (r : reader) : reader :=
  mk_reader (under r) (buf r) (accesses r ++ [idx]) (stream r).

(** [buf[idx] = b]. *)
Definition poke (idx : Z) (b : ascii) (r : reader) : reader :=
  mk_reader (under r) (<[Z.to_nat idx := b]> (buf r))
            (accesses r ++ [idx]) (stream r).

(** What a [recv] that delivered nothing leaves in [errno]. *)
Definition recv_errno (e : option Z) (w : world) : world :=
  match e with
  | Some e => set_errno e w
  | None => w
  end.

(** [irc_read_bytes (s, buf + i, 1)]: [recv] or [gnutls_record_recv] of one
    byte, whose result is handed back.  A call that delivers nothing does
    not touch the buffer. *)
Definition irc_read_bytes (w : world) (s : server_ptr) (r : reader) (i : Z)
    : outcome (Z * reader * world) :=
  c ← get_irc_server_connection w s;
  match c with
  | None => Done (-1, r, w)
  | Some c =>
      _ ← load (heap w) c;
      match stream r with
      | [] => Done (0, r, w)
      | Received b :: rest =>
          Done (1, mk_reader (under r) (<[Z.to_nat i := b]> (buf r))
                             (accesses r ++ [i]) rest, w)
      | NoData ret e :: rest =>
          Done (ret, mk_reader (under r) (buf r) (accesses r) rest,
                recv_errno e w)
      end
  end.

(** The [for] loop of [irc_read_message] with [k] slots left before
    [IRC_MESSAGE_SIZE - 1], that is at [i = IRC_MESSAGE_SIZE - 1 - k]:
    [buf[i - 2] != '\r' && buf[i - 1] != '\n' && i < IRC_MESSAGE_SIZE - 1],
    evaluated left to right.  The body assigns what [irc_read_bytes]
    returns to [n], which is never read: the index advances whether or not
    a byte was stored. *)
Fixpoint read_loop (k : nat) (w : world) (s : server_ptr) (r : reader)
    : outcome (Z * reader * world) :=
  let i := IRC_MESSAGE_SIZE - 1 - Z.of_nat k in
  let r := touch (i - 2) r in
  if Ascii.eqb (peek r (i - 2)) CR then Done (i, r, w) else
  let r := touch (i - 1) r in
  if Ascii.eqb (peek r (i - 1)) LF then Done (i, r, w) else
  match k with
  | O => Done (i, r, w)
  | S k' =>
      '(_, r, w) ← irc_read_bytes w s r i;
      read_loop k' w s r
  end.

Definition irc_read_message (w : world) (s : server_ptr) (r : reader)
    : outcome (Z * reader * world) :=
  c ← get_irc_server_connection w s;
  match c with
  | None => Done (-1, r, w)
  | Some _ =>
      '(i, r, w) ← read_loop (Z.to_nat (IRC_MESSAGE_SIZE - 1)) w s r;
      let r := poke i NUL r in
      let r := poke (IRC_MESSAGE_SIZE - 1) NUL r in
      Done (i, r, w)
  end.

(** [irc_push_string] once per string, in order. *)
Fixpoint push_all (w : world) (s : server_ptr) (strs : list string)
    : outcome world :=
  match strs with
  | [] => Done w
  | str :: strs => w ← irc_push_string w s str; push_all w s strs
  end.

(** ** Other lookups *)

(** [get_irc_connection_from_watcher].  An [ev_io *] that reaches a
    callback is the address of the [watcher] member of a connection; it is
    named here by the pointer of that connection.  The test
    [w == &conns[i]->watcher] computes an address and compares it: no member
    of the connection is read. *)
Fixpoint scan_watchers (wt : conn_ptr) (cs : list (option conn_ptr))
    : outcome (option conn_ptr) :=
  match cs with
  | [] => Undefined PastArrayEnd
  | None :: _ => Done None
  | Some p :: rest =>
      if decide (wt = p) then Done (Some p) else scan_watchers wt rest
  end.

Definition get_irc_connection_from_watcher (w : world) (wt : conn_ptr)
    : outcome (option conn_ptr) :=
  scan_watchers wt (conns w).

(** The loop of [irc_get_server_from_name]:
    [if (strcmp (name, conns[i]->server->name) == 0) return conns[i]->server;] *)
Fixpoint scan_names (h : list cell) (nm : string)
    (cs : list (option conn_ptr)) : outcome (option server_ptr) :=
  match cs with
  | [] => Undefined PastArrayEnd
  | None :: _ => Done None
  | Some p :: rest =>
      c ← load h p;
      if decide (nm = name (server_at (server c))) then Done (Some (server c))
      else scan_names h nm rest
  end.

Definition irc_get_server_from_name (w : world) (nm : string)
    : outcome (option server_ptr) :=
  scan_names (heap w) nm (conns w).

(** [return s->name;] *)
Definition irc_get_server_name (s : server_ptr) : string :=
  name (server_at s).

(** ** Reading a line into the inbound queue *)

(** The C string a buffer holds: the bytes in front of the first ['\0']. *)
Fixpoint c_string (b : list ascii) : string :=
  match b with
  | [] => ""
  | a :: rest => if Ascii.eqb a NUL then "" else String a (c_string rest)
  end.

(** [irc_loop_read_callback (loop, w, re)]: one line is read into a fresh
    zeroed buffer and the buffer is linked at the tail of the inbound
    queue.  [under] is what lies in front of the buffer [malloc] returned,
    [input] what the socket will answer; what was not used is handed back.
    On a queue that is not empty the new node is allocated with
    [malloc (sizeof (conn->read_queue))], the size of a pointer: storing its
    [next] member writes outside the block. *)
Definition irc_loop_read_callback (w : world) (wt : conn_ptr)
    (under : ascii * ascii) (input : list recv_result)
    : outcome (world * list recv_result) :=
  r ← get_irc_connection_from_watcher w wt;
  match r with
  | None => Undefined NullDeref           (* conn->server with conn == NULL *)
  | Some conn =>
      let rd := mk_reader under (replicate (Z.to_nat IRC_MESSAGE_SIZE) NUL)
                          [] input in
      cn ← load (heap w) conn;
      '(_, rd, w) ← irc_read_message w (server cn) rd;
      cn ← load (heap w) conn;
      match read_queue cn with
      | [] =>
          w ← store conn (mk_conn (server cn) (socket cn) (ev_is_running cn)
                            [c_string (buf rd)] (write_queue cn)) w;
          Done (w, stream rd)
      | _ :: _ => Undefined WildPointer
      end
  end.

(** What wakes [ev_run (loop, EVRUN_ONCE)]: the socket is readable and
    [irc_loop_read_callback] runs, or the timer fires and
    [irc_timeout_callback] only breaks the loop. *)
Inductive wakeup :=
| Readable (under : ascii * ascii)
| TimedOut.

(** One turn of the [while (conn->ev_is_running)] loop of
    [irc_do_event_loop]: the wait, then both drains.  [input] is what the
    socket will answer; what was not used is handed back. *)
Definition reactor_cycle (w : world) (conn : conn_ptr) (e : wakeup)
    (input : list recv_result) : outcome (world * list recv_result) :=
  '(w, input) ← match e with
                 | Readable under => irc_loop_read_callback w conn under input
                 | TimedOut => Done (w, input)
                 end;
  w ← irc_process_read_message_queue w conn;
  w ← irc_process_write_message_queue w conn;
  Done (w, input).

(** How far the loop got on the wake-ups it was given. *)
Inductive loop_state :=
| Waiting      (* in [ev_run], no wake-up left *)
| Returned.    (* [conn->ev_is_running] was found cleared *)

(** The [while (conn->ev_is_running)] loop on the wake-ups [es]. *)
Fixpoint reactor_cycles (es : list wakeup) (w : world) (conn : conn_ptr)
    (input : list recv_result)
    : outcome (loop_state * world * list recv_result) :=
  cn ← load (heap w) conn;
  if ev_is_running cn then
    match es with
    | [] => Done (Waiting, w, input)
    | e :: es =>
        '(w, input) ← reactor_cycle w conn e input;
        reactor_cycles es w conn input
    end
  else Done (Returned, w, input).

(** [irc_do_event_loop]: the connection is looked up, its flag is set, the
    watcher and the timer are started and the loop runs. *)
Definition irc_do_event_loop (w : world) (s : server_ptr) (es : list wakeup)
    (input : list recv_result)
    : outcome (loop_state * world * list recv_result) :=
  r ← get_irc_server_connection w s;
  match r with
  | None => Undefined NullDeref           (* conn->ev_is_running with conn == NULL *)
  | Some conn =>
      cn ← load (heap w) conn;
      w ← store conn (mk_conn (server cn) (socket cn) true
                        (read_queue cn) (write_queue cn)) w;
      reactor_cycles es w conn input
  end.

(** ** The module as a state machine *)

(** The entry points a client of this file calls, and the turns of a
    running event loop. *)
Inductive call :=
| CallConnect (s : server_ptr) (env : net_env)
| CallQuit (s : server_ptr)
| CallPushString (s : server_ptr) (str : string)
| CallPushMessage (s : server_ptr) (m : irc_msg)
| CallDrain (conn : conn_ptr)
| CallEventLoop (s : server_ptr) (es : list wakeup) (input : list recv_result)
| CallCycle (conn : conn_ptr) (e : wakeup) (input : list recv_result).

Definition exec (w : world) (c : call) : outcome world :=
  match c with
  | CallConnect s env => '(_, w) ← irc_server_connect w s env; Done w
  | CallQuit s => quit_irc_connection w s
  | CallPushString s str => irc_push_string w s str
  | CallPushMessage s m => irc_push_message w s m
  | CallDrain conn => '(_, w) ← reactor_drain w conn; Done w
  | CallEventLoop s es input =>
      '(_, w, _) ← irc_do_event_loop w s es input; Done w
  | CallCycle conn e input => '(w, _) ← reactor_cycle w conn e input; Done w
  end.

Fixpoint run (w : world) (cs : list call) : outcome world :=
  match cs with
  | [] => Done w
  | c :: cs => w ← exec w c; run w cs
  end.

Inductive reachable : world → Prop :=
| reach_init : reachable init_world
| reach_step w c w' : reachable w → exec w c = Done w' → reachable w'.

End Model.

(** ** Observations on a world *)

Definition live_slot (h : list cell) (slot : option conn_ptr) : bool :=
  match slot with
  | Some p => match h !! p with Some (Live _) => true | _ => false end
  | None => false
  end.

Definition serves (h : list cell) (s : server_ptr) (slot : option conn_ptr)
    : bool :=
  match slot with
  | Some p =>
      match h !! p with
      | Some (Live c) => bool_decide (server c = s)
      | _ => false
      end
  | None => false
  end.

(** Slots of [conns] that are not [NULL]. *)
Definition registered (w : world) : nat :=
  length (List.filter (λ slot : option conn_ptr, bool_decide (slot ≠ None)) (conns w)).

(** Slots that point to a connection which has not been freed. *)
Definition live_connections (w : world) : nat :=
  length (List.filter (live_slot (heap w)) (conns w)).

(** Slots that point to a live connection of server [s]. *)
Definition entries_for (w : world) (s : server_ptr) : nat :=
  length (List.filter (serves (heap w) s) (conns w)).

Definition is_socket_call (e : event) : bool :=
  match e with
  | EvSocket _ _ | EvConnect _ _ _ => true
  | _ => false
  end.

Definition in_bounds (idx : Z) : Prop := 0 ≤ idx < IRC_MESSAGE_SIZE.

(** ** Sample collaborators and inputs for the worked examples *)

Definition CRLF : string := String CR (String LF "").

(** A stand-in for the serializer: [COMMAND :param\r\n]. *)
Definition sample_serialize (m : irc_msg) : string :=
  command m +:+ " :" +:+ String.concat " " (params m) +:+ CRLF.

(** A stand-in for the parser: it knows [PING] lines only. *)
Definition sample_parse (line : string) : option irc_msg :=
  if String.prefix "PING" line then Some (mk_msg None "PING" []) else None.

(** Plain-text servers, whatever the pointer. *)
Definition sample_external : External :=
  {| server_at := λ _, mk_server "libera" "irc.libera.chat" "6667" false;
     ircmsg_parse := sample_parse;
     ircmsg_serialize := sample_serialize |}.

(** A network that resolves to the one address [a], on which [socket]
    yields descriptor [a + 3] and [connect] succeeds. *)
Definition friendly_net (a : addr) : net_env :=
  mk_env (Some [a]) (λ a, mk_attempt [] (Z.of_nat a + 3) ConnectOk)
         true true true.

(** A network whose only candidate refuses the connection
    ([ECONNREFUSED] is 111).  The descriptor is closed by the time it
    reaches [setnonblock], whose [fcntl] calls then fail. *)
Definition refusing_net : net_env :=
  mk_env (Some [0%nat]) (λ a, mk_attempt [] 3 (ConnectFails 111))
         true false false.

(** Servers [0 .. n-1] connected one after the other. *)
Definition connect_calls (n : nat) : list call :=
  (λ s, CallConnect s (friendly_net s)) <$> seq 0 n.

(** An all-zero line buffer, as [irc_loop_read_callback] prepares it, with
    zero bytes in front of it, on a transport that delivers the bytes
    [input] one per call and is then closed. *)
Definition fresh_reader (input : list ascii) : reader :=
  mk_reader (NUL, NUL) (replicate (Z.to_nat IRC_MESSAGE_SIZE) NUL) []
            (Received <$> input).

(** [EAGAIN]: the non-blocking socket has nothing to deliver now. *)
Definition EAGAIN : Z := 11.

Definition would_block : recv_result := NoData (-1) (Some EAGAIN).

(** A world with server [0] connected on descriptor [3]. *)
Definition one_connection : world :=
  mk_world (Some 0%nat :: replicate MAX_CONNECTIONS None)
           [Live (mk_conn 0%nat 3 false [] [])] 0
           [EvSocket 0%nat 3; EvConnect 3 0%nat 0].

(** The world after servers [0 .. 9] were connected: the registry is full. *)
Definition ten_connections : world :=
  Eval vm_compute in
    match run (H := sample_external) init_world (connect_calls 10) with
    | Done w => w
    | _ => init_world
    end.

(** The full registry after server [0] has quit. *)
Definition full_after_quit : world :=
  Eval vm_compute in
    match run (H := sample_external) init_world
            (connect_calls 10 ++ [CallQuit 0%nat]) with
    | Done w => w
    | _ => init_world
    end.

(** Servers [0] and [1] connected, then server [0] has quit. *)
Definition second_after_quit : world :=
  Eval vm_compute in
    match run (H := sample_external) init_world
            [CallConnect 0%nat (friendly_net 0); CallConnect 1%nat (friendly_net 1);
             CallQuit 0%nat] with
    | Done w => w
    | _ => init_world
    end.

(** A slot of [conns] in front of the one that holds [p] points to a
    connection that has been freed. *)
Definition freed_before (w : world) (p : conn_ptr) : Prop :=
  ∃ i j q, (i < j)%nat ∧ conns w !! i = Some (Some q) ∧
           conns w !! j = Some (Some p) ∧ heap w !! q = Some Freed.

(** [conn->write_queue = q] and [conn->read_queue = q] as record updates. *)
Definition with_write_queue (c : irc_connection) (q : list string) : irc_connection :=
  mk_conn (server c) (socket c) (ev_is_running c) (read_queue c) q.

Definition with_read_queue (c : irc_connection) (q : list string) : irc_connection :=
  mk_conn (server c) (socket c) (ev_is_running c) q (write_queue c).

(** The external calls [quit_irc_connection] makes on a connection whose
    descriptor is [fd]. *)
Definition quit_events (fd : Z) : list event :=
  [EvGnutls "gnutls_deinit" fd;
   EvGnutls "gnutls_certificate_free_credentials" fd;
   EvGnutls "gnutls_global_deinit" fd;
   EvClose fd].

Definition is_send (e : event) : bool :=
  match e with
  | EvSend _ _ _ => true
  | _ => false
  end.

(** What one inbound line makes [handle_message] call, for a connection of
    server [s]. *)
Definition line_events `{External} (s : server_ptr) (line : string) : list event :=
  if decide (String.length line = 0%nat) then []
  else match ircmsg_parse line with
       | None => [EvLog parse_error_text]
       | Some m => [EvHook s (command m) m; EvHook s "*" m]
       end.

(** The reader after a turn of the [irc_read_message] loop at index [j]
    that went through its body: both look-behind tests were made, and
    [irc_read_bytes] stored a byte at [buf[j]] if the call delivered
    one. *)
Definition next_turn (j : nat) (r : reader) : reader :=
  let i := Z.of_nat j in
  match stream r with
  | [] => touch (i - 1) (touch (i - 2) r)
  | Received b :: rest =>
      mk_reader (under r) (<[j := b]> (buf r))
                (accesses r ++ [i - 2; i - 1; i]) rest
  | NoData _ _ :: rest =>
      mk_reader (under r) (buf r) (accesses r ++ [i - 2; i - 1]) rest
  end.

(** What the [recv] calls [xs], made in that order, leave in [errno]. *)
Definition after_recvs (xs : list recv_result) (w : world) : world :=
  foldl (λ w x, match x with
                | Received _ => w
                | NoData _ e => recv_errno e w
                end) w xs.

(** The buffer [b] after the calls [xs] have answered for the slots
    [j], [j + 1], ...: a byte that was delivered is in its slot, a slot
    whose call delivered nothing is as it was. *)
Fixpoint recv_into (j : nat) (xs : list recv_result) (b : list ascii)
    : list ascii :=
  match xs with
  | [] => b
  | Received a :: xs => recv_into (S j) xs (<[j := a]> b)
  | NoData _ _ :: xs => recv_into (S j) xs b
  end.

Definition delivers_nothing (x : recv_result) : Prop :=
  match x with
  | Received _ => False
  | NoData _ _ => True
  end.

(** The descriptors a trace shows as handed out by [socket], and the ones
    it shows as closed, in order. *)
Definition opened (t : list event) : list Z :=
  omap (λ e, match e with
             | EvSocket _ fd => if fd =? -1 then None else Some fd
             | _ => None
             end) t.

Definition closed (t : list event) : list Z :=
  omap (λ e, match e with EvClose fd => Some fd | _ => None end) t.

(** What reaches a connection between two turns of its event loop: a
    line on the socket (with the two bytes that happen to lie in front of
    the buffer it is read into), or only the timer. *)
Inductive arrival :=
| ArrLine (under : ascii * ascii) (body : list ascii)
| ArrTick.

Definition arrival_wakeup (a : arrival) : wakeup :=
  match a with
  | ArrLine under _ => Readable under
  | ArrTick => TimedOut
  end.

(** What an arrival makes the coming [recv] calls answer: the bytes of
    the line, one per call. *)
Definition arrival_bytes (a : arrival) : list recv_result :=
  match a with
  | ArrLine _ body => Received <$> (body ++ [CR; LF])
  | ArrTick => []
  end.

(** The inbound lines an arrival stands for, terminator included. *)
Definition arrival_lines (a : arrival) : list string :=
  match a with
  | ArrLine _ body => [string_of_list_ascii (body ++ [CR; LF])]
  | ArrTick => []
  end.

(** A line the reader frames as one message: no ['\r'], ['\n'] or ['\0']
    inside, short enough for the buffer, and nothing in front of the buffer
    that looks like a terminator. *)
Definition arrival_ok (a : arrival) : Prop :=
  match a with
  | ArrLine under body =>
      fst under ≠ CR ∧ snd under ≠ CR ∧ snd under ≠ LF ∧
      Forall (λ x, x ≠ CR ∧ x ≠ LF ∧ x ≠ NUL) body ∧
      Z.of_nat (length body) + 2 ≤ IRC_MESSAGE_SIZE - 1
  | ArrTick => True
  end.

(** ** The shape of a reachable registry *)

(** [conns] holds the pointers [ps], in the order the connections were
    made, followed by [NULL] up to its eleven slots; at most
    [MAX_CONNECTIONS] of them, each allocated and stored once, and no two
    of those still alive belong to the same server. *)
Record registry_ok (cs : list (option conn_ptr)) (h : list cell)
    (ps : list conn_ptr) : Prop := {
  ok_slots : cs = (Some <$> ps) ++ replicate (S MAX_CONNECTIONS - length ps) None;
  ok_cap : (length ps ≤ MAX_CONNECTIONS)%nat;
  ok_alloc : ∀ p, p ∈ ps → (p < length h)%nat;
  ok_nodup : NoDup ps;
  ok_servers : ∀ p q c d,
    p ∈ ps → q ∈ ps → h !! p = Some (Live c) → h !! q = Some (Live d) →
    server c = server d → p = q
}.

(** [h'] has the cells of [h]; what is alive in [h'] was alive in [h] and
    belonged to the same server. *)
Definition heap_shrinks (h h' : list cell) : Prop :=
  length h' = length h ∧
  ∀ q c', h' !! q = Some (Live c') →
          ∃ c, h !! q = Some (Live c) ∧ server c = server c'.

(** A step that leaves the registry array alone and allocates nothing. *)
Definition quiet (w w' : world) : Prop :=
  conns w' = conns w ∧ heap_shrinks (heap w) (heap w').

(** * Proofs *)

(** ** The outcome monad *)

(** One step of symbolic execution: binds on results that are known and
    projections of worlds that were just built, nothing else. *)
Ltac run_step :=
  cbn [mbind outcome_bind mret outcome_ret
       conns heap errno trace emit set_errno set_conns set_heap
       fst snd].

Tactic Notation "run_step" "in" hyp(E) :=
  cbn [mbind outcome_bind mret outcome_ret
       conns heap errno trace emit set_errno set_conns set_heap
       fst snd] in E.

Lemma bind_Done {A B} (m : outcome A) (k : A → outcome B) (b : B) :
  m ≫= k = Done b → ∃ a, m = Done a ∧ k a = Done b.
Proof. destruct m as [a| |]; simpl; [eauto | discriminate | discriminate]. Qed.

Lemma bind_Done_l {A B} (m : outcome A) (k : A → outcome B) (a : A) :
  m = Done a → m ≫= k = k a.
Proof. intros ->. reflexivity. Qed.

(** ** Heap cells *)

Lemma load_Done h p c : load h p = Done c ↔ h !! p = Some (Live c).
Proof.
  unfold load. destruct (h !! p) as [[c'|]|]; split; intros E;
    try discriminate; congruence.
Qed.

Lemma load_insert_ne h p q x : p ≠ q → load (<[p := x]> h) q = load h q.
Proof. intros Hne. unfold load. by rewrite list_lookup_insert_ne. Qed.

Lemma load_insert_live h p c c' :
  h !! p = Some (Live c) → load (<[p := Live c']> h) p = Done c'.
Proof.
  intros Hp. apply load_Done, list_lookup_insert_eq.
  by apply lookup_lt_Some in Hp.
Qed.

Lemma load_insert_freed h p c :
  h !! p = Some (Live c) → load (<[p := Freed]> h) p = Undefined UseAfterFree.
Proof.
  intros Hp. unfold load. rewrite list_lookup_insert_eq; [done|].
  by apply lookup_lt_Some in Hp.
Qed.

Lemma store_Done p c c' w :
  heap w !! p = Some (Live c) →
  store p c' w = Done (set_heap (<[p := Live c']> (heap w)) w).
Proof. intros Hp. unfold store. apply load_Done in Hp. by rewrite Hp. Qed.

(** ** Registry lookup *)

(** A hit names a live connection of the server that was asked for. *)
Lemma scan_conns_hit h s cs p :
  scan_conns h s cs = Done (Some p) →
  Some p ∈ cs ∧ ∃ c, h !! p = Some (Live c) ∧ server c = s.
Proof.
  induction cs as [|[q|] cs IH]; simpl; intros E; try discriminate.
  apply bind_Done in E as (c & Hc & E). apply load_Done in Hc.
  destruct (decide (s = server c)) as [->|Hne].
  - injection E as ->. split; [left | eauto].
  - destruct (IH E) as [Hin Hex]. split; [by right | done].
Qed.

(** Overwriting a live connection by one of the same server is invisible
    to the lookup. *)
Lemma scan_conns_insert_live h s cs p c c' :
  h !! p = Some (Live c) → server c' = server c →
  scan_conns (<[p := Live c']> h) s cs = scan_conns h s cs.
Proof.
  intros Hp Hs. induction cs as [|[q|] cs IH]; simpl; try done.
  destruct (decide (p = q)) as [<-|Hne].
  - rewrite (load_insert_live h p c c' Hp).
    apply load_Done in Hp. rewrite Hp. simpl. rewrite Hs, IH. done.
  - rewrite load_insert_ne by done. destruct (load h q); simpl; try done.
    by rewrite IH.
Qed.

(** Once the connection a lookup finds is freed, the same lookup reads
    freed memory. *)
Lemma scan_conns_freed h s cs p :
  scan_conns h s cs = Done (Some p) →
  scan_conns (<[p := Freed]> h) s cs = Undefined UseAfterFree.
Proof.
  induction cs as [|[q|] cs IH]; simpl; intros E; try discriminate.
  apply bind_Done in E as (c & Hc & E). apply load_Done in Hc.
  destruct (decide (p = q)) as [<-|Hne].
  - by rewrite (load_insert_freed h p c Hc).
  - rewrite load_insert_ne by done. apply load_Done in Hc. rewrite Hc. simpl.
    destruct (decide (s = server c)); [congruence | auto].
Qed.

Lemma lookup_emit w e s :
  get_irc_server_connection (emit e w) s = get_irc_server_connection w s.
Proof. reflexivity. Qed.

Lemma lookup_store_same_server w s p c c' :
  heap w !! p = Some (Live c) → server c' = server c →
  get_irc_server_connection (set_heap (<[p := Live c']> (heap w)) w) s
  = get_irc_server_connection w s.
Proof. intros. unfold get_irc_server_connection. simpl. eauto using scan_conns_insert_live. Qed.

(** ** Pushing without a connection (C10) *)

Lemma push_string_no_connection w s str :
  get_irc_server_connection w s = Done None →
  irc_push_string w s str = Undefined NullDeref.
Proof. intros E. unfold irc_push_string. by rewrite E. Qed.

(** C10.  The claim asks that [irc_push_string] (and with it
    [irc_push_message]) be well-defined for a server that has no registered
    connection.  On the code it is not: with an empty registry the lookup
    returns [NULL], and the very next statement locks
    [c->write_queue_mtx] through that null pointer, for every server and
    every string. *)
Theorem push_string_unconnected_null_deref `{External} :
  ∀ (s : server_ptr) (str : string) (m : irc_msg),
    get_irc_server_connection init_world s = Done None ∧
    irc_push_string init_world s str = Undefined NullDeref ∧
    irc_push_message init_world s m = Undefined NullDeref.
Proof. intros s str m. repeat split; reflexivity. Qed.

(** ** Quit (C1, C6) *)

(** The sample world is what connecting server [0] leaves behind. *)
Lemma one_connection_reachable :
  run (H := sample_external) init_world [CallConnect 0%nat (friendly_net 0)]
  = Done one_connection.
Proof. reflexivity. Qed.

Lemma trace_emit e w : trace (emit e w) = trace w ++ [e].
Proof. reflexivity. Qed.

Lemma push_string_spec w s p c str :
  get_irc_server_connection w s = Done (Some p) →
  heap w !! p = Some (Live c) →
  irc_push_string w s str
  = Done (set_heap (<[p := Live (with_write_queue c (mq_append (write_queue c) str))]> (heap w)) w).
Proof.
  intros E Hp. unfold irc_push_string. rewrite E. simpl.
  pose proof Hp as Hl. apply load_Done in Hl. rewrite Hl. simpl.
  by rewrite (store_Done p c _ w Hp).
Qed.

Lemma quit_spec `{External} w s p c :
  get_irc_server_connection w s = Done (Some p) →
  heap w !! p = Some (Live c) →
  quit_irc_connection w s
  = Done (mk_world (conns w) (<[p := Freed]> (heap w)) (errno w)
                   (trace w ++ quit_events (socket c))).
Proof.
  intros E Hp. unfold quit_irc_connection, irc_push_message.
  rewrite E. run_step.
  rewrite (push_string_spec w s p c _ E Hp). run_step.
  rewrite (load_insert_live _ p c _ Hp). run_step.
  unfold store. run_step. rewrite (load_insert_live _ p c _ Hp). run_step.
  unfold free. run_step. rewrite !list_insert_insert_eq.
  rewrite (load_insert_live _ p c _ Hp). run_step.
  unfold set_heap, emit, quit_events. simpl.
  rewrite <- !app_assoc. reflexivity.
Qed.

Lemma quit_Done `{External} w s w' :
  quit_irc_connection w s = Done w' →
  ∃ p c, get_irc_server_connection w s = Done (Some p) ∧
         heap w !! p = Some (Live c) ∧
         w' = mk_world (conns w) (<[p := Freed]> (heap w)) (errno w)
                       (trace w ++ quit_events (socket c)).
Proof.
  intros E.
  destruct (get_irc_server_connection w s) as [[p|]| |] eqn:El.
  - destruct (scan_conns_hit _ _ _ _ El) as (_ & c & Hp & _).
    rewrite (quit_spec w s p c El Hp) in E. injection E as <-. eauto.
  - unfold quit_irc_connection, irc_push_message in E. rewrite El in E. simpl in E.
    rewrite (push_string_no_connection w s _ El) in E. discriminate.
  - unfold quit_irc_connection in E. rewrite El in E. discriminate.
  - unfold quit_irc_connection in E. rewrite El in E. discriminate.
Qed.

(** C1.  The claim asks that quit write the queued QUIT line to the socket
    and only then close it.  On the code, whenever
    [quit_irc_connection] returns, the calls it has made are the three
    GnuTLS releases and [close (conn->socket)]: nothing was sent, the
    trace now ends with the [close], the connection (with the QUIT line
    still in its queue) has been freed, and the drain the reactor would
    run next, [irc_process_write_message_queue], reads freed memory. *)
Theorem quit_closes_before_flush `{External} w s w' :
  quit_irc_connection w s = Done w' →
  ∃ p c, get_irc_server_connection w s = Done (Some p) ∧
         heap w !! p = Some (Live c) ∧
         trace w' = trace w ++ quit_events (socket c) ∧
         List.filter is_send (quit_events (socket c)) = [] ∧
         last (trace w') = Some (EvClose (socket c)) ∧
         heap w' !! p = Some Freed ∧
         irc_process_write_message_queue w' p = Undefined UseAfterFree.
Proof.
  intros E. destruct (quit_Done w s w' E) as (p & c & El & Hp & ->).
  exists p, c. simpl. repeat split; try done.
  - apply last_Some.
    exists (trace w ++ [EvGnutls "gnutls_deinit" (socket c);
                        EvGnutls "gnutls_certificate_free_credentials" (socket c);
                        EvGnutls "gnutls_global_deinit" (socket c)]).
    unfold quit_events. by rewrite <- app_assoc.
  - apply list_lookup_insert_eq. by apply lookup_lt_Some in Hp.
  - unfold irc_process_write_message_queue. simpl.
    by rewrite (load_insert_freed _ p c Hp).
Qed.

Lemma quit_closes_before_flush_witness :
  ∃ w', quit_irc_connection (H := sample_external) one_connection 0%nat = Done w' ∧
  ∃ p c, get_irc_server_connection one_connection 0%nat = Done (Some p) ∧
         heap one_connection !! p = Some (Live c) ∧
         trace w' = trace one_connection ++ quit_events (socket c) ∧
         List.filter is_send (quit_events (socket c)) = [] ∧
         last (trace w') = Some (EvClose (socket c)) ∧
         heap w' !! p = Some Freed ∧
         irc_process_write_message_queue (H := sample_external) w' p
         = Undefined UseAfterFree.
Proof.
  eexists. split.
  - vm_compute. reflexivity.
  - apply (quit_closes_before_flush (H := sample_external) one_connection 0%nat).
    vm_compute. reflexivity.
Defined.

(** C6.  The claim asks that after quit the registry hold no entry for the
    server, so that a lookup returns none and [server_connected] is false.
    On the code, whenever [quit_irc_connection] returns, [conns] is what it
    was before (the slot still holds the pointer that was just freed), and
    both the lookup and [server_connected] dereference that pointer. *)
Theorem quit_leaves_dangling_entry `{External} w s w' :
  quit_irc_connection w s = Done w' →
  conns w' = conns w ∧
  registered w' = registered w ∧
  get_irc_server_connection w' s = Undefined UseAfterFree ∧
  server_connected w' s = Undefined UseAfterFree.
Proof.
  intros E. destruct (quit_Done w s w' E) as (p & c & El & Hp & ->).
  assert (get_irc_server_connection
            (mk_world (conns w) (<[p := Freed]> (heap w)) (errno w)
                      (trace w ++ quit_events (socket c))) s
          = Undefined UseAfterFree) as Hdangling.
  { unfold get_irc_server_connection. simpl. by apply scan_conns_freed. }
  repeat split; try done.
  unfold server_connected. by rewrite Hdangling.
Qed.

Lemma quit_leaves_dangling_entry_witness :
  ∃ w', quit_irc_connection (H := sample_external) one_connection 0%nat = Done w' ∧
        conns w' = conns one_connection ∧
        registered w' = registered one_connection ∧
        get_irc_server_connection w' 0%nat = Undefined UseAfterFree ∧
        server_connected w' 0%nat = Undefined UseAfterFree.
Proof.
  eexists. split.
  - vm_compute. reflexivity.
  - apply (quit_leaves_dangling_entry (H := sample_external) one_connection 0%nat).
    vm_compute. reflexivity.
Defined.

(** ** Socket creation (C8) *)

(** A candidate that connects at once, with no error pending, ends the
    search: its descriptor is returned and stays open. *)
Lemma connect_loop_first_success net a rest sock w :
  socket_errs (net a) = [] → connect_res (net a) = ConnectOk → errno w = 0 →
  connect_loop net (a :: rest) (-1) sock w
  = (sock_fd (net a),
     emit (EvConnect (sock_fd (net a)) a 0) (emit (EvSocket a (sock_fd (net a))) w)).
Proof.
  intros Herrs Hres Herrno. simpl. rewrite Herrs, Hres. simpl.
  rewrite Herrno. reflexivity.
Qed.

(** A candidate whose [connect] fails is closed and the next one is tried
    with [sock] still holding the closed descriptor and [errno] cleared. *)
Lemma connect_loop_failure net a rest sock w e :
  connect_res (net a) = ConnectFails e →
  ∃ w', connect_loop net (a :: rest) (-1) sock w
        = connect_loop net rest (-1) (sock_fd (net a)) w' ∧
        last (trace w') = Some (EvClose (sock_fd (net a))) ∧
        errno w' = 0.
Proof.
  intros Hres. simpl. rewrite Hres. simpl.
  eexists. split; [reflexivity|]. simpl. split; [apply last_snoc | done].
Qed.

(** Candidates are tried in list order: behind any number of candidates
    that refuse, the first one that connects gives the result. *)
Lemma connect_loop_tries_in_order net failing a rest sock w :
  (∀ b, b ∈ failing → ∃ e, connect_res (net b) = ConnectFails e) →
  socket_errs (net a) = [] → connect_res (net a) = ConnectOk → errno w = 0 →
  (connect_loop net (failing ++ a :: rest) (-1) sock w).1 = sock_fd (net a).
Proof.
  intros Hfail Herrs Hok. revert sock w.
  induction failing as [|b failing IH]; intros sock w Herrno.
  - cbn [app]. by rewrite connect_loop_first_success.
  - destruct (Hfail b) as [e He]; [left|].
    cbn [app].
    destruct (connect_loop_failure net b (failing ++ a :: rest) sock w e He)
      as (w' & -> & _ & Herrno').
    apply IH; [|done]. intros d Hd. apply Hfail. by right.
Qed.

Lemma connect_loop_exhausted net ai sock w :
  (∀ a, a ∈ ai → ∃ e, connect_res (net a) = ConnectFails e) →
  fst (connect_loop net ai (-1) sock w)
  = from_option (λ a, sock_fd (net a)) sock (last ai) ∧
  (ai ≠ [] →
   last (trace (snd (connect_loop net ai (-1) sock w)))
   = Some (EvClose (fst (connect_loop net ai (-1) sock w)))).
Proof.
  revert sock w. induction ai as [|a ai IH]; intros sock w Hfail.
  - split; [reflexivity | done].
  - destruct (Hfail a) as [e He]; [left|].
    destruct (connect_loop_failure net a ai sock w e He) as (w' & -> & Hlast & _).
    destruct (IH (sock_fd (net a)) w') as [IH1 IH2].
    { intros b Hb. apply Hfail. by right. }
    destruct ai as [|b ai].
    + split; [reflexivity | intros _; exact Hlast].
    + split; [|intros _; by apply IH2].
      rewrite IH1, last_cons_cons.
      destruct (last (b :: ai)) eqn:Hl; [done | by apply last_None in Hl].
Qed.

(** C8.  The claim asks that socket creation report failure (a result the
    caller can tell from a descriptor, such as [-1]) exactly when every
    candidate address was tried and none connected.  On the code, when the
    address list is not empty and every [connect] fails, the function
    returns the descriptor of the last candidate, which is the one it has
    just closed; [sock] is never set back to [-1]. *)
Theorem create_socket_exhausted_returns_closed_fd w s env ai :
  resolved env = Some ai → ai ≠ [] →
  (∀ a, a ∈ ai → ∃ e, connect_res (net env a) = ConnectFails e) →
  ∃ a w', last ai = Some a ∧
          irc_create_socket w s env = Done (sock_fd (net env a), w') ∧
          last (trace w') = Some (EvClose (sock_fd (net env a))).
Proof.
  intros Hres Hne Hfail. unfold irc_create_socket. rewrite Hres.
  destruct (connect_loop_exhausted (net env) ai (-1) w Hfail) as [H1 H2].
  specialize (H2 Hne).
  destruct (last ai) as [a|] eqn:Hlast; [|by apply last_None in Hlast].
  simpl in H1.
  destruct (connect_loop (net env) ai (-1) (-1) w) as [sock w'] eqn:Hloop.
  simpl in H1, H2. subst sock. exists a, w'. done.
Qed.

Lemma create_socket_exhausted_returns_closed_fd_witness :
  ∃ a w', last [0%nat] = Some a ∧
          irc_create_socket init_world 0%nat refusing_net
          = Done (sock_fd (net refusing_net a), w') ∧
          last (trace w') = Some (EvClose (sock_fd (net refusing_net a))).
Proof.
  apply (create_socket_exhausted_returns_closed_fd init_world 0%nat refusing_net [0%nat]).
  - reflexivity.
  - discriminate.
  - intros a _. exists 111. reflexivity.
Defined.

(** What the caller makes of it: [irc_server_connect] tests [sock == -1],
    sees descriptor 3 and goes on to [setup_irc_connection], which allocates
    and registers a connection on the closed descriptor; [setnonblock] fails
    on it and the process exits there, not through the
    [failed creating socket] branch of [irc_server_connect]. *)
Example connect_refused_exits_late :
  irc_server_connect (H := sample_external) init_world 0%nat refusing_net
  = Exits EXIT_FAILURE.
Proof. reflexivity. Qed.

(** ** Line reader (C2, C9) *)

(** A lookup reads the registry array and the heap, nothing else. *)
Lemma lookup_same w w' s :
  conns w' = conns w → heap w' = heap w →
  get_irc_server_connection w' s = get_irc_server_connection w s.
Proof. unfold get_irc_server_connection. by intros -> ->. Qed.

Lemma recv_errno_frame e w :
  conns (recv_errno e w) = conns w ∧ heap (recv_errno e w) = heap w ∧
  trace (recv_errno e w) = trace w.
Proof. by destruct e. Qed.

Lemma read_loop_S k w s r :
  read_loop (S k) w s r
  = let i := IRC_MESSAGE_SIZE - 1 - Z.of_nat (S k) in
    let r1 := touch (i - 2) r in
    if Ascii.eqb (peek r1 (i - 2)) CR then Done (i, r1, w) else
    let r2 := touch (i - 1) r1 in
    if Ascii.eqb (peek r2 (i - 1)) LF then Done (i, r2, w) else
    '(_, r3, w3) ← irc_read_bytes w s r2 i; read_loop k w3 s r3.
Proof. reflexivity. Qed.

Lemma irc_read_bytes_total w s p r i :
  get_irc_server_connection w s = Done (Some p) →
  ∃ n r' w', irc_read_bytes w s r i = Done (n, r', w') ∧
             (∃ more, accesses r' = accesses r ++ more) ∧
             conns w' = conns w ∧ heap w' = heap w ∧ trace w' = trace w.
Proof.
  intros E. unfold irc_read_bytes. rewrite E. run_step.
  destruct (scan_conns_hit _ _ _ _ E) as (_ & c & Hp & _).
  apply load_Done in Hp. rewrite Hp. run_step.
  destruct (stream r) as [|[b|ret e] rest].
  - exists 0, r, w. split; [done|]. split; [|done]. exists []. by rewrite app_nil_r.
  - eexists 1, _, w. split; [done|]. split; [|done]. simpl. by eexists.
  - eexists ret, _, _. split; [done|]. split.
    + exists []. simpl. by rewrite app_nil_r.
    + apply recv_errno_frame.
Qed.

Lemma read_loop_O w s r :
  read_loop O w s r
  = let i := IRC_MESSAGE_SIZE - 1 - Z.of_nat O in
    let r1 := touch (i - 2) r in
    if Ascii.eqb (peek r1 (i - 2)) CR then Done (i, r1, w) else
    let r2 := touch (i - 1) r1 in
    if Ascii.eqb (peek r2 (i - 1)) LF then Done (i, r2, w) else Done (i, r2, w).
Proof. reflexivity. Qed.

(** With a connection to read from, the loop always ends, at an index
    between where it started and [IRC_MESSAGE_SIZE - 1], and the first
    index it applies to the buffer is [i - 2]; of the world only [errno]
    can have changed. *)
Lemma read_loop_total k : ∀ w s p r,
  get_irc_server_connection w s = Done (Some p) →
  ∃ n r' w', read_loop k w s r = Done (n, r', w') ∧
          IRC_MESSAGE_SIZE - 1 - Z.of_nat k ≤ n ≤ IRC_MESSAGE_SIZE - 1 ∧
          (∃ rest, accesses r'
                   = accesses r ++ (IRC_MESSAGE_SIZE - 1 - Z.of_nat k - 2) :: rest) ∧
          conns w' = conns w ∧ heap w' = heap w ∧ trace w' = trace w.
Proof.
  induction k as [|k IH]; intros w s p r E.
  - rewrite read_loop_O. cbv zeta.
    destruct (Ascii.eqb _ CR).
    { eexists _, _, _. split; [done|]. split; [lia|]. split; [|done]. by exists []. }
    destruct (Ascii.eqb _ LF).
    all: eexists _, _, _; (split; [done|]); (split; [lia|]); (split; [|done]);
      cbn [accesses touch]; rewrite <- app_assoc; by eexists.
  - rewrite read_loop_S. cbv zeta.
    destruct (Ascii.eqb _ CR).
    { eexists _, _, _. split; [done|]. split; [lia|]. split; [|done]. by exists []. }
    destruct (Ascii.eqb _ LF).
    { eexists _, _, _. split; [done|]. split; [lia|]. split; [|done].
      cbn [accesses touch]. rewrite <- app_assoc. by eexists. }
    match goal with
    | |- context [irc_read_bytes w s ?r2 ?i] =>
        destruct (irc_read_bytes_total w s p r2 i E)
          as (m & r3 & w3 & -> & [more Hmore] & Hc3 & Hh3 & Ht3)
    end.
    run_step.
    destruct (IH w3 s p r3) as (n & r' & w' & -> & Hn & [rest Hrest] & Hc & Hh & Ht).
    { by rewrite (lookup_same w w3 s Hc3 Hh3). }
    exists n, r', w'. split; [done|]. split; [lia|]. split.
    + rewrite Hrest, Hmore. cbn [accesses touch].
      rewrite <- !app_assoc. by eexists.
    + by rewrite Hc, Hh, Ht.
Qed.

(** C9.  The claim asks that every index [irc_read_message] applies to its
    line buffer lie in [0, 8191], the look-behind at [i - 2] and [i - 1]
    included.  On the code, whenever there is a connection to read from, the
    call returns and the first index it has applied to [buf] is [-2]: the
    loop condition is evaluated at [i = 0] before anything was read. *)
Theorem read_message_reads_before_buffer w s p r :
  get_irc_server_connection w s = Done (Some p) →
  ∃ n r' w', irc_read_message w s r = Done (n, r', w') ∧
          (∃ rest, accesses r' = accesses r ++ -2 :: rest) ∧
          ¬ in_bounds (-2) ∧
          (Forall in_bounds (accesses r) → ¬ Forall in_bounds (accesses r')).
Proof.
  intros E. unfold irc_read_message.
  assert (Z.of_nat (Z.to_nat (IRC_MESSAGE_SIZE - 1)) = IRC_MESSAGE_SIZE - 1)
    as Hk by (apply Z2Nat.id; unfold IRC_MESSAGE_SIZE; lia).
  revert Hk. generalize (Z.to_nat (IRC_MESSAGE_SIZE - 1)). intros k Hk.
  rewrite E. run_step.
  destruct (read_loop_total k w s p r E) as (n & r' & w' & -> & _ & [rest Hrest] & _).
  run_step. eexists _, _, _. split; [reflexivity|].
  assert (¬ in_bounds (-2)) as Hout by (unfold in_bounds; lia).
  assert (∃ rest', accesses (poke (IRC_MESSAGE_SIZE - 1) NUL (poke n NUL r'))
                   = accesses r ++ -2 :: rest') as [rest' Hacc].
  { cbn [accesses poke]. rewrite Hrest, Hk.
    replace (IRC_MESSAGE_SIZE - 1 - (IRC_MESSAGE_SIZE - 1) - 2) with (-2) by lia.
    rewrite <- !app_assoc. cbn [app]. by eexists. }
  split; [by exists rest'|]. split; [exact Hout|].
  intros _ Hall. rewrite Hacc in Hall.
  apply Forall_app in Hall as [_ Hall]. by apply Forall_cons in Hall as [? _].
Qed.

Lemma read_message_reads_before_buffer_witness :
  ∃ n r' w', irc_read_message one_connection 0%nat (fresh_reader [])
          = Done (n, r', w') ∧
          (∃ rest, accesses r' = accesses (fresh_reader []) ++ -2 :: rest) ∧
          ¬ in_bounds (-2) ∧
          (Forall in_bounds (accesses (fresh_reader [])) →
           ¬ Forall in_bounds (accesses r')).
Proof.
  apply (read_message_reads_before_buffer
           one_connection 0%nat 0%nat (fresh_reader [])).
  reflexivity.
Defined.

(** With a connection to read from the result is never an error: it is the
    number of buffer slots used, at most [IRC_MESSAGE_SIZE - 1]. *)
Lemma read_message_result_range w s p r :
  get_irc_server_connection w s = Done (Some p) →
  ∃ n r' w', irc_read_message w s r = Done (n, r', w') ∧
             0 ≤ n ≤ IRC_MESSAGE_SIZE - 1.
Proof.
  intros E. unfold irc_read_message.
  assert (Z.of_nat (Z.to_nat (IRC_MESSAGE_SIZE - 1)) = IRC_MESSAGE_SIZE - 1)
    as Hk by (apply Z2Nat.id; unfold IRC_MESSAGE_SIZE; lia).
  revert Hk. generalize (Z.to_nat (IRC_MESSAGE_SIZE - 1)). intros k Hk.
  rewrite E. run_step.
  destruct (read_loop_total k w s p r E) as (n & r' & w' & -> & Hn & _).
  run_step. eexists _, _, _. split; [reflexivity|]. lia.
Qed.

(** A well-formed line is read up to and including its terminator. *)
Example read_message_ping :
  ∃ r', irc_read_message one_connection 0%nat
          (fresh_reader (list_ascii_of_string ("PING" +:+ CRLF +:+ "NEXT")))
        = Done (6, r', one_connection) ∧
        take 7 (buf r') = list_ascii_of_string ("PING" +:+ CRLF) ++ [NUL] ∧
        stream r' = Received <$> list_ascii_of_string "NEXT".
Proof. eexists. split; [vm_compute; reflexivity | split; vm_compute; reflexivity]. Qed.

(** C2.  The claim asks that reading a line stop exactly when the two-byte
    terminator was seen or the size limit was reached.  On the code the
    loop goes on only while [buf[i-2] != '\r'] and [buf[i-1] != '\n'] both
    hold, so a lone ['\n'] as the last byte (or a lone ['\r'] one byte
    earlier) ends the line.  On the input [a \n b c \r \n] the call returns
    2 after the bytes [a \n]: no terminator was seen, the limit is far, and
    [b c \r \n] is left on the transport. *)
Theorem read_message_stops_at_bare_newline :
  ∃ r', irc_read_message one_connection 0%nat
          (fresh_reader ["a"; LF; "b"; "c"; CR; LF]%char)
        = Done (2, r', one_connection) ∧
        2 < IRC_MESSAGE_SIZE - 1 ∧
        take 3 (buf r') = ["a"; LF; NUL]%char ∧
        stream r' = Received <$> ["b"; "c"; CR; LF]%char.
Proof.
  eexists. split; [vm_compute; reflexivity|].
  split; [reflexivity|]. split; vm_compute; reflexivity.
Qed.

(** The same with a lone ['\r']: [\r x y \r \n] is cut after [\r x]. *)
Example read_message_stops_after_bare_return :
  ∃ r', irc_read_message one_connection 0%nat
          (fresh_reader [CR; "x"; "y"; CR; LF]%char)
        = Done (2, r', one_connection) ∧
        stream r' = Received <$> ["y"; CR; LF]%char.
Proof. eexists. split; vm_compute; reflexivity. Qed.

(** A call that finds nothing to read does not end the line: the index
    moves on, the slot keeps what it held, and the byte that arrives on
    the next call lands behind it.  Here [a] arrives, one call fails with
    [EAGAIN], then [b \r \n]: the buffer holds [a \0 b \r \n], the result is
    5, and [errno] is left at [EAGAIN]. *)
Example read_message_after_would_block :
  ∃ r', irc_read_message one_connection 0%nat
          (mk_reader (NUL, NUL) (replicate (Z.to_nat IRC_MESSAGE_SIZE) NUL) []
             [Received "a"; would_block; Received "b"; Received CR; Received LF])
        = Done (5, r', set_errno EAGAIN one_connection) ∧
        take 6 (buf r') = ["a"; NUL; "b"; CR; LF; NUL]%char ∧
        c_string (buf r') = "a" ∧
        stream r' = [].
Proof.
  eexists. split; [vm_compute; reflexivity|]. split; [|split]; vm_compute; reflexivity.
Qed.

(** ** Inbound dispatch (C4) *)

(** C4.  For a line taken from the inbound queue of a live connection:
    an empty line makes [handle_message] return with nothing called and
    nothing changed; a line the parser rejects is logged and nothing else
    happens (the connection, its queues and its running flag are as before);
    a line parsed as a message with command [X] makes exactly two hook
    calls, first keyed [X], then keyed ["*"]. *)
Theorem handle_message_dispatch `{External} w conn c message :
  heap w !! conn = Some (Live c) →
  (String.length message = 0%nat → handle_message w conn message = Done w) ∧
  (String.length message ≠ 0%nat → ircmsg_parse message = None →
   handle_message w conn message = Done (emit (EvLog parse_error_text) w)) ∧
  (∀ m, String.length message ≠ 0%nat → ircmsg_parse message = Some m →
   handle_message w conn message
   = Done (emit (EvHook (server c) "*" m)
             (emit (EvHook (server c) (command m) m) w))).
Proof.
  intros Hc. apply load_Done in Hc. unfold handle_message. repeat split.
  - intros Hlen. by rewrite decide_True.
  - intros Hlen Hparse. rewrite decide_False by done. by rewrite Hparse.
  - intros m Hlen Hparse. rewrite decide_False by done. rewrite Hparse.
    unfold exec_hooks. run_step. rewrite Hc. run_step. by rewrite ?Hc.
Qed.

Lemma handle_message_dispatch_witness :
  handle_message (H := sample_external) one_connection 0%nat "" = Done one_connection ∧
  handle_message (H := sample_external) one_connection 0%nat "JUNK"
  = Done (emit (EvLog parse_error_text) one_connection) ∧
  handle_message (H := sample_external) one_connection 0%nat "PING :irc"
  = Done (emit (EvHook 0%nat "*" (mk_msg None "PING" []))
            (emit (EvHook 0%nat "PING" (mk_msg None "PING" [])) one_connection)).
Proof.
  pose proof (λ message,
    @handle_message_dispatch sample_external one_connection 0%nat
      (mk_conn 0%nat 3 false [] []) message eq_refl) as Hd.
  split; [|split].
  - apply (Hd ""). reflexivity.
  - apply (Hd "JUNK"); [discriminate | reflexivity].
  - apply (Hd "PING :irc" ); [discriminate | reflexivity].
Defined.

Lemma handle_message_spec `{External} w conn c message :
  heap w !! conn = Some (Live c) →
  handle_message w conn message
  = Done (mk_world (conns w) (heap w) (errno w)
                   (trace w ++ line_events (server c) message)).
Proof.
  intros Hc. apply load_Done in Hc. unfold handle_message, line_events.
  destruct (decide (String.length message = 0%nat)) as [Hz|Hnz].
  - rewrite app_nil_r. by destruct w.
  - destruct (ircmsg_parse message) as [m|] eqn:Hparse; [|reflexivity].
    unfold exec_hooks. run_step. rewrite Hc. run_step. rewrite ?Hc. run_step.
    unfold emit. simpl. by rewrite <- app_assoc.
Qed.

Lemma with_write_queue_id c : with_write_queue c (write_queue c) = c.
Proof. by destruct c. Qed.

Lemma with_read_queue_id c : with_read_queue c (read_queue c) = c.
Proof. by destruct c. Qed.

Lemma read_queue_loop_spec `{External} q w conn c :
  heap w !! conn = Some (Live c) → read_queue c = q →
  read_queue_loop q conn w
  = Done (mk_world (conns w) (<[conn := Live (with_read_queue c [])]> (heap w))
                   (errno w)
                   (trace w ++ concat (line_events (server c) <$> q))).
Proof.
  revert w c. induction q as [|message next IH]; intros w c Hc Hq.
  - simpl. rewrite <- Hq, with_read_queue_id, (list_insert_id _ _ _ Hc), app_nil_r.
    by destruct w.
  - cbn [read_queue_loop]. rewrite (handle_message_spec w conn c message Hc).
    run_step. pose proof Hc as Hl. apply load_Done in Hl. rewrite Hl. run_step.
    unfold store. run_step. rewrite Hl. run_step.
    rewrite (IH _ (with_read_queue c next)).
    + run_step. rewrite list_insert_insert_eq. simpl.
      by rewrite <- app_assoc.
    + simpl. apply list_lookup_insert_eq. by apply lookup_lt_Some in Hc.
    + reflexivity.
Qed.

(** X17.  The inbound drain on any live connection: every queued line is
    handed to [handle_message] once, in queue order (an empty line gives no
    call, a rejected line one log call, a parsed line its two hook calls),
    the inbound queue is left empty, and nothing else of the world
    changes. *)
Lemma read_drain_dispatches `{External} w conn c :
  heap w !! conn = Some (Live c) →
  irc_process_read_message_queue w conn
  = Done (mk_world (conns w) (<[conn := Live (with_read_queue c [])]> (heap w))
                   (errno w)
                   (trace w ++ concat (line_events (server c) <$> read_queue c))).
Proof.
  intros Hc. unfold irc_process_read_message_queue.
  pose proof Hc as Hl. apply load_Done in Hl. rewrite Hl. run_step.
  by apply read_queue_loop_spec.
Qed.

(** ** Outbound queue (C5) *)

(** Walking to the last node and linking behind it appends at the end. *)
Lemma mq_append_snoc q str : mq_append q str = q ++ [str].
Proof. induction q as [|m q IH]; simpl; [done | by rewrite IH]. Qed.

Lemma lookup_hit_server w s p c :
  get_irc_server_connection w s = Done (Some p) →
  heap w !! p = Some (Live c) → server c = s.
Proof.
  intros E Hp. destruct (scan_conns_hit _ _ _ _ E) as (_ & c' & Hp' & Hs).
  congruence.
Qed.

Lemma set_heap_id w : set_heap (heap w) w = w.
Proof. by destruct w. Qed.

Lemma push_all_spec w s p c strs :
  get_irc_server_connection w s = Done (Some p) →
  heap w !! p = Some (Live c) →
  push_all w s strs
  = Done (set_heap (<[p := Live (with_write_queue c (write_queue c ++ strs))]> (heap w)) w).
Proof.
  revert w c. induction strs as [|str strs IH]; intros w c E Hp.
  - simpl. by rewrite app_nil_r, with_write_queue_id, (list_insert_id _ _ _ Hp), set_heap_id.
  - cbn [push_all]. rewrite (push_string_spec w s p c str E Hp). run_step.
    rewrite (IH _ (with_write_queue c (mq_append (write_queue c) str))).
    + unfold set_heap. simpl. rewrite list_insert_insert_eq.
      unfold with_write_queue. simpl. by rewrite mq_append_snoc, <- app_assoc.
    + by rewrite (lookup_store_same_server w s p c).
    + simpl. apply list_lookup_insert_eq. by apply lookup_lt_Some in Hp.
Qed.

Lemma write_bytes_spec `{External} w s p c str :
  get_irc_server_connection w s = Done (Some p) →
  heap w !! p = Some (Live c) →
  irc_write_bytes w s str
  = Done (emit (EvSend (secure (server_at s)) (socket c) str) w).
Proof.
  intros E Hp. unfold irc_write_bytes. rewrite E. run_step.
  apply load_Done in Hp. by rewrite Hp.
Qed.

Lemma write_loop_spec `{External} q w p c :
  get_irc_server_connection w (server c) = Done (Some p) →
  heap w !! p = Some (Live c) → write_queue c = q →
  write_loop q p w
  = Done (mk_world (conns w) (<[p := Live (with_write_queue c [])]> (heap w))
                   (errno w)
                   (trace w ++ (EvSend (secure (server_at (server c))) (socket c) <$> q))).
Proof.
  revert w c. induction q as [|str next IH]; intros w c E Hp Hq.
  - simpl. rewrite <- Hq, with_write_queue_id, (list_insert_id _ _ _ Hp), app_nil_r.
    by destruct w.
  - cbn [write_loop]. pose proof Hp as Hl. apply load_Done in Hl.
    rewrite Hl. run_step.
    rewrite (write_bytes_spec w (server c) p c str E Hp). run_step.
    rewrite Hl. run_step. unfold store. run_step. rewrite Hl. run_step.
    rewrite (IH _ (with_write_queue c next)).
    + run_step. rewrite list_insert_insert_eq. simpl. by rewrite <- app_assoc.
    + unfold get_irc_server_connection in *. simpl.
      erewrite scan_conns_insert_live; [exact E | exact Hp | reflexivity].
    + simpl. apply list_lookup_insert_eq. by apply lookup_lt_Some in Hp.
    + reflexivity.
Qed.

(** C5.  On the outbound queue of a connected server: after any sequence
    of [irc_push_string] calls, one run of
    [irc_process_write_message_queue] hands to the socket, one send per
    entry and in the order of the calls, what was queued before followed by
    every string pushed, and leaves the queue empty. *)
Theorem write_queue_fifo `{External} w s p c strs :
  get_irc_server_connection w s = Done (Some p) →
  heap w !! p = Some (Live c) →
  ∃ w1 w2,
    push_all w s strs = Done w1 ∧
    irc_process_write_message_queue w1 p = Done w2 ∧
    trace w2 = trace w ++ (EvSend (secure (server_at s)) (socket c)
                             <$> (write_queue c ++ strs)) ∧
    ∃ c2, heap w2 !! p = Some (Live c2) ∧ write_queue c2 = [].
Proof.
  intros E Hp. pose proof (lookup_hit_server w s p c E Hp) as Hs.
  eexists _, _. split; [exact (push_all_spec w s p c strs E Hp)|].
  set (c1 := with_write_queue c (write_queue c ++ strs)).
  assert (heap w !! p = Some (Live c) → (p < length (heap w))%nat) as Hlt
    by apply lookup_lt_Some.
  assert (irc_process_write_message_queue
            (set_heap (<[p := Live c1]> (heap w)) w) p
          = Done (mk_world (conns w)
                    (<[p := Live (with_write_queue c1 [])]> (<[p := Live c1]> (heap w)))
                    (errno w)
                    (trace w ++ (EvSend (secure (server_at (server c1))) (socket c1)
                                   <$> write_queue c1)))) as Hdrain.
  { unfold irc_process_write_message_queue. run_step.
    rewrite (load_insert_live _ p c c1 Hp). run_step.
    rewrite (write_loop_spec (write_queue c1) _ p c1); [done | | | done].
    - unfold get_irc_server_connection in *. simpl.
      rewrite (scan_conns_insert_live (heap w) (server c) (conns w) p c c1 Hp eq_refl).
      by rewrite Hs.
    - simpl. apply list_lookup_insert_eq. auto. }
  split; [exact Hdrain|]. split.
  - simpl. by rewrite Hs.
  - exists (with_write_queue c1 []). split; [|done].
    simpl. apply list_lookup_insert_eq. rewrite length_insert. auto.
Qed.

Lemma write_queue_fifo_witness :
  ∃ w1 w2,
    push_all one_connection 0%nat ["NICK circ"; "USER circ"; "JOIN #circ"] = Done w1 ∧
    irc_process_write_message_queue (H := sample_external) w1 0%nat = Done w2 ∧
    trace w2 = trace one_connection
               ++ (EvSend (secure (server_at (External := sample_external) 0%nat)) 3
                     <$> ([] ++ ["NICK circ"; "USER circ"; "JOIN #circ"])) ∧
    ∃ c2, heap w2 !! 0%nat = Some (Live c2) ∧ write_queue c2 = [].
Proof.
  apply (@write_queue_fifo sample_external one_connection 0%nat 0%nat
           (mk_conn 0%nat 3 false [] [])); reflexivity.
Defined.

(** ** Steps that do not register anything *)

Lemma heap_shrinks_refl h : heap_shrinks h h.
Proof. split; [done | eauto]. Qed.

Lemma heap_shrinks_trans h1 h2 h3 :
  heap_shrinks h1 h2 → heap_shrinks h2 h3 → heap_shrinks h1 h3.
Proof.
  intros [L12 S12] [L23 S23]. split; [congruence|].
  intros q c3 H3. destruct (S23 q c3 H3) as (c2 & H2 & E23).
  destruct (S12 q c2 H2) as (c1 & H1 & E12). exists c1. split; congruence.
Qed.

Lemma heap_shrinks_insert_live h p c c' :
  h !! p = Some (Live c) → server c' = server c →
  heap_shrinks h (<[p := Live c']> h).
Proof.
  intros Hp Hs. split; [apply length_insert|].
  intros q d Hq. destruct (decide (p = q)) as [<-|Hne].
  - rewrite list_lookup_insert_eq in Hq by (by apply lookup_lt_Some in Hp).
    injection Hq as <-. eauto.
  - rewrite list_lookup_insert_ne in Hq by done. eauto.
Qed.

Lemma heap_shrinks_insert_freed h p : heap_shrinks h (<[p := Freed]> h).
Proof.
  split; [apply length_insert|].
  intros q d Hq. destruct (decide (p = q)) as [<-|Hne].
  - apply list_lookup_insert_Some in Hq as [(_ & Hq & _)|(Hne & _)]; [discriminate | done].
  - rewrite list_lookup_insert_ne in Hq by done. eauto.
Qed.

Lemma quiet_refl w : quiet w w.
Proof. split; [done | apply heap_shrinks_refl]. Qed.

Lemma quiet_trans w1 w2 w3 : quiet w1 w2 → quiet w2 w3 → quiet w1 w3.
Proof.
  intros [C12 H12] [C23 H23]. split; [congruence | eauto using heap_shrinks_trans].
Qed.

Lemma quiet_emit e w : quiet w (emit e w).
Proof. split; [done | apply heap_shrinks_refl]. Qed.

Lemma store_quiet p c' w w' :
  store p c' w = Done w' →
  (∀ c, heap w !! p = Some (Live c) → server c' = server c) →
  quiet w w'.
Proof.
  unfold store. intros E Hs. apply bind_Done in E as (c & Hc & E).
  apply load_Done in Hc. injection E as <-.
  split; [done|]. simpl. eauto using heap_shrinks_insert_live.
Qed.

Lemma push_string_quiet w s str w' :
  irc_push_string w s str = Done w' → quiet w w'.
Proof.
  unfold irc_push_string. intros E.
  apply bind_Done in E as ([p|] & El & E); [|discriminate].
  apply bind_Done in E as (c & Hc & E).
  apply load_Done in Hc. eapply store_quiet; [exact E|].
  intros c0 Hc0. simpl. congruence.
Qed.

Lemma quit_quiet `{External} w s w' :
  quit_irc_connection w s = Done w' → quiet w w'.
Proof.
  intros E. destruct (quit_Done w s w' E) as (p & c & _ & _ & ->).
  split; [done | apply heap_shrinks_insert_freed].
Qed.

Lemma write_bytes_quiet `{External} w s str w' :
  irc_write_bytes w s str = Done w' → quiet w w'.
Proof.
  unfold irc_write_bytes. intros E.
  apply bind_Done in E as ([p|] & El & E).
  - apply bind_Done in E as (c & Hc & E). injection E as <-. apply quiet_emit.
  - injection E as <-. apply quiet_refl.
Qed.

Lemma write_loop_quiet `{External} q conn w w' :
  write_loop q conn w = Done w' → quiet w w'.
Proof.
  revert w. induction q as [|str next IH]; intros w E.
  - injection E as <-. apply quiet_refl.
  - cbn [write_loop] in E.
    apply bind_Done in E as (c & Hc & E).
    apply bind_Done in E as (w1 & Hw1 & E).
    apply bind_Done in E as (c1 & Hc1 & E).
    apply bind_Done in E as (w2 & Hw2 & E).
    apply write_bytes_quiet in Hw1. apply load_Done in Hc1.
    apply store_quiet in Hw2; [|intros c0 Hc0; simpl; congruence].
    eauto using quiet_trans.
Qed.

Lemma handle_message_quiet `{External} w conn message w' :
  handle_message w conn message = Done w' → quiet w w'.
Proof.
  unfold handle_message. intros E.
  destruct (decide (String.length message = 0%nat)).
  - injection E as <-. apply quiet_refl.
  - destruct (ircmsg_parse message) as [m|].
    + apply bind_Done in E as (c & Hc & E).
      apply bind_Done in E as (c1 & Hc1 & E). injection E as <-.
      split; [done | apply heap_shrinks_refl].
    + injection E as <-. apply quiet_emit.
Qed.

Lemma read_queue_loop_quiet `{External} q conn w w' :
  read_queue_loop q conn w = Done w' → quiet w w'.
Proof.
  revert w. induction q as [|message next IH]; intros w E.
  - injection E as <-. apply quiet_refl.
  - cbn [read_queue_loop] in E.
    apply bind_Done in E as (w1 & Hw1 & E).
    apply bind_Done in E as (c1 & Hc1 & E).
    apply bind_Done in E as (w2 & Hw2 & E).
    apply handle_message_quiet in Hw1. apply load_Done in Hc1.
    apply store_quiet in Hw2; [|intros c0 Hc0; simpl; congruence].
    eauto using quiet_trans.
Qed.

Lemma reactor_drain_quiet `{External} w conn b w' :
  reactor_drain w conn = Done (b, w') → quiet w w'.
Proof.
  unfold reactor_drain, irc_process_read_message_queue,
    irc_process_write_message_queue. intros E.
  apply bind_Done in E as (w1 & Hw1 & E).
  apply bind_Done in Hw1 as (c & Hc & Hw1).
  apply bind_Done in E as (w2 & Hw2 & E).
  apply bind_Done in Hw2 as (c1 & Hc1 & Hw2).
  apply bind_Done in E as (c2 & Hc2 & E). injection E as _ <-.
  apply read_queue_loop_quiet in Hw1. apply write_loop_quiet in Hw2.
  eauto using quiet_trans.
Qed.

(** Reading a line changes nothing of the world but [errno]. *)
Lemma read_message_frame w s r n r' w' :
  irc_read_message w s r = Done (n, r', w') →
  conns w' = conns w ∧ heap w' = heap w ∧ trace w' = trace w.
Proof.
  unfold irc_read_message. generalize (Z.to_nat (IRC_MESSAGE_SIZE - 1)).
  intros k E. apply bind_Done in E as ([p|] & El & E).
  - apply bind_Done in E as ([[i r1] w1] & Hloop & E). injection E as _ _ <-.
    destruct (read_loop_total k w s p r El) as (n0 & r0 & w0 & Hl & _ & _ & Hf).
    rewrite Hl in Hloop. by injection Hloop as _ _ <-.
  - by injection E as _ _ <-.
Qed.

Lemma read_callback_quiet w wt u input w' rest :
  irc_loop_read_callback w wt u input = Done (w', rest) → quiet w w'.
Proof.
  unfold irc_loop_read_callback. intros E.
  apply bind_Done in E as ([conn|] & _ & E); [|discriminate].
  apply bind_Done in E as (cn & Hcn & E).
  apply bind_Done in E as ([[n rd] w1] & Hread & E).
  apply bind_Done in E as (cn1 & Hcn1 & E).
  destruct (read_queue cn1); [|discriminate].
  apply bind_Done in E as (w2 & Hstore & E). injection E as <- _.
  apply read_message_frame in Hread as (Hc & Hh & _).
  apply load_Done in Hcn1.
  apply store_quiet in Hstore; [|intros c0 Hc0; simpl; congruence].
  destruct Hstore as [Hc2 Hs2]. split; [congruence | by rewrite <- Hh].
Qed.

Lemma reactor_cycle_quiet `{External} w conn e input w' rest :
  reactor_cycle w conn e input = Done (w', rest) → quiet w w'.
Proof.
  unfold reactor_cycle, irc_process_read_message_queue,
    irc_process_write_message_queue. intros E.
  apply bind_Done in E as ([w1 in1] & Hcb & E).
  apply bind_Done in E as (w2 & Hw2 & E).
  apply bind_Done in Hw2 as (c & Hc & Hw2).
  apply bind_Done in E as (w3 & Hw3 & E).
  apply bind_Done in Hw3 as (c1 & Hc1 & Hw3). injection E as <- _.
  apply read_queue_loop_quiet in Hw2. apply write_loop_quiet in Hw3.
  assert (quiet w w1) as Hq1.
  { destruct e as [u|].
    - by apply read_callback_quiet in Hcb.
    - injection Hcb as <- _. apply quiet_refl. }
  eauto using quiet_trans.
Qed.

Lemma reactor_cycles_quiet `{External} es : ∀ w conn input st w' rest,
  reactor_cycles es w conn input = Done (st, w', rest) → quiet w w'.
Proof.
  induction es as [|e es IH]; intros w conn input st w' rest E;
    cbn [reactor_cycles] in E;
    apply bind_Done in E as (cn & Hcn & E); destruct (ev_is_running cn).
  - injection E as _ <- _. apply quiet_refl.
  - injection E as _ <- _. apply quiet_refl.
  - apply bind_Done in E as ([w1 in1] & Hcy & E).
    apply reactor_cycle_quiet in Hcy. apply IH in E. eauto using quiet_trans.
  - injection E as _ <- _. apply quiet_refl.
Qed.

Lemma event_loop_quiet `{External} w s es input st w' rest :
  irc_do_event_loop w s es input = Done (st, w', rest) → quiet w w'.
Proof.
  unfold irc_do_event_loop. intros E.
  apply bind_Done in E as ([conn|] & _ & E); [|discriminate].
  apply bind_Done in E as (cn & Hcn & E).
  apply bind_Done in E as (w1 & Hstore & E).
  apply load_Done in Hcn.
  apply store_quiet in Hstore; [|intros c0 Hc0; simpl; congruence].
  apply reactor_cycles_quiet in E. eauto using quiet_trans.
Qed.

Lemma call_connect_or_not (c : call) :
  (∃ s env, c = CallConnect s env) ∨ (∀ s env, c ≠ CallConnect s env).
Proof. destruct c; first [by left; eauto | by right]. Qed.

(** Every call but a connect leaves the registry array alone and
    allocates nothing. *)
Lemma exec_quiet `{External} w c w' :
  exec w c = Done w' → (∀ s env, c ≠ CallConnect s env) → quiet w w'.
Proof.
  intros Hexec Hc.
  destruct c as [s env|s|s str|s m|conn|s es input|conn e input]; cbn [exec] in Hexec.
  - by destruct (Hc s env).
  - eauto using quit_quiet.
  - eauto using push_string_quiet.
  - unfold irc_push_message in Hexec. eauto using push_string_quiet.
  - apply bind_Done in Hexec as ([b w1] & Hdrain & Hexec).
    injection Hexec as ->. eauto using reactor_drain_quiet.
  - apply bind_Done in Hexec as ([[st w1] rest] & Hloop & Hexec).
    injection Hexec as ->. eauto using event_loop_quiet.
  - apply bind_Done in Hexec as ([w1 rest] & Hcy & Hexec).
    injection Hexec as ->. eauto using reactor_cycle_quiet.
Qed.

Lemma registry_ok_quiet w w' ps :
  registry_ok (conns w) (heap w) ps → quiet w w' →
  registry_ok (conns w') (heap w') ps.
Proof.
  intros [Hslots Hcap Halloc Hnodup Hservers] [Hconns [Hlen Hlive]].
  split; try done.
  - congruence.
  - intros p Hp. rewrite Hlen. auto.
  - intros p q c d Hp Hq Hc Hd Hs.
    destruct (Hlive p c Hc) as (c0 & Hc0 & Ec).
    destruct (Hlive q d Hd) as (d0 & Hd0 & Ed).
    apply (Hservers p q c0 d0); congruence.
Qed.

(** ** Connecting *)

Lemma failed_sockets_frame a errs w :
  conns (failed_sockets a errs w) = conns w ∧
  heap (failed_sockets a errs w) = heap w.
Proof.
  unfold failed_sockets. revert w. induction errs as [|e errs IH]; intros w; [done|].
  simpl. destruct (IH (emit (EvSocket a (-1)) (set_errno e w))) as [-> ->]. done.
Qed.

(** The search for an address touches neither the registry nor the heap. *)
Lemma connect_loop_frame net ai conn sock w :
  conns (connect_loop net ai conn sock w).2 = conns w ∧
  heap (connect_loop net ai conn sock w).2 = heap w.
Proof.
  revert conn sock w. induction ai as [|a ai IH]; intros conn sock w.
  - simpl. by destruct (negb (conn =? -1)).
  - cbn [connect_loop]. destruct (negb (conn =? -1)); [done|].
    destruct (failed_sockets_frame a (socket_errs (net a)) w) as [Fc Fh].
    destruct (connect_res (net a)) as [|e]; cbv zeta.
    + match goal with |- context [if ?b then _ else _] => destruct b end.
      * destruct (IH (-1) (sock_fd (net a))
          (set_errno 0 (emit (EvClose (sock_fd (net a)))
             (emit (EvConnect (sock_fd (net a)) a 0)
                (emit (EvSocket a (sock_fd (net a)))
                   (failed_sockets a (socket_errs (net a)) w))))))
          as [-> ->]. done.
      * done.
    + match goal with |- context [if ?b then _ else _] => destruct b end.
      * destruct (IH (-1) (sock_fd (net a))
          (set_errno 0 (emit (EvClose (sock_fd (net a)))
             (emit (EvConnect (sock_fd (net a)) a (-1))
                (set_errno e (emit (EvSocket a (sock_fd (net a)))
                   (failed_sockets a (socket_errs (net a)) w)))))))
          as [-> ->]. done.
      * done.
Qed.

(** What a returning [irc_server_connect] has done: either it refused
    (and then only logged), or the lookup found nothing, the cap was not
    reached, one connection was allocated and [make_irc_connection_entry]
    ran on it. *)
Lemma connect_cases `{External} w s env r w' :
  irc_server_connect w s env = Done (r, w') →
  (r = -1 ∧ ∃ text, w' = emit (EvLog text) w) ∨
  (r = 0 ∧ get_irc_server_connection w s = Done None ∧
   connections_cap_reached w = false ∧
   ∃ sock, heap w' = heap w ++ [Live (mk_conn s sock false [] [])] ∧
           conns w' = (entry_loop MAX_CONNECTIONS 0 (conns w) (length (heap w))).2).
Proof.
  unfold irc_server_connect, server_connected. intros E.
  apply bind_Done in E as (connected & Hconn & E).
  apply bind_Done in Hconn as (r0 & Hr0 & Hconn). injection Hconn as <-.
  destruct r0 as [p|]; simpl in E.
  { injection E as <- <-. left. eauto. }
  destruct (connections_cap_reached w) eqn:Hcap.
  { injection E as <- <-. left. eauto. }
  right.
  apply bind_Done in E as ([sock w1] & Hsock & E).
  unfold irc_create_socket in Hsock.
  destruct (resolved env) as [ai|]; [|discriminate]. injection Hsock as Hloop.
  destruct (connect_loop_frame (net env) ai (-1) (-1) w) as [Fc Fh].
  rewrite Hloop in Fc, Fh. simpl in Fc, Fh.
  destruct (sock =? -1); [discriminate|].
  apply bind_Done in E as ([ret w2] & Hsetup & E).
  unfold setup_irc_connection, create_irc_connection in Hsetup.
  destruct (malloc_ok env).
  - unfold make_irc_connection_entry in Hsetup. run_step in Hsetup.
    destruct (entry_loop MAX_CONNECTIONS 0 (conns w1) (length (heap w1)))
      as [r1 cs] eqn:Hentry.
    apply bind_Done in Hsetup as (w3 & Hw3 & Hsetup).
    destruct (negb (nonblock_ok env)); [discriminate|].
    destruct (negb (select_ok env)); [discriminate|].
    injection Hsetup as <- <-. injection E as <- <-.
    split; [done|]. split; [done|]. split; [done|]. exists sock.
    rewrite Fc, Fh in Hentry. rewrite Hentry. run_step.
    destruct (secure (server_at s)).
    + unfold encrypt_irc_connection in Hw3.
      apply bind_Done in Hw3 as (cn & _ & Hw3). injection Hw3 as <-.
      run_step. by rewrite Fh.
    + injection Hw3 as <-. run_step. by rewrite Fh.
  - injection Hsetup as <- <-. discriminate.
Qed.

(** ** The registry invariant *)

(** A lookup that comes back empty has walked over every registered
    connection: all were alive and none belonged to [s]. *)
Lemma scan_conns_miss h s ps rest :
  scan_conns h s ((Some <$> ps) ++ rest) = Done None →
  ∀ p, p ∈ ps → ∃ c, h !! p = Some (Live c) ∧ server c ≠ s.
Proof.
  induction ps as [|q ps IH]; intros E p Hp; [by apply elem_of_nil in Hp|].
  simpl in E. apply bind_Done in E as (c & Hc & E). apply load_Done in Hc.
  destruct (decide (s = server c)) as [->|Hne]; [discriminate|].
  apply elem_of_cons in Hp as [->|Hp]; [eauto | by apply IH].
Qed.

(** When every registered connection is alive the lookup is defined. *)
Lemma scan_conns_defined h s ps rest :
  (∀ p, p ∈ ps → ∃ c, h !! p = Some (Live c)) →
  ∃ r, scan_conns h s ((Some <$> ps) ++ None :: rest) = Done r.
Proof.
  induction ps as [|q ps IH]; intros Hlive; [by eexists|].
  simpl. destruct (Hlive q) as [c Hc]; [left|].
  apply load_Done in Hc. rewrite Hc. run_step.
  destruct (decide (s = server c)); [by eexists|].
  apply IH. intros p Hp. apply Hlive. by right.
Qed.

Lemma scan_conns_hit_registered h s ps k p :
  scan_conns h s ((Some <$> ps) ++ replicate k None) = Done (Some p) → p ∈ ps.
Proof.
  intros E. apply scan_conns_hit in E as [Hin _].
  apply elem_of_app in Hin as [Hin|Hin].
  - apply list_elem_of_fmap in Hin as (q & [= ->] & Hq). done.
  - apply elem_of_replicate in Hin as [? _]. discriminate.
Qed.

(** [make_irc_connection_entry] on a registry of that shape stores the
    pointer in the first free slot, right behind the ones in use. *)
Lemma entry_loop_first_free n i ps m c :
  (i ≤ length ps)%nat → (length ps - i < n)%nat →
  entry_loop n i ((Some <$> ps) ++ replicate (S m) None) c
  = (0, (Some <$> (ps ++ [c])) ++ replicate m None).
Proof.
  revert i. induction n as [|n IH]; intros i Hi Hn; [lia|].
  cbn [entry_loop].
  destruct (decide (i = length ps)) as [->|Hne].
  - rewrite lookup_app_r by (by rewrite length_fmap).
    rewrite length_fmap, Nat.sub_diag. cbn [replicate lookup list_lookup].
    f_equal. rewrite <- (length_fmap Some ps) at 1.
    rewrite <- (Nat.add_0_r (length (Some <$> ps))), insert_app_r.
    rewrite fmap_app, <- app_assoc. reflexivity.
  - assert (i < length ps)%nat as Hlt by lia.
    rewrite lookup_app_l by (by rewrite length_fmap).
    rewrite list_lookup_fmap.
    destruct (lookup_lt_is_Some_2 ps i Hlt) as [q ->]. simpl.
    apply IH; lia.
Qed.

(** On a registry whose ten usable slots are taken the loop runs out and
    [make_irc_connection_entry] returns [-1] without storing anything. *)
Lemma entry_loop_full n i ps rest c :
  (i + n ≤ length ps)%nat →
  entry_loop n i ((Some <$> ps) ++ rest) c = (-1, (Some <$> ps) ++ rest).
Proof.
  revert i. induction n as [|n IH]; intros i Hi; [done|].
  cbn [entry_loop].
  rewrite lookup_app_l by (rewrite length_fmap; lia).
  rewrite list_lookup_fmap.
  destruct (lookup_lt_is_Some_2 ps i) as [q ->]; [lia|]. simpl.
  apply IH. lia.
Qed.

Lemma make_entry_full w ps c :
  registry_ok (conns w) (heap w) ps → length ps = MAX_CONNECTIONS →
  make_irc_connection_entry w c = (-1, w).
Proof.
  intros [Hslots _ _ _ _] Hlen. unfold make_irc_connection_entry.
  rewrite Hslots at 1. rewrite entry_loop_full by lia.
  rewrite <- Hslots. by destruct w.
Qed.

Lemma cap_reached_iff w ps :
  registry_ok (conns w) (heap w) ps →
  connections_cap_reached w = true ↔ length ps = MAX_CONNECTIONS.
Proof.
  intros [Hslots Hcap _ _ _]. unfold connections_cap_reached. rewrite Hslots.
  split.
  - intros Hc. destruct (decide (length ps = MAX_CONNECTIONS)) as [|Hne]; [done|].
    rewrite lookup_app_r in Hc
      by (rewrite length_fmap; unfold MAX_CONNECTIONS in *; lia).
    rewrite length_fmap in Hc.
    destruct (replicate _ _ !! _) as [[q|]|] eqn:Hr; try discriminate.
    apply lookup_replicate in Hr as [? _]. discriminate.
  - intros Hlen.
    rewrite lookup_app_l by (rewrite length_fmap, Hlen; unfold MAX_CONNECTIONS; lia).
    rewrite list_lookup_fmap.
    destruct (lookup_lt_is_Some_2 ps (MAX_CONNECTIONS - 1)) as [q ->];
      [rewrite Hlen; unfold MAX_CONNECTIONS; lia | done].
Qed.

Lemma registry_ok_init : registry_ok (conns init_world) (heap init_world) [].
Proof.
  split; simpl.
  - done.
  - lia.
  - intros p Hp. by apply elem_of_nil in Hp.
  - constructor.
  - intros p q c d Hp. by apply elem_of_nil in Hp.
Qed.

(** Registering a fresh connection for a server the lookup did not find. *)
Lemma registry_ok_connect cs h ps s c :
  registry_ok cs h ps →
  scan_conns h s cs = Done None →
  length ps ≠ MAX_CONNECTIONS →
  server c = s →
  registry_ok (entry_loop MAX_CONNECTIONS 0 cs (length h)).2
              (h ++ [Live c]) (ps ++ [length h]).
Proof.
  intros [Hslots Hcap Halloc Hnodup Hservers] Hmiss Hroom Hs.
  assert (length ps < MAX_CONNECTIONS)%nat as Hlt by lia.
  rewrite Hslots in Hmiss.
  pose proof (scan_conns_miss h s ps _ Hmiss) as Hothers.
  split.
  - rewrite Hslots.
    replace (S MAX_CONNECTIONS - length ps)%nat
      with (S (MAX_CONNECTIONS - length ps)) by lia.
    rewrite entry_loop_first_free by lia. simpl.
    rewrite length_app. simpl. do 2 f_equal. lia.
  - rewrite length_app. simpl. lia.
  - intros p Hp. rewrite length_app. simpl.
    apply elem_of_app in Hp as [Hp|Hp].
    + specialize (Halloc p Hp). lia.
    + apply list_elem_of_singleton in Hp as ->. lia.
  - apply NoDup_app. split; [done|]. split; [|apply NoDup_singleton].
    intros p Hp Hp'. apply list_elem_of_singleton in Hp' as ->.
    specialize (Halloc _ Hp). lia.
  - assert (∀ p d, p ∈ ps → (h ++ [Live c]) !! p = Some (Live d) →
                   h !! p = Some (Live d) ∧ server d ≠ s) as Hold.
    { intros p d Hp Hd. rewrite lookup_app_l in Hd by auto.
      destruct (Hothers p Hp) as (d' & Hd' & Hne). split; congruence. }
    assert (∀ d, (h ++ [Live c]) !! length h = Some (Live d) → server d = s) as Hnew.
    { intros d Hd. rewrite list_lookup_middle in Hd by done. congruence. }
    intros p q d e Hp Hq Hd He Hde.
    apply elem_of_app in Hp as [Hp|Hp]; apply elem_of_app in Hq as [Hq|Hq].
    + destruct (Hold p d Hp Hd) as [Hd' _]. destruct (Hold q e Hq He) as [He' _].
      eauto.
    + apply list_elem_of_singleton in Hq as ->.
      destruct (Hold p d Hp Hd) as [_ Hne]. specialize (Hnew e He). congruence.
    + apply list_elem_of_singleton in Hp as ->.
      destruct (Hold q e Hq He) as [_ Hne]. specialize (Hnew d Hd). congruence.
    + apply list_elem_of_singleton in Hp as ->.
      by apply list_elem_of_singleton in Hq as ->.
Qed.

(** Every world the module can be driven into has a registry of that
    shape. *)
Lemma reachable_registry_ok `{External} w :
  reachable w → ∃ ps, registry_ok (conns w) (heap w) ps.
Proof.
  induction 1 as [|w c w' Hreach [ps Hok] Hexec].
  - exists []. apply registry_ok_init.
  - destruct (call_connect_or_not c) as [(s & env & ->)|Hother].
    + cbn [exec] in Hexec.
      apply bind_Done in Hexec as ([r w1] & Hconnect & Hexec).
      injection Hexec as ->.
      destruct (connect_cases w s env r w' Hconnect)
        as [(_ & text & ->)|(_ & Hmiss & Hcap & sock & Hheap & Hconns)].
      * exists ps. exact Hok.
      * exists (ps ++ [length (heap w)]). rewrite Hheap, Hconns.
        apply (registry_ok_connect _ _ _ s); [done | done | | done].
        intros Hfull. apply (cap_reached_iff w ps Hok) in Hfull. congruence.
    + exists ps. apply (registry_ok_quiet w w' ps Hok).
      exact (exec_quiet w c w' Hexec Hother).
Qed.

(** ** Counting registry slots *)

Lemma filter_replicate_false {A} (f : A → bool) x k :
  f x = false → List.filter f (replicate k x) = [].
Proof. intros Hx. induction k as [|k IH]; simpl; [done | by rewrite Hx]. Qed.

Lemma filter_slots (f : option conn_ptr → bool) ps k :
  f None = false →
  length (List.filter f ((Some <$> ps) ++ replicate k None))
  = length (List.filter (λ p, f (Some p)) ps).
Proof.
  intros Hnone. rewrite List.filter_app, filter_replicate_false, app_nil_r by done.
  induction ps as [|p ps IH]; [done|].
  rewrite fmap_cons. cbn [List.filter].
  destruct (f (Some p)); cbn [length]; by rewrite IH.
Qed.

Lemma filter_all {A} (f : A → bool) l :
  length (List.filter f l) = length l → ∀ x, x ∈ l → f x = true.
Proof.
  induction l as [|a l IH]; intros Hlen x Hx; [by apply elem_of_nil in Hx|].
  pose proof (List.filter_length_le f l) as Hle.
  simpl in Hlen. destruct (f a) eqn:Ha; simpl in Hlen; [|lia].
  apply elem_of_cons in Hx as [->|Hx]; [done|]. apply IH; [lia | done].
Qed.

Lemma filter_none {A} (f : A → bool) l :
  (∀ x, x ∈ l → f x = false) → List.filter f l = [].
Proof.
  induction l as [|a l IH]; intros Hall; simpl; [done|].
  rewrite (Hall a) by left. apply IH. intros x Hx. apply Hall. by right.
Qed.

(** A list without repetition in which [f] picks out exactly [p]. *)
Lemma filter_only {A} (f : A → bool) l p :
  NoDup l → p ∈ l → f p = true → (∀ q, q ∈ l → f q = true → q = p) →
  List.filter f l = [p].
Proof.
  induction l as [|a l IH]; intros Hnd Hp Hfp Honly; [by apply elem_of_nil in Hp|].
  apply NoDup_cons in Hnd as [Ha Hnd]. simpl.
  destruct (f a) eqn:Hfa.
  - assert (a = p) as -> by (apply Honly; [left | done]).
    f_equal. apply filter_none. intros x Hx.
    destruct (f x) eqn:Hfx; [|done].
    assert (x = p) as -> by (apply Honly; [by right | done]). done.
  - apply elem_of_cons in Hp as [->|Hp]; [congruence|].
    apply IH; try done. intros q Hq. apply Honly. by right.
Qed.

Lemma registered_count w ps :
  registry_ok (conns w) (heap w) ps → registered w = length ps.
Proof.
  intros [Hslots _ _ _ _]. unfold registered. rewrite Hslots.
  rewrite filter_slots by done.
  rewrite (List.forallb_filter_id) ; [done|].
  by apply forallb_forall.
Qed.

Lemma live_count w ps :
  registry_ok (conns w) (heap w) ps →
  live_connections w = length (List.filter (λ p, live_slot (heap w) (Some p)) ps).
Proof.
  intros [Hslots _ _ _ _]. unfold live_connections. rewrite Hslots.
  by rewrite filter_slots.
Qed.

Lemma reachable_run `{External} w calls w' :
  reachable w → run w calls = Done w' → reachable w'.
Proof.
  revert w. induction calls as [|c calls IH]; intros w Hreach E.
  - injection E as <-. done.
  - cbn [run] in E. apply bind_Done in E as (w1 & Hc & E).
    eauto using reach_step.
Qed.

(** ** The connection cap (C3) *)

Lemma refused_makes_no_socket_call text w :
  List.filter is_socket_call (trace (emit (EvLog text) w))
  = List.filter is_socket_call (trace w).
Proof. simpl. by rewrite List.filter_app, app_nil_r. Qed.

Lemma filter_nil_none {A} (f : A → bool) l :
  length (List.filter f l) = 0%nat → ∀ x, x ∈ l → f x = false.
Proof.
  induction l as [|a l IH]; intros Hlen x Hx; [by apply elem_of_nil in Hx|].
  simpl in Hlen. destruct (f a) eqn:Ha; [simpl in Hlen; lia|].
  apply elem_of_cons in Hx as [->|Hx]; [done | by apply IH].
Qed.

Lemma filter_short {A} (f : A → bool) l :
  (length (List.filter f l) < length l)%nat → ∃ x, x ∈ l ∧ f x = false.
Proof.
  induction l as [|a l IH]; intros Hlen; [simpl in Hlen; lia|].
  simpl in Hlen. destruct (f a) eqn:Ha.
  - destruct IH as (x & Hx & Hfx); [simpl in Hlen; lia|].
    exists x. split; [by right | done].
  - exists a. split; [by left | done].
Qed.

(** A walk over registered connections of which one has been freed, and
    none of those still alive belongs to [s], ends in the freed one. *)
Lemma scan_conns_dangling h s ps rest :
  (∃ q, q ∈ ps ∧ h !! q = Some Freed) →
  (∀ p c, p ∈ ps → h !! p = Some (Live c) → server c ≠ s) →
  (∀ p, p ∈ ps → (p < length h)%nat) →
  scan_conns h s ((Some <$> ps) ++ rest) = Undefined UseAfterFree.
Proof.
  induction ps as [|x ps IH]; intros (q & Hq & Hfreed) Hother Halloc.
  - by apply elem_of_nil in Hq.
  - rewrite fmap_cons. cbn [app scan_conns]. unfold load.
    destruct (lookup_lt_is_Some_2 h x) as [[c|] Hx]; [apply Halloc; left | |];
      rewrite Hx; [|done].
    run_step. rewrite decide_False.
    + apply IH.
      * exists q. split; [|done].
        apply elem_of_cons in Hq as [->|Hq]; [congruence | done].
      * intros p d Hp. apply Hother. by right.
      * intros p Hp. apply Halloc. by right.
    + intros ->. by apply (Hother x c); [left | |].
Qed.

(** C3.  In every world the module can reach, [conns] holds at most
    [MAX_CONNECTIONS] pointers, hence at most that many live connections,
    and the registry is full by the code's own test,
    [connections_cap_reached], exactly when all [MAX_CONNECTIONS] slots are
    in use.  A connect attempt on a full registry is turned down as the
    claim says, with one log call and nothing else, as long as all the
    registered connections are alive.  Once one of them has quit, its slot
    still holds the freed pointer, the registry is as full as before, and
    an attempt for a server without a live entry does not return an error:
    the lookup that precedes the cap test reads the freed connection. *)
Theorem connect_on_full_registry `{External} w :
  reachable w →
  (registered w ≤ MAX_CONNECTIONS)%nat ∧
  (live_connections w ≤ registered w)%nat ∧
  (connections_cap_reached w = true ↔ registered w = MAX_CONNECTIONS) ∧
  ∀ s env, connections_cap_reached w = true →
    (live_connections w = MAX_CONNECTIONS →
     ∃ text, irc_server_connect w s env = Done (-1, emit (EvLog text) w) ∧
             List.filter is_socket_call (trace (emit (EvLog text) w))
             = List.filter is_socket_call (trace w)) ∧
    ((live_connections w < MAX_CONNECTIONS)%nat → entries_for w s = 0%nat →
     irc_server_connect w s env = Undefined UseAfterFree).
Proof.
  intros Hreach. destruct (reachable_registry_ok w Hreach) as [ps Hok].
  pose proof (registered_count w ps Hok) as Hreg.
  pose proof (live_count w ps Hok) as Hlive.
  pose proof (ok_cap _ _ _ Hok) as Hcap.
  pose proof (List.filter_length_le (λ p, live_slot (heap w) (Some p)) ps) as Hle.
  split; [lia|]. split; [lia|]. split.
  { rewrite Hreg. apply (cap_reached_iff w ps Hok). }
  intros s env Hreached.
  assert (length ps = MAX_CONNECTIONS) as Hlen
    by (by apply (cap_reached_iff w ps Hok)).
  split.
  - intros Hfull.
    assert (∀ p, p ∈ ps → ∃ c, heap w !! p = Some (Live c)) as Halive.
    { intros p Hp.
      assert (live_slot (heap w) (Some p) = true) as Hp'.
      { apply (filter_all (λ p, live_slot (heap w) (Some p)) ps); [lia | done]. }
      simpl in Hp'. destruct (heap w !! p) as [[c|]|]; try discriminate. eauto. }
    assert (∃ r, get_irc_server_connection w s = Done r) as [r Hr].
    { unfold get_irc_server_connection. rewrite (ok_slots _ _ _ Hok).
      replace (S MAX_CONNECTIONS - length ps)%nat with 1%nat by lia.
      by apply scan_conns_defined. }
    unfold irc_server_connect, server_connected. rewrite Hr. run_step.
    destruct r as [p|]; simpl.
    + eexists. split; [reflexivity | apply refused_makes_no_socket_call].
    + rewrite Hreached.
      eexists. split; [reflexivity | apply refused_makes_no_socket_call].
  - intros Hfewer Hnone.
    assert (get_irc_server_connection w s = Undefined UseAfterFree) as Hl.
    { unfold get_irc_server_connection. rewrite (ok_slots _ _ _ Hok).
      apply scan_conns_dangling.
      - destruct (filter_short (λ p, live_slot (heap w) (Some p)) ps)
          as (q & Hq & Hdead); [lia|].
        exists q. split; [done|]. simpl in Hdead.
        destruct (lookup_lt_is_Some_2 (heap w) q) as [x Hx];
          [by apply (ok_alloc _ _ _ Hok)|].
        rewrite Hx in Hdead |- *. by destruct x.
      - intros p c Hp Hc Hsame.
        unfold entries_for in Hnone.
        rewrite (ok_slots _ _ _ Hok), filter_slots in Hnone by done.
        pose proof (filter_nil_none _ ps Hnone p Hp) as Hf.
        simpl in Hf. rewrite Hc in Hf. by apply bool_decide_eq_false in Hf.
      - apply (ok_alloc _ _ _ Hok). }
    unfold irc_server_connect, server_connected. by rewrite Hl.
Qed.

(** X12.  With the last usable slot of [conns] in use, whatever the state
    of the other entries, [irc_server_connect] gets no further than its two
    tests: it returns [-1] having only logged, or the lookup that comes
    first has no defined behaviour.  It never reaches [irc_create_socket]
    and never exits the process. *)
Lemma connect_at_cap `{External} w s env :
  connections_cap_reached w = true →
  (∃ text, irc_server_connect w s env = Done (-1, emit (EvLog text) w)) ∨
  (∃ f, irc_server_connect w s env = Undefined f).
Proof.
  intros Hcap. unfold irc_server_connect, server_connected.
  assert (∀ code, get_irc_server_connection w s ≠ Exits code) as Hnoexit.
  { intros code. unfold get_irc_server_connection.
    induction (conns w) as [|[q|] cs IH]; simpl; try done.
    unfold load. destruct (heap w !! q) as [[c|]|]; simpl; try done.
    by destruct (decide (s = server c)). }
  destruct (get_irc_server_connection w s) as [[q|]|code|f]; simpl.
  - left. eauto.
  - rewrite Hcap. left. eauto.
  - by destruct (Hnoexit code).
  - right. eauto.
Qed.

Lemma ten_connections_reachable :
  reachable (H := sample_external) ten_connections.
Proof.
  apply (reachable_run (H := sample_external) init_world (connect_calls 10)).
  - apply reach_init.
  - vm_compute. reflexivity.
Qed.

Lemma full_after_quit_reachable :
  reachable (H := sample_external) full_after_quit.
Proof.
  apply (reachable_run (H := sample_external) init_world
           (connect_calls 10 ++ [CallQuit 0%nat])).
  - apply reach_init.
  - vm_compute. reflexivity.
Qed.

Lemma connect_on_full_registry_witness :
  connections_cap_reached full_after_quit = true ∧
  registered full_after_quit = MAX_CONNECTIONS ∧
  live_connections full_after_quit = 9%nat ∧
  irc_server_connect (H := sample_external) full_after_quit 0%nat (friendly_net 0)
  = Undefined UseAfterFree ∧
  irc_server_connect (H := sample_external) full_after_quit 10%nat (friendly_net 10)
  = Undefined UseAfterFree.
Proof.
  destruct (@connect_on_full_registry sample_external full_after_quit
              full_after_quit_reachable) as (_ & _ & _ & Hfull).
  split; [reflexivity|]. split; [reflexivity|]. split; [reflexivity|]. split.
  - apply (Hfull 0%nat (friendly_net 0)); [reflexivity | vm_compute; lia | reflexivity].
  - apply (Hfull 10%nat (friendly_net 10)); [reflexivity | vm_compute; lia | reflexivity].
Defined.

(** ** Connecting twice (C7) *)

(** A live registered connection is the one entry of its server. *)
Lemma entries_for_live w ps s p c :
  registry_ok (conns w) (heap w) ps →
  p ∈ ps → heap w !! p = Some (Live c) → server c = s →
  entries_for w s = 1%nat.
Proof.
  intros [Hslots _ _ Hnodup Hservers] Hp Hc Hs.
  unfold entries_for. rewrite Hslots, filter_slots by done.
  rewrite (filter_only _ ps p); try done.
  - simpl. rewrite Hc. by apply bool_decide_eq_true.
  - intros q Hq Hfq. simpl in Hfq.
    destruct (heap w !! q) as [[d|]|] eqn:Hd; try discriminate.
    apply bool_decide_eq_true in Hfq. apply (Hservers q p d c); congruence.
Qed.

Lemma entries_for_one w ps s p :
  registry_ok (conns w) (heap w) ps →
  get_irc_server_connection w s = Done (Some p) →
  entries_for w s = 1%nat.
Proof.
  intros Hok E. unfold get_irc_server_connection in E.
  destruct (scan_conns_hit _ _ _ _ E) as (_ & c & Hc & Hs).
  rewrite (ok_slots _ _ _ Hok) in E. apply scan_conns_hit_registered in E.
  by apply (entries_for_live w ps s p c).
Qed.

Lemma scan_conns_skip h s ps rest :
  (∀ p, p ∈ ps → ∃ c, h !! p = Some (Live c) ∧ server c ≠ s) →
  scan_conns h s ((Some <$> ps) ++ rest) = scan_conns h s rest.
Proof.
  induction ps as [|q ps IH]; intros Hall; [done|].
  rewrite fmap_cons. cbn [app scan_conns].
  destruct (Hall q) as (c & Hc & Hne); [left|].
  apply load_Done in Hc. rewrite Hc. run_step.
  rewrite decide_False by congruence.
  apply IH. intros p Hp. apply Hall. by right.
Qed.

(** A slot of the registry that is in use is one of the registered
    pointers, at the same position. *)
Lemma slots_lookup (ps : list conn_ptr) (k i : nat) (x : conn_ptr) :
  ((Some <$> ps) ++ replicate k None) !! i = Some (Some x) → ps !! i = Some x.
Proof.
  intros Hi. destruct (decide (i < length ps)%nat) as [Hlt|Hge].
  - rewrite lookup_app_l in Hi by (by rewrite length_fmap).
    rewrite list_lookup_fmap in Hi.
    destruct (ps !! i) as [y|]; [by injection Hi as -> | done].
  - rewrite lookup_app_r in Hi by (rewrite length_fmap; lia).
    by apply lookup_replicate in Hi as [? _].
Qed.

(** C7.  For a server [s] that has a live connection in a reachable
    registry (one entry, never two): a further connect attempt for [s]
    returns [-1] whatever the network would answer, having only logged (no
    socket call, no allocation, [conns] untouched), as long as no earlier
    slot of [conns] holds a freed pointer.  When a server registered before
    [s] has quit, the lookup on which the test rests reads the freed
    connection on its way to the entry of [s]: the attempt has no defined
    behaviour instead of failing with an error. *)
Theorem duplicate_connect_live_server `{External} w s p c env :
  reachable w →
  Some p ∈ conns w → heap w !! p = Some (Live c) → server c = s →
  entries_for w s = 1%nat ∧
  (¬ freed_before w p →
   irc_server_connect w s env
   = Done (-1, emit (EvLog "Server already connected") w) ∧
   entries_for (emit (EvLog "Server already connected") w) s = 1%nat) ∧
  (freed_before w p →
   irc_server_connect w s env = Undefined UseAfterFree).
Proof.
  intros Hreach Hin Hc Hs. destruct (reachable_registry_ok w Hreach) as [ps Hok].
  pose proof Hok as [Hslots _ Halloc Hnodup Hservers].
  assert (p ∈ ps) as Hp.
  { rewrite Hslots in Hin. apply elem_of_app in Hin as [Hin|Hin].
    - apply list_elem_of_fmap in Hin as (y & Hy & Hin). by injection Hy as ->.
    - by apply elem_of_replicate in Hin as [? _]. }
  apply list_elem_of_split in Hp as (ps1 & ps2 & Hps).
  assert (ps !! length ps1 = Some p) as Hat
    by (rewrite Hps; by apply list_lookup_middle).
  assert (∀ q d, q ∈ ps1 → heap w !! q = Some (Live d) → server d ≠ s) as Hother.
  { intros q d Hq Hd Hsame.
    assert (q = p) as ->.
    { apply (Hservers q p d c); [| | done | done | congruence].
      - rewrite Hps. apply elem_of_app. by left.
      - rewrite Hps. apply elem_of_app. right. by left. }
    rewrite Hps in Hnodup. apply NoDup_app in Hnodup as (_ & Hdisj & _).
    apply (Hdisj p Hq). by left. }
  assert (∀ q, q ∈ ps1 → (q < length (heap w))%nat) as Halloc1.
  { intros q Hq. apply Halloc. rewrite Hps. apply elem_of_app. by left. }
  assert (entries_for w s = 1%nat) as Hone.
  { apply (entries_for_live w ps s p c); try done.
    rewrite Hps. apply elem_of_app. right. by left. }
  split; [exact Hone|]. split.
  - intros Hclean.
    assert (get_irc_server_connection w s = Done (Some p)) as E.
    { unfold get_irc_server_connection. rewrite Hslots, Hps.
      rewrite fmap_app, <- app_assoc, scan_conns_skip.
      - rewrite fmap_cons. cbn [app scan_conns].
        apply load_Done in Hc. rewrite Hc. run_step. by rewrite decide_True.
      - intros q Hq.
        destruct (lookup_lt_is_Some_2 (heap w) q (Halloc1 q Hq)) as [[d|] Hd].
        + exists d. split; [done|]. by apply (Hother q d).
        + destruct Hclean. apply list_elem_of_lookup in Hq as [i Hi].
          exists i, (length ps1), q.
          assert (i < length ps1)%nat as Hlt by (by apply lookup_lt_Some in Hi).
          assert (ps !! i = Some q) as Hi'
            by (rewrite Hps; by rewrite lookup_app_l).
          assert (length ps1 < length ps)%nat as Hlt'
            by (by apply lookup_lt_Some in Hat).
          split; [done|]. rewrite Hslots.
          rewrite !lookup_app_l by (rewrite length_fmap; lia).
          rewrite !list_lookup_fmap, Hi', Hat. done. }
    split.
    + unfold irc_server_connect, server_connected. by rewrite E.
    + by apply (entries_for_one (emit (EvLog "Server already connected") w) ps s p).
  - intros (i & j & q & Hij & Hi & Hj & Hfreed).
    rewrite Hslots in Hi, Hj. apply slots_lookup in Hi, Hj.
    assert (j = length ps1) as -> by (by apply (NoDup_lookup ps j (length ps1) p)).
    assert (q ∈ ps1) as Hq.
    { apply list_elem_of_lookup. exists i.
      rewrite Hps in Hi. by rewrite lookup_app_l in Hi. }
    assert (get_irc_server_connection w s = Undefined UseAfterFree) as Hl.
    { unfold get_irc_server_connection. rewrite Hslots, Hps.
      rewrite fmap_app, <- app_assoc. apply scan_conns_dangling; eauto. }
    unfold irc_server_connect, server_connected. by rewrite Hl.
Qed.

Lemma second_after_quit_reachable :
  reachable (H := sample_external) second_after_quit.
Proof.
  apply (reachable_run (H := sample_external) init_world
           [CallConnect 0%nat (friendly_net 0); CallConnect 1%nat (friendly_net 1);
            CallQuit 0%nat]).
  - apply reach_init.
  - vm_compute. reflexivity.
Qed.

Lemma duplicate_connect_live_server_witness :
  entries_for second_after_quit 1%nat = 1%nat ∧
  live_connections second_after_quit = 1%nat ∧
  freed_before second_after_quit 1%nat ∧
  irc_server_connect (H := sample_external) second_after_quit 1%nat (friendly_net 1)
  = Undefined UseAfterFree.
Proof.
  destruct (@duplicate_connect_live_server sample_external second_after_quit
              1%nat 1%nat (mk_conn 1%nat 4 false [] []) (friendly_net 1)
              second_after_quit_reachable) as (Hone & _ & Hbad).
  - vm_compute. right. left.
  - reflexivity.
  - reflexivity.
  - assert (freed_before second_after_quit 1%nat) as Hfreed.
    { exists 0%nat, 1%nat, 0%nat. repeat split. vm_compute. lia. }
    split; [exact Hone|]. split; [reflexivity|]. split; [exact Hfreed|].
    exact (Hbad Hfreed).
Defined.

(** While no earlier slot dangles the second attempt is turned down: the
    fifth of ten connected servers, on a network that would refuse. *)
Example duplicate_connect_rejected_ten :
  irc_server_connect (H := sample_external) ten_connections 4%nat refusing_net
  = Done (-1, emit (EvLog "Server already connected") ten_connections) ∧
  entries_for (emit (EvLog "Server already connected") ten_connections) 4%nat = 1%nat.
Proof. split; reflexivity. Qed.

(** After a connect that succeeded, the lookup finds the new connection. *)
Lemma connect_registers `{External} w s env w1 :
  reachable w →
  irc_server_connect w s env = Done (0, w1) →
  get_irc_server_connection w1 s = Done (Some (length (heap w))).
Proof.
  intros Hreach E. destruct (reachable_registry_ok w Hreach) as [ps Hok].
  destruct (connect_cases w s env 0 w1 E)
    as [(? & _)|(_ & Hmiss & Hcap & sock & Hheap & Hconns)]; [done|].
  pose proof Hok as [Hslots Hle Halloc _ _].
  assert (length ps ≠ MAX_CONNECTIONS) as Hroom.
  { intros Hfull. apply (cap_reached_iff w ps Hok) in Hfull. congruence. }
  unfold get_irc_server_connection in *. rewrite Hconns, Hheap, Hslots.
  rewrite Hslots in Hmiss.
  replace (S MAX_CONNECTIONS - length ps)%nat
    with (S (MAX_CONNECTIONS - length ps)) by lia.
  rewrite entry_loop_first_free by lia. cbn [snd].
  rewrite fmap_app, <- app_assoc.
  rewrite scan_conns_skip.
  - simpl. unfold load. rewrite list_lookup_middle by done. simpl.
    by rewrite decide_True.
  - intros p Hp. destruct (scan_conns_miss _ _ _ _ Hmiss p Hp) as (c & Hc & Hne).
    exists c. split; [|done]. by apply lookup_app_l_Some.
Qed.

(** X13.  Two connect attempts in a row for the same server: when the
    first returns [0] in a reachable world, the second returns [-1] whatever
    the network would answer, having only logged, and the registry holds
    the one entry the first attempt made. *)
Lemma connect_twice_rejected `{External} w s env env' w1 :
  reachable w →
  irc_server_connect w s env = Done (0, w1) →
  irc_server_connect w1 s env'
  = Done (-1, emit (EvLog "Server already connected") w1) ∧
  entries_for w1 s = 1%nat.
Proof.
  intros Hreach E. pose proof (connect_registers w s env w1 Hreach E) as Hfound.
  assert (reachable w1) as Hreach1.
  { apply (reach_step w (CallConnect s env)); [done|]. cbn [exec]. by rewrite E. }
  destruct (reachable_registry_ok w1 Hreach1) as [ps1 Hok1].
  split.
  - unfold irc_server_connect, server_connected. by rewrite Hfound.
  - by apply (entries_for_one w1 ps1 s (length (heap w))).
Qed.

(** The lookup of a server is not always defined in a reachable world:
    once an earlier-registered server has quit, looking up a later one
    walks over the freed connection. *)
Example lookup_after_earlier_quit :
  ∃ w, run (H := sample_external) init_world
         [CallConnect 0%nat (friendly_net 0); CallConnect 1%nat (friendly_net 1);
          CallQuit 0%nat] = Done w ∧
       live_connections w = 1%nat ∧ registered w = 2%nat ∧
       get_irc_server_connection w 1%nat = Undefined UseAfterFree.
Proof. eexists. split; [vm_compute; reflexivity | repeat split]. Qed.

(** ** The line reader, turn by turn *)

Lemma after_recvs_cons x xs w :
  after_recvs (x :: xs) w
  = after_recvs xs (match x with
                    | Received _ => w
                    | NoData _ e => recv_errno e w
                    end).
Proof. reflexivity. Qed.

Lemma after_recvs_app xs ys w :
  after_recvs (xs ++ ys) w = after_recvs ys (after_recvs xs w).
Proof. apply foldl_app. Qed.

Lemma after_recvs_frame xs : ∀ w,
  conns (after_recvs xs w) = conns w ∧ heap (after_recvs xs w) = heap w ∧
  trace (after_recvs xs w) = trace w.
Proof.
  induction xs as [|x xs IH]; intros w; [done|].
  rewrite after_recvs_cons.
  destruct (IH (match x with
                | Received _ => w
                | NoData _ e => recv_errno e w
                end)) as (-> & -> & ->).
  destruct x as [b|ret e]; [done | apply recv_errno_frame].
Qed.

Lemma lookup_after_recvs xs w s :
  get_irc_server_connection (after_recvs xs w) s = get_irc_server_connection w s.
Proof.
  destruct (after_recvs_frame xs w) as (Hc & Hh & _). by apply lookup_same.
Qed.

(** [errno] afterwards is what the last call that set it left there. *)
Lemma after_recvs_errno xs w :
  errno (after_recvs xs w)
  = default (errno w)
      (last (omap (λ x, match x with
                        | Received _ => None
                        | NoData _ e => e
                        end) xs)).
Proof.
  induction xs as [|x xs IH] using rev_ind; [done|].
  rewrite after_recvs_app, omap_app.
  destruct x as [b|ret [e|]]; cbn [omap list_omap after_recvs foldl recv_errno].
  - by rewrite app_nil_r.
  - by rewrite last_snoc.
  - by rewrite app_nil_r.
Qed.

(** Calls that deliver bytes leave the world alone. *)
Lemma after_recvs_received bs w : after_recvs (Received <$> bs) w = w.
Proof. induction bs as [|b bs IH]; [done|]. by rewrite fmap_cons, after_recvs_cons. Qed.

(** The loop at index [j], for a server that has a connection. *)
Lemma read_loop_turn j k w s p r :
  get_irc_server_connection w s = Done (Some p) →
  (j + k = Z.to_nat (IRC_MESSAGE_SIZE - 1))%nat →
  read_loop k w s r
  = if Ascii.eqb (peek r (Z.of_nat j - 2)) CR
    then Done (Z.of_nat j, touch (Z.of_nat j - 2) r, w)
    else if Ascii.eqb (peek r (Z.of_nat j - 1)) LF
    then Done (Z.of_nat j, touch (Z.of_nat j - 1) (touch (Z.of_nat j - 2) r), w)
    else match k with
         | O => Done (Z.of_nat j,
                      touch (Z.of_nat j - 1) (touch (Z.of_nat j - 2) r), w)
         | S k' => read_loop k' (after_recvs (take 1 (stream r)) w) s (next_turn j r)
         end.
Proof.
  intros E Hjk.
  assert (IRC_MESSAGE_SIZE - 1 - Z.of_nat k = Z.of_nat j) as Hi
    by (unfold IRC_MESSAGE_SIZE in *; lia).
  destruct k as [|k'].
  - rewrite read_loop_O. cbv zeta. rewrite Hi.
    change (peek (touch (Z.of_nat j - 2) r) (Z.of_nat j - 2))
      with (peek r (Z.of_nat j - 2)).
    change (peek (touch (Z.of_nat j - 1) (touch (Z.of_nat j - 2) r)) (Z.of_nat j - 1))
      with (peek r (Z.of_nat j - 1)).
    destruct (Ascii.eqb _ CR); [done|]. by destruct (Ascii.eqb _ LF).
  - rewrite read_loop_S. cbv zeta. rewrite Hi.
    change (peek (touch (Z.of_nat j - 2) r) (Z.of_nat j - 2))
      with (peek r (Z.of_nat j - 2)).
    change (peek (touch (Z.of_nat j - 1) (touch (Z.of_nat j - 2) r)) (Z.of_nat j - 1))
      with (peek r (Z.of_nat j - 1)).
    destruct (Ascii.eqb _ CR); [done|]. destruct (Ascii.eqb _ LF); [done|].
    unfold irc_read_bytes. rewrite E. run_step.
    destruct (scan_conns_hit _ _ _ _ E) as (_ & c & Hp & _).
    apply load_Done in Hp. rewrite Hp. run_step.
    unfold next_turn. cbn [stream touch].
    destruct (stream r) as [|[b|ret e] rest]; run_step; [done | |].
    + rewrite Nat2Z.id. cbn [under buf accesses touch take].
      rewrite after_recvs_cons. cbn [after_recvs foldl].
      by rewrite <- !app_assoc.
    + cbn [under buf accesses touch take].
      rewrite after_recvs_cons. cbn [after_recvs foldl].
      by rewrite <- !app_assoc.
Qed.

Lemma next_turn_length j r : length (buf (next_turn j r)) = length (buf r).
Proof.
  unfold next_turn. destruct (stream r) as [|[b|ret e] rest]; simpl;
    [done | apply length_insert | done].
Qed.

Lemma next_turn_under j r : under (next_turn j r) = under r.
Proof. unfold next_turn. by destruct (stream r) as [|[b|ret e] rest]. Qed.

Lemma next_turn_stream j r : stream (next_turn j r) = drop 1 (stream r).
Proof.
  unfold next_turn.
  destruct (stream r) as [|[b|ret e] rest] eqn:Hs; cbn [stream touch]; by rewrite ?Hs.
Qed.

Lemma next_turn_buf j r :
  buf (next_turn j r) = recv_into j (take 1 (stream r)) (buf r).
Proof. unfold next_turn. destruct (stream r) as [|[b|ret e] rest]; reflexivity. Qed.

(** ** What the calls leave in the buffer *)

Lemma recv_into_length xs : ∀ j b, length (recv_into j xs b) = length b.
Proof.
  induction xs as [|[a|ret e] xs IH]; intros j b; cbn [recv_into]; [done | |].
  - by rewrite IH, length_insert.
  - apply IH.
Qed.

Lemma recv_into_app xs ys : ∀ j b,
  recv_into j (xs ++ ys) b = recv_into (j + length xs) ys (recv_into j xs b).
Proof.
  induction xs as [|[a|ret e] xs IH]; intros j b; cbn [recv_into app length].
  - by rewrite Nat.add_0_r.
  - rewrite IH. f_equal. lia.
  - rewrite IH. f_equal. lia.
Qed.

(** Slots outside the range the calls stood for are as they were. *)
Lemma recv_into_outside xs : ∀ j b i,
  (i < j ∨ j + length xs ≤ i)%nat → recv_into j xs b !! i = b !! i.
Proof.
  induction xs as [|[a|ret e] xs IH]; intros j b i Hi; cbn [recv_into]; [done | |].
  - rewrite IH by (cbn [length] in Hi; lia).
    apply list_lookup_insert_ne. cbn [length] in Hi. lia.
  - apply IH. cbn [length] in Hi. lia.
Qed.

(** A byte that was delivered is in the slot of its call. *)
Lemma recv_into_received xs : ∀ j b m a,
  xs !! m = Some (Received a) → (j + m < length b)%nat →
  recv_into j xs b !! (j + m)%nat = Some a.
Proof.
  induction xs as [|x xs IH]; intros j b m a Hm Hlt; [done|].
  destruct m as [|m].
  - injection Hm as ->. cbn [recv_into].
    rewrite recv_into_outside by lia. rewrite Nat.add_0_r.
    apply list_lookup_insert_eq. lia.
  - cbn [lookup list_lookup] in Hm.
    replace (j + S m)%nat with (S j + m)%nat by lia.
    destruct x as [a0|ret e]; cbn [recv_into].
    + apply IH; [done|]. rewrite length_insert. lia.
    + apply IH; [done | lia].
Qed.

(** The slot of a call that delivered nothing is as it was. *)
Lemma recv_into_hole xs : ∀ j b m,
  (∀ a, xs !! m ≠ Some (Received a)) →
  recv_into j xs b !! (j + m)%nat = b !! (j + m)%nat.
Proof.
  induction xs as [|x xs IH]; intros j b m Hm; [done|].
  destruct m as [|m].
  - destruct x as [a0|ret e]; [by destruct (Hm a0)|].
    cbn [recv_into]. apply recv_into_outside. lia.
  - replace (j + S m)%nat with (S j + m)%nat by lia.
    destruct x as [a0|ret e]; cbn [recv_into].
    + rewrite IH by (intros a; apply (Hm a)).
      apply list_lookup_insert_ne. lia.
    + apply IH. intros a. apply (Hm a).
Qed.

(** Bytes delivered one per call fill the slots in order. *)
Lemma recv_into_bytes bs : ∀ j b,
  (j + length bs ≤ length b)%nat →
  recv_into j (Received <$> bs) b = take j b ++ bs ++ drop (j + length bs) b.
Proof.
  induction bs as [|a bs IH]; intros j b Hlen.
  - cbn [fmap list_fmap recv_into length app]. by rewrite Nat.add_0_r, take_drop.
  - rewrite fmap_cons. cbn [recv_into length] in *.
    rewrite IH by (rewrite length_insert; lia).
    rewrite (take_S_r _ j a) by (apply list_lookup_insert_eq; lia).
    rewrite take_insert_ge by lia. rewrite drop_insert_lt by lia.
    rewrite <- app_assoc. cbn [app].
    by replace (S j + length bs)%nat with (j + S (length bs))%nat by lia.
Qed.

Lemma recv_into_idle xs : ∀ j b,
  Forall delivers_nothing xs → recv_into j xs b = b.
Proof.
  induction xs as [|[a|ret e] xs IH]; intros j b Hxs; [done | |].
  - by apply Forall_cons in Hxs as [[] _].
  - apply Forall_cons in Hxs as [_ Hxs]. cbn [recv_into]. by apply IH.
Qed.

(** ** Where the loop stops *)

(** Whatever the transport answers, the loop that stops at [n] has made
    one call for each of the slots from where it started up to [n]: the
    transport is that many answers further, the buffer holds what they
    delivered, and [errno] what they left. *)
Lemma read_loop_frames k : ∀ j w s p r,
  get_irc_server_connection w s = Done (Some p) →
  (j + k = Z.to_nat (IRC_MESSAGE_SIZE - 1))%nat →
  ∃ (n : nat) r',
    read_loop k w s r
    = Done (Z.of_nat n, r', after_recvs (take (n - j) (stream r)) w) ∧
    (j ≤ n ≤ Z.to_nat (IRC_MESSAGE_SIZE - 1))%nat ∧
    stream r' = drop (n - j) (stream r) ∧
    buf r' = recv_into j (take (n - j) (stream r)) (buf r) ∧
    under r' = under r.
Proof.
  induction k as [|k IH]; intros j w s p r E Hjk.
  - rewrite (read_loop_turn j 0 w s p r E Hjk).
    assert (∀ r0 : reader, buf r0 = buf r → stream r0 = stream r → under r0 = under r →
      ∃ (n : nat) r',
        Done (Z.of_nat j, r0, w)
        = Done (Z.of_nat n, r', after_recvs (take (n - j) (stream r)) w) ∧
        (j ≤ n ≤ Z.to_nat (IRC_MESSAGE_SIZE - 1))%nat ∧
        stream r' = drop (n - j) (stream r) ∧
        buf r' = recv_into j (take (n - j) (stream r)) (buf r) ∧
        under r' = under r) as Hstop.
    { intros r0 Hb Hs Hu. exists j, r0. rewrite Nat.sub_diag, take_0, drop_0.
      repeat split; first [done | lia]. }
    destruct (Ascii.eqb _ CR); [by apply Hstop|].
    destruct (Ascii.eqb _ LF); by apply Hstop.
  - rewrite (read_loop_turn j (S k) w s p r E Hjk).
    assert (∀ r0 : reader, buf r0 = buf r → stream r0 = stream r → under r0 = under r →
      ∃ (n : nat) r',
        Done (Z.of_nat j, r0, w)
        = Done (Z.of_nat n, r', after_recvs (take (n - j) (stream r)) w) ∧
        (j ≤ n ≤ Z.to_nat (IRC_MESSAGE_SIZE - 1))%nat ∧
        stream r' = drop (n - j) (stream r) ∧
        buf r' = recv_into j (take (n - j) (stream r)) (buf r) ∧
        under r' = under r) as Hstop.
    { intros r0 Hb Hs Hu. exists j, r0. rewrite Nat.sub_diag, take_0, drop_0.
      repeat split; first [done | lia]. }
    destruct (Ascii.eqb _ CR); [by apply Hstop|].
    destruct (Ascii.eqb _ LF); [by apply Hstop|].
    destruct (IH (S j) (after_recvs (take 1 (stream r)) w) s p (next_turn j r)) as
      (n & r' & Hloop & Hn & Hstream & Hbuf & Hunder);
      [by rewrite lookup_after_recvs | lia |].
    rewrite next_turn_under in Hunder.
    rewrite next_turn_stream in Hloop, Hstream, Hbuf. rewrite next_turn_buf in Hbuf.
    exists n, r'. rewrite Hloop.
    replace (n - j)%nat with (S (n - S j)) by lia.
    assert (∀ m, take (S m) (stream r) = take 1 (stream r) ++ take m (drop 1 (stream r)))
      as Htake by (intros m; destruct (stream r); simpl; [by rewrite take_nil | done]).
    rewrite (Htake (n - S j)%nat), after_recvs_app.
    split; [reflexivity|]. split; [lia|]. split.
    + rewrite Hstream. by rewrite drop_drop.
    + split; [|done]. rewrite Hbuf. destruct (stream r) as [|x l].
      * simpl. by rewrite take_nil.
      * rewrite recv_into_app. simpl length.
        by replace (j + 1)%nat with (S j) by lia.
Qed.

(** What the look-behind sees after a byte was stored at [buf[j]]. *)
Lemma peek_next_turn_eq j r b rest :
  stream r = Received b :: rest → (j < length (buf r))%nat →
  peek (next_turn j r) (Z.of_nat j) = b.
Proof.
  intros Hs Hj. unfold next_turn. rewrite Hs. unfold peek. cbn [buf under].
  destruct (Z.of_nat j =? -2) eqn:E1; [lia|].
  destruct (Z.of_nat j =? -1) eqn:E2; [lia|].
  destruct (Z.of_nat j <? 0) eqn:E3; [lia|].
  rewrite Nat2Z.id. apply nth_lookup_Some. by apply list_lookup_insert_eq.
Qed.

Lemma peek_next_turn_ne j r idx :
  idx ≠ Z.of_nat j → peek (next_turn j r) idx = peek r idx.
Proof.
  intros Hne. unfold next_turn.
  destruct (stream r) as [|[b|ret e] rest]; [done | | done].
  unfold peek. cbn [buf under].
  destruct (idx =? -2); [done|]. destruct (idx =? -1); [done|].
  destruct (idx <? 0) eqn:E3; [done|].
  rewrite !nth_lookup, list_lookup_insert_ne by lia. done.
Qed.

(** A slot whose call delivered nothing reads as before. *)
Lemma peek_next_turn_hole j r idx :
  (∀ b rest, stream r ≠ Received b :: rest) →
  peek (next_turn j r) idx = peek r idx.
Proof.
  intros Hs. unfold next_turn.
  destruct (stream r) as [|[b|ret e] rest]; [done | by destruct (Hs b rest) | done].
Qed.

(** Bytes that are neither ['\r'] nor ['\n'] are taken one per turn. *)
Lemma read_loop_plain body : ∀ j k w s p r rest,
  get_irc_server_connection w s = Done (Some p) →
  (j + k = Z.to_nat (IRC_MESSAGE_SIZE - 1))%nat →
  length (buf r) = Z.to_nat IRC_MESSAGE_SIZE →
  stream r = (Received <$> body) ++ rest →
  (length body ≤ k)%nat →
  Forall (λ a, a ≠ CR ∧ a ≠ LF) body →
  peek r (Z.of_nat j - 2) ≠ CR →
  peek r (Z.of_nat j - 1) ≠ CR →
  peek r (Z.of_nat j - 1) ≠ LF →
  ∃ r1, read_loop k w s r = read_loop (k - length body) w s r1 ∧
        stream r1 = rest ∧
        length (buf r1) = length (buf r) ∧
        peek r1 (Z.of_nat (j + length body) - 2) ≠ CR ∧
        peek r1 (Z.of_nat (j + length body) - 1) ≠ CR ∧
        peek r1 (Z.of_nat (j + length body) - 1) ≠ LF.
Proof.
  induction body as [|b body IH];
    intros j k w s p r rest E Hjk Hlen Hs Hk Hplain H2 H1 H1'.
  - exists r. simpl. rewrite Nat.sub_0_r, Nat.add_0_r. done.
  - destruct k as [|k]; [simpl in Hk; lia|].
    apply Forall_cons in Hplain as [[HbCR HbLF] Hplain].
    rewrite fmap_cons, <- app_comm_cons in Hs.
    rewrite (read_loop_turn j (S k) w s p r E Hjk).
    apply Ascii.eqb_neq in H2. apply Ascii.eqb_neq in H1'. rewrite H2, H1'.
    apply Ascii.eqb_neq in H1'.
    replace (after_recvs (take 1 (stream r)) w) with w by (by rewrite Hs).
    assert (j < length (buf r))%nat as Hj
      by (rewrite Hlen; unfold IRC_MESSAGE_SIZE in *; lia).
    destruct (IH (S j) k w s p (next_turn j r) rest E) as
      (r1 & Hloop & Hs1 & Hlen1 & Ha & Hb & Hc).
    + lia.
    + by rewrite next_turn_length.
    + by rewrite next_turn_stream, Hs.
    + simpl in Hk. lia.
    + done.
    + replace (Z.of_nat (S j) - 2) with (Z.of_nat j - 1) by lia.
      by rewrite peek_next_turn_ne by lia.
    + replace (Z.of_nat (S j) - 1) with (Z.of_nat j) by lia.
      by rewrite (peek_next_turn_eq j r b _ Hs).
    + replace (Z.of_nat (S j) - 1) with (Z.of_nat j) by lia.
      by rewrite (peek_next_turn_eq j r b _ Hs).
    + exists r1. rewrite Hloop. simpl length.
      replace (j + S (length body))%nat with (S j + length body)%nat by lia.
      rewrite next_turn_length in Hlen1. done.
Qed.

(** The terminator ends the loop two turns later, at the index behind it. *)
Lemma read_loop_terminator j k w s p r rest :
  get_irc_server_connection w s = Done (Some p) →
  (j + k = Z.to_nat (IRC_MESSAGE_SIZE - 1))%nat →
  length (buf r) = Z.to_nat IRC_MESSAGE_SIZE →
  stream r = Received CR :: Received LF :: rest →
  (2 ≤ k)%nat →
  peek r (Z.of_nat j - 2) ≠ CR →
  peek r (Z.of_nat j - 1) ≠ CR →
  peek r (Z.of_nat j - 1) ≠ LF →
  ∃ r', read_loop k w s r = Done (Z.of_nat (j + 2), r', w).
Proof.
  intros E Hjk Hlen Hs Hk H2 H1 H1'.
  destruct k as [|[|k]]; [lia | lia |].
  assert (S j < length (buf r))%nat as Hj
    by (rewrite Hlen; unfold IRC_MESSAGE_SIZE in *; lia).
  rewrite (read_loop_turn j (S (S k)) w s p r E Hjk).
  apply Ascii.eqb_neq in H2. apply Ascii.eqb_neq in H1'. rewrite H2, H1'.
  replace (after_recvs (take 1 (stream r)) w) with w by (by rewrite Hs).
  set (r2 := next_turn j r).
  assert (peek r2 (Z.of_nat j) = CR) as Hcr
    by (apply (peek_next_turn_eq j r CR (Received LF :: rest)); [done | lia]).
  assert (stream r2 = Received LF :: rest) as Hs2
    by (unfold r2; by rewrite next_turn_stream, Hs).
  rewrite (read_loop_turn (S j) (S k) w s p r2 E) by lia.
  replace (Z.of_nat (S j) - 2) with (Z.of_nat j - 1) by lia.
  replace (Z.of_nat (S j) - 1) with (Z.of_nat j) by lia.
  unfold r2 at 1. rewrite peek_next_turn_ne by lia.
  apply Ascii.eqb_neq in H1. rewrite H1, Hcr. simpl (Ascii.eqb CR LF).
  cbv iota.
  replace (after_recvs (take 1 (stream r2)) w) with w by (by rewrite Hs2).
  rewrite (read_loop_turn (S (S j)) k w s p (next_turn (S j) r2) E) by lia.
  replace (Z.of_nat (S (S j)) - 2) with (Z.of_nat j) by lia.
  rewrite peek_next_turn_ne by lia. rewrite Hcr, Ascii.eqb_refl.
  replace (j + 2)%nat with (S (S j)) by lia. by eexists.
Qed.

(** While no call delivers a byte and nothing in or in front of the
    buffer looks like a terminator, the loop runs to the size limit. *)
Lemma read_loop_idle k : ∀ j w s p r,
  get_irc_server_connection w s = Done (Some p) →
  (j + k = Z.to_nat (IRC_MESSAGE_SIZE - 1))%nat →
  Forall delivers_nothing (take k (stream r)) →
  (∀ idx, peek r idx ≠ CR ∧ peek r idx ≠ LF) →
  ∃ r', read_loop k w s r
        = Done (Z.of_nat (j + k), r', after_recvs (take k (stream r)) w) ∧
        buf r' = buf r ∧ stream r' = drop k (stream r).
Proof.
  induction k as [|k IH]; intros j w s p r E Hjk Hs Hpeek.
  - rewrite (read_loop_turn j 0 w s p r E Hjk).
    destruct (Hpeek (Z.of_nat j - 2)) as [H2 _].
    destruct (Hpeek (Z.of_nat j - 1)) as [_ H1].
    apply Ascii.eqb_neq in H2, H1. rewrite H2, H1, Nat.add_0_r. by eexists.
  - rewrite (read_loop_turn j (S k) w s p r E Hjk).
    destruct (Hpeek (Z.of_nat j - 2)) as [H2 _].
    destruct (Hpeek (Z.of_nat j - 1)) as [_ H1].
    apply Ascii.eqb_neq in H2, H1. rewrite H2, H1.
    assert (∀ b rest, stream r ≠ Received b :: rest) as Hhole.
    { intros b rest Hb. rewrite Hb in Hs. by apply Forall_cons in Hs as [[] _]. }
    destruct (IH (S j) (after_recvs (take 1 (stream r)) w) s p (next_turn j r))
      as (r' & -> & Hbuf & Hstream).
    + by rewrite lookup_after_recvs.
    + lia.
    + rewrite next_turn_stream. destruct (stream r) as [|x l]; simpl.
      * by rewrite take_nil.
      * simpl in Hs. by apply Forall_cons in Hs as [_ Hs].
    + intros idx. rewrite (peek_next_turn_hole j r idx Hhole). apply Hpeek.
    + exists r'. replace (S j + k)%nat with (j + S k)%nat by lia.
      rewrite next_turn_stream in *. split; [|split].
      * do 2 f_equal. rewrite <- after_recvs_app. f_equal.
        destruct (stream r); simpl; [by rewrite take_nil | done].
      * rewrite Hbuf, next_turn_buf. apply recv_into_idle.
        destruct (stream r) as [|x l]; [constructor|].
        simpl in Hs. apply Forall_cons in Hs as [Hx _]. by repeat constructor.
      * rewrite Hstream. rewrite drop_drop. done.
Qed.

(** ** From the loop to the call *)

(** The loop from index 0 on a full-size buffer. *)
Lemma read_loop_from_start w s p r :
  get_irc_server_connection w s = Done (Some p) →
  ∃ (n : nat) r1,
    read_loop (Z.to_nat (IRC_MESSAGE_SIZE - 1)) w s r
    = Done (Z.of_nat n, r1, after_recvs (take n (stream r)) w) ∧
    Z.of_nat n ≤ IRC_MESSAGE_SIZE - 1 ∧
    stream r1 = drop n (stream r) ∧
    buf r1 = recv_into 0 (take n (stream r)) (buf r) ∧
    under r1 = under r.
Proof.
  intros E.
  destruct (read_loop_frames (Z.to_nat (IRC_MESSAGE_SIZE - 1)) 0 w s p r E eq_refl)
    as (n & r1 & Hloop & Hn & Hstream & Hbuf & Hunder).
  assert (Z.of_nat (Z.to_nat (IRC_MESSAGE_SIZE - 1)) = IRC_MESSAGE_SIZE - 1) as HK
    by (unfold IRC_MESSAGE_SIZE; lia).
  revert Hloop Hn Hstream Hbuf HK. generalize (Z.to_nat (IRC_MESSAGE_SIZE - 1)).
  intros K Hloop Hn Hstream Hbuf HK. rewrite Nat.sub_0_r in *.
  exists n, r1. repeat split; first [done | lia].
Qed.

(** What [irc_read_message] makes of the index the loop stopped at: both
    terminating zeros are stored, nothing else is touched. *)
Lemma read_message_of_loop w s p r (n : nat) r1 w1 :
  get_irc_server_connection w s = Done (Some p) →
  length (buf r1) = Z.to_nat IRC_MESSAGE_SIZE →
  Z.of_nat n ≤ IRC_MESSAGE_SIZE - 1 →
  read_loop (Z.to_nat (IRC_MESSAGE_SIZE - 1)) w s r = Done (Z.of_nat n, r1, w1) →
  ∃ r', irc_read_message w s r = Done (Z.of_nat n, r', w1) ∧
        stream r' = stream r1 ∧
        take n (buf r') = take n (buf r1) ∧
        buf r' !! n = Some NUL ∧
        buf r' !! Z.to_nat (IRC_MESSAGE_SIZE - 1) = Some NUL ∧
        (∀ i, i ≠ n → i ≠ Z.to_nat (IRC_MESSAGE_SIZE - 1) →
              buf r' !! i = buf r1 !! i) ∧
        length (buf r') = length (buf r1).
Proof.
  intros E Hlen Hn. unfold irc_read_message, poke.
  assert (Z.of_nat (Z.to_nat (IRC_MESSAGE_SIZE - 1)) = IRC_MESSAGE_SIZE - 1) as HK
    by (unfold IRC_MESSAGE_SIZE; lia).
  assert (Z.to_nat (IRC_MESSAGE_SIZE - 1) < length (buf r1))%nat as HKlen
    by (rewrite Hlen; unfold IRC_MESSAGE_SIZE; lia).
  revert HK HKlen. generalize (Z.to_nat (IRC_MESSAGE_SIZE - 1)).
  intros K HK HKlen Hloop. rewrite E. run_step. rewrite Hloop. run_step.
  eexists. split; [reflexivity|].
  cbn [buf stream]. rewrite !Nat2Z.id.
  assert (n ≤ K)%nat as HnK by lia.
  split; [done|]. split; [by rewrite !take_insert_ge by lia|]. split.
  { destruct (decide (n = K)) as [->|Hne].
    - apply list_lookup_insert_eq. by rewrite length_insert.
    - rewrite list_lookup_insert_ne by done. apply list_lookup_insert_eq. lia. }
  split; [apply list_lookup_insert_eq; by rewrite length_insert|].
  split; [|by rewrite !length_insert].
  intros i Hin HiK. by rewrite !list_lookup_insert_ne by done.
Qed.

(** X1.  [irc_read_message] makes one [recv] call for every buffer slot it
    advances over and never looks at what the call returned.  For a server
    that has a connection and a buffer of [IRC_MESSAGE_SIZE] bytes, the
    call returns some [n] up to [IRC_MESSAGE_SIZE - 1] after exactly [n]
    calls on the transport: slot [i < n] holds the byte the call for it
    delivered, or what it held before when that call delivered nothing
    ([EAGAIN], peer closed), so that a byte which arrives after a failed
    call lands behind a hole; [buf[n]] and [buf[IRC_MESSAGE_SIZE - 1]] are
    ['\0'], the other slots are untouched, and of the world only [errno]
    changes, to what the failed calls left in it. *)
Theorem read_message_one_call_per_slot w s p r :
  get_irc_server_connection w s = Done (Some p) →
  length (buf r) = Z.to_nat IRC_MESSAGE_SIZE →
  ∃ (n : nat) r',
    irc_read_message w s r
    = Done (Z.of_nat n, r', after_recvs (take n (stream r)) w) ∧
    Z.of_nat n ≤ IRC_MESSAGE_SIZE - 1 ∧
    stream r' = drop n (stream r) ∧
    (∀ i a, (i < n)%nat → stream r !! i = Some (Received a) →
            buf r' !! i = Some a) ∧
    (∀ i, (i < n)%nat → (∀ a, stream r !! i ≠ Some (Received a)) →
          buf r' !! i = buf r !! i) ∧
    buf r' !! n = Some NUL ∧
    buf r' !! Z.to_nat (IRC_MESSAGE_SIZE - 1) = Some NUL ∧
    (∀ i, (n < i)%nat → i ≠ Z.to_nat (IRC_MESSAGE_SIZE - 1) →
          buf r' !! i = buf r !! i) ∧
    length (buf r') = length (buf r).
Proof.
  intros E Hlen.
  destruct (read_loop_from_start w s p r E)
    as (n & r1 & Hloop & Hn & Hstream & Hbuf & _).
  assert (length (buf r1) = length (buf r)) as Hlen1
    by (by rewrite Hbuf, recv_into_length).
  destruct (read_message_of_loop w s p r n r1 _ E ltac:(congruence) Hn Hloop) as
    (r' & Hmsg & Hs' & Htake & Hnul & Hlast & Hrest & Hlen').
  exists n, r'. split; [done|]. split; [done|]. split; [congruence|].
  assert (∀ i, (i < n)%nat → buf r' !! i = buf r1 !! i) as Hlow.
  { intros i Hi. rewrite <- (lookup_take_lt (buf r') n i Hi), Htake.
    by apply lookup_take_lt. }
  split; [|split; [|split; [done|split; [done|split; [|congruence]]]]].
  - intros i a Hi Hrecv. rewrite (Hlow i Hi), Hbuf.
    apply (recv_into_received _ 0 (buf r) i a).
    + by rewrite lookup_take_lt.
    + rewrite Hlen. unfold IRC_MESSAGE_SIZE in *. lia.
  - intros i Hi Hnone. rewrite (Hlow i Hi), Hbuf.
    apply (recv_into_hole _ 0 (buf r) i).
    intros a. rewrite lookup_take_lt by done. apply Hnone.
  - intros i Hi HiK. rewrite Hrest by lia. rewrite Hbuf.
    apply recv_into_outside. right. rewrite length_take. lia.
Qed.

Lemma read_message_one_call_per_slot_witness :
  ∃ (n : nat) r',
    irc_read_message one_connection 0%nat
      (mk_reader (NUL, NUL) (replicate (Z.to_nat IRC_MESSAGE_SIZE) NUL) []
         [Received "a"; would_block; Received "b"; Received CR; Received LF])
    = Done (Z.of_nat n, r',
            after_recvs
              (take n [Received "a"; would_block; Received "b"; Received CR;
                       Received LF])
              one_connection) ∧
    Z.of_nat n ≤ IRC_MESSAGE_SIZE - 1 ∧
    stream r' = drop n [Received "a"; would_block; Received "b"; Received CR;
                        Received LF] ∧
    (∀ i a, (i < n)%nat →
            [Received "a"; would_block; Received "b"; Received CR; Received LF]
              !! i = Some (Received a) →
            buf r' !! i = Some a) ∧
    (∀ i, (i < n)%nat →
          (∀ a, [Received "a"; would_block; Received "b"; Received CR; Received LF]
                  !! i ≠ Some (Received a)) →
          buf r' !! i = replicate (Z.to_nat IRC_MESSAGE_SIZE) NUL !! i) ∧
    buf r' !! n = Some NUL ∧
    buf r' !! Z.to_nat (IRC_MESSAGE_SIZE - 1) = Some NUL ∧
    (∀ i, (n < i)%nat → i ≠ Z.to_nat (IRC_MESSAGE_SIZE - 1) →
          buf r' !! i = replicate (Z.to_nat IRC_MESSAGE_SIZE) NUL !! i) ∧
    length (buf r') = length (replicate (Z.to_nat IRC_MESSAGE_SIZE) NUL).
Proof.
  apply (read_message_one_call_per_slot one_connection 0%nat 0%nat
           (mk_reader (NUL, NUL) (replicate (Z.to_nat IRC_MESSAGE_SIZE) NUL) []
              [Received "a"; would_block; Received "b"; Received CR; Received LF])).
  - reflexivity.
  - exact (length_replicate _ _).
Defined.

(** A well-formed line, read from index 0: where the call stops and what
    the buffer then holds. *)
Lemma read_message_line w s p r body rest :
  get_irc_server_connection w s = Done (Some p) →
  length (buf r) = Z.to_nat IRC_MESSAGE_SIZE →
  stream r = (Received <$> body) ++ Received CR :: Received LF :: rest →
  Forall (λ a, a ≠ CR ∧ a ≠ LF) body →
  Z.of_nat (length body) + 2 ≤ IRC_MESSAGE_SIZE - 1 →
  fst (under r) ≠ CR → snd (under r) ≠ CR → snd (under r) ≠ LF →
  ∃ r', irc_read_message w s r = Done (Z.of_nat (length body + 2), r', w) ∧
        stream r' = rest ∧
        take (length body + 2) (buf r') = body ++ [CR; LF] ∧
        buf r' !! (length body + 2)%nat = Some NUL ∧
        length (buf r') = length (buf r).
Proof.
  intros E Hlen Hs Hplain Hfit Hu2 Hu1 Hu1'.
  destruct (read_loop_from_start w s p r E)
    as (n & r1 & Hloop & Hn & Hstream & Hbuf & _).
  assert (length (buf r1) = length (buf r)) as Hlen1
    by (by rewrite Hbuf, recv_into_length).
  assert (n = length body + 2)%nat as ->.
  { assert (Z.of_nat (Z.to_nat (IRC_MESSAGE_SIZE - 1)) = IRC_MESSAGE_SIZE - 1) as HK
      by (unfold IRC_MESSAGE_SIZE; lia).
    pose proof (read_loop_plain body 0 (Z.to_nat (IRC_MESSAGE_SIZE - 1)) w s p r
                  (Received CR :: Received LF :: rest) E eq_refl Hlen Hs) as Hbody.
    pose proof (λ r0, read_loop_terminator (length body)
                  (Z.to_nat (IRC_MESSAGE_SIZE - 1) - length body) w s p r0 rest E)
      as Hterm.
    revert HK Hloop Hbody Hterm. generalize (Z.to_nat (IRC_MESSAGE_SIZE - 1)).
    intros K HK Hloop Hbody Hterm.
    destruct Hbody as (r0 & Hloop0 & Hs0 & Hlen0 & Ha & Hb & Hc);
      [lia | done | exact Hu2 | exact Hu1 | exact Hu1' |].
    destruct (Hterm r0) as [r' Hloop'];
      [lia | congruence | done | lia | done | done | done |].
    rewrite Hloop0, Hloop' in Hloop. injection Hloop as Hn' _ _. lia. }
  assert (take (length body + 2) (stream r) = Received <$> (body ++ [CR; LF])) as Htk.
  { rewrite Hs, fmap_app. cbn [fmap list_fmap].
    replace ((Received <$> body) ++ Received CR :: Received LF :: rest)
      with (((Received <$> body) ++ [Received CR; Received LF]) ++ rest)
      by (by rewrite <- app_assoc).
    apply take_app_length'. rewrite length_app, length_fmap. simpl. lia. }
  assert (drop (length body + 2) (stream r) = rest) as Hdr.
  { rewrite Hs.
    replace ((Received <$> body) ++ Received CR :: Received LF :: rest)
      with (((Received <$> body) ++ [Received CR; Received LF]) ++ rest)
      by (by rewrite <- app_assoc).
    apply drop_app_length'. rewrite length_app, length_fmap. simpl. lia. }
  rewrite Htk, after_recvs_received in Hloop. rewrite Htk in Hbuf.
  destruct (read_message_of_loop w s p r (length body + 2) r1 w E
              ltac:(congruence) ltac:(lia) Hloop) as
    (r' & Hmsg & Hs' & Htake & Hnul & _ & _ & Hlen').
  exists r'. split; [done|]. split; [congruence|].
  split; [|split; [done | congruence]].
  rewrite Htake, Hbuf, recv_into_bytes.
  - cbn [take app]. rewrite take_0. cbn [app].
    apply take_app_length'. rewrite length_app. simpl. lia.
  - rewrite length_app, Hlen. simpl. unfold IRC_MESSAGE_SIZE in *. lia.
Qed.

(** X2.  A well-formed line is read whole and nothing beyond it: when the
    coming [recv] calls deliver, one byte per call and none of them
    failing, bytes free of ['\r'] and ['\n'] followed by [\r\n], the line
    fits the buffer, and the two bytes in front of the buffer do not look
    like a terminator, [irc_read_message] returns the length of the line
    with its terminator, the buffer starts with the line, its terminator
    and ['\0'], the transport is left at the answer after the terminator,
    and the world is as it was. *)
Theorem read_message_well_formed_line w s p r body rest :
  get_irc_server_connection w s = Done (Some p) →
  length (buf r) = Z.to_nat IRC_MESSAGE_SIZE →
  stream r = (Received <$> body) ++ Received CR :: Received LF :: rest →
  Forall (λ a, a ≠ CR ∧ a ≠ LF) body →
  Z.of_nat (length body) + 2 ≤ IRC_MESSAGE_SIZE - 1 →
  fst (under r) ≠ CR → snd (under r) ≠ CR → snd (under r) ≠ LF →
  ∃ r', irc_read_message w s r = Done (Z.of_nat (length body + 2), r', w) ∧
        stream r' = rest ∧
        take (length body + 3) (buf r') = body ++ [CR; LF; NUL] ∧
        length (buf r') = length (buf r).
Proof.
  intros E Hlen Hs Hplain Hfit Hu2 Hu1 Hu1'.
  destruct (read_message_line w s p r body rest E Hlen Hs Hplain Hfit Hu2 Hu1 Hu1')
    as (r' & Hread & Hrest & Htake & Hnul & Hlen').
  exists r'. repeat split; try done.
  replace (length body + 3)%nat with (S (length body + 2)) by lia.
  rewrite (take_S_r _ _ NUL Hnul), Htake. by rewrite <- app_assoc.
Qed.

Lemma read_message_well_formed_line_witness :
  ∃ r', irc_read_message one_connection 0%nat
          (fresh_reader ["P"; "I"; "N"; "G"; CR; LF; "N"; "E"; "X"; "T"]%char)
        = Done (Z.of_nat (length ["P"; "I"; "N"; "G"]%char + 2), r', one_connection) ∧
        stream r' = Received <$> ["N"; "E"; "X"; "T"]%char ∧
        take (length ["P"; "I"; "N"; "G"]%char + 3) (buf r')
        = ["P"; "I"; "N"; "G"]%char ++ [CR; LF; NUL] ∧
        length (buf r')
        = length (buf (fresh_reader ["P"; "I"; "N"; "G"; CR; LF; "N"; "E"; "X"; "T"]%char)).
Proof.
  apply (read_message_well_formed_line one_connection 0%nat 0%nat
           (fresh_reader ["P"; "I"; "N"; "G"; CR; LF; "N"; "E"; "X"; "T"]%char)
           ["P"; "I"; "N"; "G"]%char (Received <$> ["N"; "E"; "X"; "T"]%char)).
  - reflexivity.
  - exact (length_replicate _ _).
  - reflexivity.
  - repeat constructor; discriminate.
  - vm_compute. discriminate.
  - discriminate.
  - discriminate.
  - discriminate.
Defined.

(** ** Looking up by watcher *)

Lemma scan_watchers_found wt ps rest :
  wt ∈ ps → scan_watchers wt ((Some <$> ps) ++ rest) = Done (Some wt).
Proof.
  induction ps as [|q ps IH]; intros Hin; [by apply elem_of_nil in Hin|].
  rewrite fmap_cons. cbn [app scan_watchers].
  destruct (decide (wt = q)) as [->|Hne]; [done|].
  apply elem_of_cons in Hin as [?|Hin]; [done | by apply IH].
Qed.

Lemma scan_watchers_absent wt ps rest :
  wt ∉ ps → scan_watchers wt ((Some <$> ps) ++ None :: rest) = Done None.
Proof.
  induction ps as [|q ps IH]; intros Hin; [done|].
  rewrite fmap_cons. cbn [app scan_watchers].
  apply not_elem_of_cons in Hin as [Hne Hin].
  rewrite decide_False by done. by apply IH.
Qed.

(** A connection the lookup by server finds is found by its watcher. *)
Lemma scan_conns_watcher h s cs p :
  scan_conns h s cs = Done (Some p) → scan_watchers p cs = Done (Some p).
Proof.
  induction cs as [|[q|] cs IH]; cbn [scan_conns scan_watchers]; intros E;
    try discriminate.
  apply bind_Done in E as (c & Hc & E).
  destruct (decide (p = q)) as [->|Hne]; [done|].
  destruct (decide (s = server c)); [|by apply IH].
  injection E as ->. by destruct Hne.
Qed.

Lemma lookup_hit_watcher w s p :
  get_irc_server_connection w s = Done (Some p) →
  get_irc_connection_from_watcher w p = Done (Some p).
Proof. apply scan_conns_watcher. Qed.

Lemma watcher_lookup_registered w ps wt :
  registry_ok (conns w) (heap w) ps → wt ∈ ps →
  get_irc_connection_from_watcher w wt = Done (Some wt).
Proof.
  intros [Hslots _ _ _ _] Hin. unfold get_irc_connection_from_watcher.
  rewrite Hslots. by apply scan_watchers_found.
Qed.

(** X3.  Looking a connection up by its watcher is defined in every world
    the module can reach, freed entries or not: the result is the
    connection the watcher belongs to if its pointer is in [conns], and
    [NULL] otherwise. *)
Theorem watcher_lookup_exact `{External} w wt :
  reachable w →
  (Some wt ∈ conns w → get_irc_connection_from_watcher w wt = Done (Some wt)) ∧
  (Some wt ∉ conns w → get_irc_connection_from_watcher w wt = Done None).
Proof.
  intros Hreach. destruct (reachable_registry_ok w Hreach) as [ps Hok].
  pose proof Hok as [Hslots Hcap _ _ _].
  assert (Some wt ∈ conns w ↔ wt ∈ ps) as Hiff.
  { rewrite Hslots, elem_of_app, list_elem_of_fmap. split.
    - intros [(q & [= ->] & Hq)|Hrep]; [done|].
      apply elem_of_replicate in Hrep as [? _]. discriminate.
    - intros Hin. left. eauto. }
  split.
  - intros Hin. apply (watcher_lookup_registered w ps); [done | by apply Hiff].
  - intros Hout. unfold get_irc_connection_from_watcher. rewrite Hslots.
    replace (S MAX_CONNECTIONS - length ps)%nat
      with (S (MAX_CONNECTIONS - length ps)) by lia.
    apply scan_watchers_absent. intros Hin. by apply Hout, Hiff.
Qed.

Lemma watcher_lookup_exact_witness :
  get_irc_connection_from_watcher ten_connections 7%nat = Done (Some 7%nat) ∧
  get_irc_connection_from_watcher ten_connections 12%nat = Done None.
Proof.
  split.
  - apply (@watcher_lookup_exact sample_external ten_connections 7%nat
             ten_connections_reachable).
    vm_compute. repeat first [by left | right].
  - apply (@watcher_lookup_exact sample_external ten_connections 12%nat
             ten_connections_reachable).
    vm_compute. intros Hin. repeat (apply elem_of_cons in Hin as [Hin|Hin]; [discriminate|]).
    by apply elem_of_nil in Hin.
Defined.

(** ** A line from the socket to the hooks *)

Lemma c_string_prefix l rest :
  Forall (λ a, a ≠ NUL) l →
  c_string (l ++ NUL :: rest) = string_of_list_ascii l.
Proof.
  induction l as [|a l IH]; intros Hl; [done|].
  apply Forall_cons in Hl as [Ha Hl]. cbn [app c_string string_of_list_ascii].
  apply Ascii.eqb_neq in Ha. rewrite Ha. by rewrite IH.
Qed.

(** The callback on a well-formed line and an empty inbound queue. *)
Lemma read_callback_line w conn c p under input body rest :
  get_irc_connection_from_watcher w conn = Done (Some conn) →
  heap w !! conn = Some (Live c) →
  get_irc_server_connection w (server c) = Done (Some p) →
  read_queue c = [] →
  input = (Received <$> body) ++ Received CR :: Received LF :: rest →
  Forall (λ a, a ≠ CR ∧ a ≠ LF ∧ a ≠ NUL) body →
  Z.of_nat (length body) + 2 ≤ IRC_MESSAGE_SIZE - 1 →
  fst under ≠ CR → snd under ≠ CR → snd under ≠ LF →
  irc_loop_read_callback w conn under input
  = Done (set_heap
            (<[conn := Live (with_read_queue c
                               [string_of_list_ascii (body ++ [CR; LF])])]>
               (heap w)) w,
          rest).
Proof.
  intros Hwt Hc E Hq Hin Hplain Hfit Hu2 Hu1 Hu1'.
  unfold irc_loop_read_callback. rewrite Hwt. run_step.
  pose proof Hc as Hl. apply load_Done in Hl. rewrite Hl. run_step.
  destruct (read_message_line w (server c) p
              (mk_reader under (replicate (Z.to_nat IRC_MESSAGE_SIZE) NUL) [] input)
              body rest E) as (r' & -> & Hrest & Htake & Hnul & Hlen').
  { apply length_replicate. }
  { done. }
  { eapply Forall_impl; [exact Hplain|]. by intros a (? & ? & ?). }
  { done. }
  { done. }
  { done. }
  { done. }
  run_step. rewrite ?Hl. run_step. rewrite Hq.
  rewrite (store_Done conn c _ w Hc). run_step. rewrite Hrest.
  unfold with_read_queue.
  assert (c_string (buf r') = string_of_list_ascii (body ++ [CR; LF])) as ->; [|done].
  rewrite <- (take_drop_middle (buf r') (length body + 2) NUL Hnul), Htake.
  apply c_string_prefix. apply Forall_app. split.
  - eapply Forall_impl; [exact Hplain|]. by intros a (? & ? & ?).
  - repeat constructor; discriminate.
Qed.

(** Both drains, one after the other, on a connection whose server the
    lookup resolves to that same connection. *)
Lemma drains_spec `{External} w conn c :
  heap w !! conn = Some (Live c) →
  get_irc_server_connection w (server c) = Done (Some conn) →
  irc_process_read_message_queue w conn ≫= (λ w, irc_process_write_message_queue w conn)
  = Done (mk_world (conns w)
            (<[conn := Live (mk_conn (server c) (socket c) (ev_is_running c) [] [])]>
               (heap w))
            (errno w)
            (trace w ++ concat (line_events (server c) <$> read_queue c)
                     ++ (EvSend (secure (server_at (server c))) (socket c)
                           <$> write_queue c))).
Proof.
  intros Hc E. unfold irc_process_read_message_queue.
  pose proof Hc as Hl. apply load_Done in Hl. rewrite Hl. run_step.
  rewrite (read_queue_loop_spec (read_queue c) w conn c Hc eq_refl). run_step.
  unfold irc_process_write_message_queue. run_step.
  rewrite (load_insert_live _ conn c _ Hc). run_step.
  rewrite (write_loop_spec (write_queue c) _ conn (with_read_queue c [])).
  - run_step. rewrite list_insert_insert_eq. by rewrite <- app_assoc.
  - unfold get_irc_server_connection in *. run_step.
    erewrite scan_conns_insert_live; [exact E | exact Hc | reflexivity].
  - run_step. apply list_lookup_insert_eq. by apply lookup_lt_Some in Hc.
  - reflexivity.
Qed.

Lemma outcome_bind_assoc {A B C} (m : outcome A) (f : A → outcome B)
    (g : B → outcome C) :
  (m ≫= f) ≫= g = m ≫= (λ a, f a ≫= g).
Proof. by destruct m. Qed.



(** One turn of the event loop on one arrival, for a connection with empty
    queues: the world only gains the hook calls of the line. *)
Lemma reactor_cycle_arrival `{External} w conn c a rest :
  get_irc_connection_from_watcher w conn = Done (Some conn) →
  heap w !! conn = Some (Live c) →
  get_irc_server_connection w (server c) = Done (Some conn) →
  read_queue c = [] → write_queue c = [] →
  arrival_ok a →
  reactor_cycle w conn (arrival_wakeup a) (arrival_bytes a ++ rest)
  = Done (mk_world (conns w) (heap w) (errno w)
            (trace w ++ concat (line_events (server c) <$> arrival_lines a)),
          rest).
Proof.
  intros Hwt Hc E Hrq Hwq Hok.
  assert (mk_conn (server c) (socket c) (ev_is_running c) [] [] = c) as Hsame
    by (destruct c; simpl in *; by subst).
  unfold reactor_cycle. destruct a as [under body|]; cbn [arrival_wakeup arrival_bytes arrival_lines].
  - destruct Hok as (Hu2 & Hu1 & Hu1' & Hplain & Hfit).
    rewrite (read_callback_line w conn c conn under _ body rest Hwt Hc E Hrq);
      [ | by rewrite fmap_app, <- app_assoc | done..].
    run_step.
    set (c1 := with_read_queue c [string_of_list_ascii (body ++ [CR; LF])]).
    rewrite <- outcome_bind_assoc.
    rewrite (drains_spec (set_heap (<[conn := Live c1]> (heap w)) w) conn c1).
    + run_step. rewrite list_insert_insert_eq. cbn [server socket ev_is_running
        read_queue write_queue c1 with_read_queue].
      rewrite Hsame, (list_insert_id _ _ _ Hc), Hwq. cbn [fmap list_fmap].
      by rewrite app_nil_r.
    + run_step. apply list_lookup_insert_eq. by apply lookup_lt_Some in Hc.
    + unfold get_irc_server_connection in *. run_step.
      erewrite scan_conns_insert_live; [exact E | exact Hc | reflexivity].
  - run_step. rewrite <- outcome_bind_assoc.
    rewrite (drains_spec w conn c Hc E). run_step.
    rewrite Hsame, (list_insert_id _ _ _ Hc), Hrq, Hwq. cbn [fmap list_fmap concat].
    by rewrite !app_nil_r.
Qed.

Lemma reactor_cycles_arrivals `{External} arrivals : ∀ w conn c rest,
  get_irc_connection_from_watcher w conn = Done (Some conn) →
  heap w !! conn = Some (Live c) →
  get_irc_server_connection w (server c) = Done (Some conn) →
  ev_is_running c = true → read_queue c = [] → write_queue c = [] →
  Forall arrival_ok arrivals →
  reactor_cycles (arrival_wakeup <$> arrivals) w conn
    (concat (arrival_bytes <$> arrivals) ++ rest)
  = Done (Waiting,
          mk_world (conns w) (heap w) (errno w)
            (trace w ++ concat (line_events (server c)
                                  <$> concat (arrival_lines <$> arrivals))),
          rest).
Proof.
  induction arrivals as [|a arrivals IH]; intros w conn c rest Hwt Hc E Hrun Hrq Hwq Hok.
  - cbn [fmap list_fmap reactor_cycles concat app].
    pose proof Hc as Hl. apply load_Done in Hl. rewrite Hl. run_step. rewrite Hrun.
    rewrite app_nil_r. by destruct w.
  - apply Forall_cons in Hok as [Ha Hok].
    rewrite !fmap_cons. cbn [reactor_cycles concat].
    pose proof Hc as Hl. apply load_Done in Hl. rewrite Hl. run_step. rewrite Hrun.
    rewrite <- app_assoc.
    rewrite (reactor_cycle_arrival w conn c a _ Hwt Hc E Hrq Hwq Ha). run_step.
    rewrite (IH _ conn c rest); try done.
    run_step. rewrite fmap_app, concat_app, app_assoc. reflexivity.
Qed.

(** X5.  Inbound lines reach the hooks in arrival order, one per turn of
    the event loop.  For a server whose connection has empty queues,
    [irc_do_event_loop] on a sequence of wake-ups (each a well-formed line
    on the socket, read into a buffer with nothing in front of it that
    looks like a terminator, or the timer alone) sets the running flag,
    reads exactly one line per readable wake-up, and hands each line,
    terminator included, to [handle_message] before the next wait; what
    follows the last line stays on the socket, the queues are empty again,
    and the loop is left waiting. *)
Theorem event_loop_dispatches_in_order `{External} w s conn c arrivals rest :
  get_irc_server_connection w s = Done (Some conn) →
  heap w !! conn = Some (Live c) →
  read_queue c = [] → write_queue c = [] →
  Forall arrival_ok arrivals →
  irc_do_event_loop w s (arrival_wakeup <$> arrivals)
    (concat (arrival_bytes <$> arrivals) ++ rest)
  = Done (Waiting,
          mk_world (conns w)
            (<[conn := Live (mk_conn s (socket c) true [] [])]> (heap w))
            (errno w)
            (trace w ++ concat (line_events s
                                  <$> concat (arrival_lines <$> arrivals))),
          rest).
Proof.
  intros E Hc Hrq Hwq Hok.
  pose proof (lookup_hit_server w s conn c E Hc) as Hs.
  unfold irc_do_event_loop. rewrite E. run_step.
  pose proof Hc as Hl. apply load_Done in Hl. rewrite Hl. run_step.
  rewrite (store_Done conn c _ w Hc). run_step.
  rewrite Hrq, Hwq, Hs.
  rewrite (reactor_cycles_arrivals arrivals _ conn (mk_conn s (socket c) true [] []) rest);
    try done.
  - apply (lookup_hit_watcher w s conn E).
  - run_step. apply list_lookup_insert_eq. by apply lookup_lt_Some in Hc.
  - unfold get_irc_server_connection in *. run_step.
    erewrite scan_conns_insert_live; [exact E | exact Hc | by rewrite Hs].
Qed.

Lemma one_connection_is_reachable : reachable (H := sample_external) one_connection.
Proof.
  apply (reachable_run (H := sample_external) init_world [CallConnect 0%nat (friendly_net 0)]).
  - apply reach_init.
  - reflexivity.
Qed.

Lemma event_loop_dispatches_in_order_witness :
  irc_do_event_loop (H := sample_external) one_connection 0%nat
    (arrival_wakeup <$> [ArrLine (NUL, NUL) ["P"; "I"; "N"; "G"]%char; ArrTick;
                         ArrLine (NUL, NUL) ["H"; "I"]%char])
    (concat (arrival_bytes <$> [ArrLine (NUL, NUL) ["P"; "I"; "N"; "G"]%char; ArrTick;
                                ArrLine (NUL, NUL) ["H"; "I"]%char])
     ++ [Received "N"; Received "I"]%char)
  = Done (Waiting,
          mk_world (conns one_connection)
            (<[0%nat := Live (mk_conn 0%nat (socket (mk_conn 0%nat 3 false [] [])) true [] [])]>
               (heap one_connection))
            (errno one_connection)
            (trace one_connection
             ++ concat (line_events (H := sample_external) 0%nat
                          <$> concat (arrival_lines
                                        <$> [ArrLine (NUL, NUL) ["P"; "I"; "N"; "G"]%char;
                                             ArrTick;
                                             ArrLine (NUL, NUL) ["H"; "I"]%char]))),
          [Received "N"; Received "I"]%char).
Proof.
  apply (@event_loop_dispatches_in_order sample_external one_connection 0%nat 0%nat
           (mk_conn 0%nat 3 false [] [])).
  - reflexivity.
  - reflexivity.
  - reflexivity.
  - reflexivity.
  - repeat constructor; try discriminate; vm_compute; discriminate.
Defined.

(** What the witness amounts to: the [PING] line gives two hook calls, the
    [HI] line a parse error, and [NI] stays on the socket. *)
Example event_loop_sample_trace :
  concat (line_events (H := sample_external) 0%nat
            <$> concat (arrival_lines
                          <$> [ArrLine (NUL, NUL) ["P"; "I"; "N"; "G"]%char; ArrTick;
                               ArrLine (NUL, NUL) ["H"; "I"]%char]))
  = [EvHook 0%nat "PING" (mk_msg None "PING" []);
     EvHook 0%nat "*" (mk_msg None "PING" []);
     EvLog parse_error_text].
Proof. reflexivity. Qed.

(** ** More on socket creation *)

(** One candidate of the address list. *)
Lemma connect_loop_cons net a rest sock w :
  connect_loop net (a :: rest) (-1) sock w
  = let fd := sock_fd (net a) in
    let w1 := emit (EvSocket a fd) (failed_sockets a (socket_errs (net a)) w) in
    match connect_res (net a) with
    | ConnectOk =>
        let w2 := emit (EvConnect fd a 0) w1 in
        if negb (errno w2 =? 0)
        then connect_loop net rest (-1) fd (set_errno 0 (emit (EvClose fd) w2))
        else (fd, w2)
    | ConnectFails e =>
        connect_loop net rest (-1) fd
          (set_errno 0 (emit (EvClose fd) (emit (EvConnect fd a (-1)) (set_errno e w1))))
    end.
Proof. cbn [connect_loop]. by destruct (connect_res (net a)). Qed.

Lemma failed_sockets_ledger a errs w :
  opened (trace (failed_sockets a errs w)) = opened (trace w) ∧
  closed (trace (failed_sockets a errs w)) = closed (trace w).
Proof.
  unfold failed_sockets. revert w. induction errs as [|e errs IH]; intros w; [done|].
  cbn [foldl]. destruct (IH (emit (EvSocket a (-1)) (set_errno e w))) as [-> ->].
  unfold opened, closed. cbn [trace emit set_errno]. rewrite !omap_app.
  cbn. by rewrite !app_nil_r.
Qed.

Lemma connect_loop_ledger net ai : ∀ sock w,
  (∀ a, a ∈ ai → sock_fd (net a) ≠ -1) →
  ∃ fds,
    closed (trace (connect_loop net ai (-1) sock w).2) = closed (trace w) ++ fds ∧
    (opened (trace (connect_loop net ai (-1) sock w).2) = opened (trace w) ++ fds ∨
     opened (trace (connect_loop net ai (-1) sock w).2)
     = opened (trace w) ++ fds ++ [(connect_loop net ai (-1) sock w).1]).
Proof.
  induction ai as [|a ai IH]; intros sock w Hfd.
  - exists []. cbn. rewrite !app_nil_r. by split; [|left].
  - assert (sock_fd (net a) ≠ -1) as Ha by (apply Hfd; left).
    assert (∀ b, b ∈ ai → sock_fd (net b) ≠ -1) as Hrest
      by (intros b Hb; apply Hfd; by right).
    destruct (failed_sockets_ledger a (socket_errs (net a)) w) as [Hop Hcl].
    apply Z.eqb_neq in Ha.
    rewrite connect_loop_cons. cbv zeta.
    destruct (connect_res (net a)) as [|e].
    + destruct (negb _).
      * match goal with |- context [connect_loop net ai (-1) ?fd ?w2] =>
          destruct (IH fd w2 Hrest) as (fds & Hc & Ho) end.
        exists (sock_fd (net a) :: fds).
        unfold opened, closed in *. cbn [trace emit set_errno] in *.
        rewrite !omap_app in *. cbn [omap list_omap] in *. rewrite Ha in *.
        rewrite !app_nil_r in *. rewrite Hc. rewrite Hop, Hcl in *.
        rewrite <- !app_assoc in *. cbn [app] in *.
        split; [done|]. destruct Ho as [->| ->]; [by left | by right].
      * exists []. unfold opened, closed in *. cbn [trace emit set_errno fst snd] in *.
        rewrite !omap_app in *. cbn [omap list_omap] in *. rewrite Ha.
        rewrite !app_nil_r. rewrite Hop, Hcl. split; [done | by right].
    + match goal with |- context [connect_loop net ai (-1) ?fd ?w2] =>
        destruct (IH fd w2 Hrest) as (fds & Hc & Ho) end.
      exists (sock_fd (net a) :: fds).
      unfold opened, closed in *. cbn [trace emit set_errno] in *.
      rewrite !omap_app in *. cbn [omap list_omap] in *. rewrite Ha in *.
      rewrite !app_nil_r in *. rewrite Hc. rewrite Hop, Hcl in *.
      rewrite <- !app_assoc in *. cbn [app] in *.
      split; [done|]. destruct Ho as [->| ->]; [by left | by right].
Qed.

(** X6.  [irc_create_socket] leaks no descriptor: whatever the candidates
    answer, every descriptor it obtained from [socket] has been closed
    again when it returns, except possibly the last one, which is then the
    one it returns. *)
Theorem create_socket_leaks_nothing w s env ai :
  resolved env = Some ai →
  (∀ a, a ∈ ai → sock_fd (net env a) ≠ -1) →
  ∃ sock w' fds,
    irc_create_socket w s env = Done (sock, w') ∧
    closed (trace w') = closed (trace w) ++ fds ∧
    (opened (trace w') = opened (trace w) ++ fds ∨
     opened (trace w') = opened (trace w) ++ fds ++ [sock]).
Proof.
  intros Hres Hfd. unfold irc_create_socket. rewrite Hres.
  destruct (connect_loop_ledger (net env) ai (-1) w Hfd) as (fds & Hc & Ho).
  destruct (connect_loop (net env) ai (-1) (-1) w) as [sock w'] eqn:Hloop.
  exists sock, w', fds. done.
Qed.

Lemma create_socket_leaks_nothing_witness :
  ∃ sock w' fds,
    irc_create_socket init_world 0%nat
      (mk_env (Some [4%nat; 5%nat; 6%nat])
         (λ a, mk_attempt [24] (Z.of_nat a)
                 (if decide (a = 5%nat) then ConnectOk else ConnectFails 111))
         true true true)
    = Done (sock, w') ∧
    closed (trace w') = closed (trace init_world) ++ fds ∧
    (opened (trace w') = opened (trace init_world) ++ fds ∨
     opened (trace w') = opened (trace init_world) ++ fds ++ [sock]).
Proof.
  apply (create_socket_leaks_nothing init_world 0%nat _ [4%nat; 5%nat; 6%nat]).
  - reflexivity.
  - intros a Ha. cbn. apply elem_of_cons in Ha as [->|Ha]; [discriminate|].
    apply elem_of_cons in Ha as [->|Ha]; [discriminate|].
    apply elem_of_cons in Ha as [->|Ha]; [discriminate|].
    by apply elem_of_nil in Ha.
Defined.

Lemma connect_loop_in_order net failing a rest sock w :
  (∀ b, b ∈ failing → ∃ e, connect_res (net b) = ConnectFails e) →
  socket_errs (net a) = [] → connect_res (net a) = ConnectOk →
  (failing = [] → errno w = 0) →
  ∃ w', connect_loop net (failing ++ a :: rest) (-1) sock w = (sock_fd (net a), w') ∧
        last (trace w') = Some (EvConnect (sock_fd (net a)) a 0) ∧
        closed (trace w') = closed (trace w) ++ ((λ b, sock_fd (net b)) <$> failing).
Proof.
  intros Hfail Herrs Hok. revert sock w.
  induction failing as [|b failing IH]; intros sock w Herrno.
  - cbn [app]. rewrite connect_loop_first_success by auto.
    eexists. split; [reflexivity|]. cbn [trace emit]. split; [apply last_snoc|].
    unfold closed. rewrite !omap_app. cbn. by rewrite !app_nil_r.
  - destruct (Hfail b) as [e He]; [left|].
    cbn [app]. rewrite connect_loop_cons. cbv zeta. rewrite He.
    match goal with |- context [connect_loop net _ (-1) ?fd ?w2] =>
      destruct (IH (λ d Hd, Hfail d (list_elem_of_further _ _ _ Hd)) fd w2
                   (λ _, eq_refl))
        as (w' & -> & Hlast & Hclosed) end.
    exists w'. split; [done|]. split; [done|].
    rewrite Hclosed. unfold closed. cbn [trace emit set_errno].
    destruct (failed_sockets_ledger b (socket_errs (net b)) w) as [_ Hcl].
    unfold closed in Hcl. rewrite !omap_app, Hcl. cbn.
    rewrite !app_nil_r, <- app_assoc. reflexivity.
Qed.

(** X7.  [irc_create_socket] tries the candidates in list order, and its
    test after [connect] is [conn == -1 || errno].  Take the first
    candidate whose [connect] succeeds, its [socket] call having succeeded
    at once, behind any number of candidates whose [connect] fails.  If
    [errno] is 0 when the loop reaches it (it was 0 on entry, or an earlier
    candidate failed, which resets it), its descriptor is returned, its
    [connect] is the last call made (later candidates are not touched, the
    descriptor stays open), the descriptors of the failed candidates were
    closed in order, and registry and heap are as before.  If it is the
    first candidate and [errno] is stale on entry, its descriptor is closed
    although it connected, [errno] is reset and the loop goes on with the
    candidates behind it. *)
Theorem create_socket_first_that_connects w s env failing a rest :
  resolved env = Some (failing ++ a :: rest) →
  (∀ b, b ∈ failing → ∃ e, connect_res (net env b) = ConnectFails e) →
  socket_errs (net env a) = [] → connect_res (net env a) = ConnectOk →
  (failing ≠ [] ∨ errno w = 0 →
   ∃ w', irc_create_socket w s env = Done (sock_fd (net env a), w') ∧
         last (trace w') = Some (EvConnect (sock_fd (net env a)) a 0) ∧
         closed (trace w')
         = closed (trace w) ++ ((λ b, sock_fd (net env b)) <$> failing) ∧
         conns w' = conns w ∧ heap w' = heap w) ∧
  (failing = [] → errno w ≠ 0 →
   ∃ w1, irc_create_socket w s env
         = Done (connect_loop (net env) rest (-1) (sock_fd (net env a)) w1) ∧
         trace w1 = trace w ++ [EvSocket a (sock_fd (net env a));
                                EvConnect (sock_fd (net env a)) a 0;
                                EvClose (sock_fd (net env a))] ∧
         errno w1 = 0 ∧ conns w1 = conns w ∧ heap w1 = heap w).
Proof.
  intros Hres Hfail Herrs Hok. unfold irc_create_socket. rewrite Hres. split.
  - intros Hclean.
    destruct (connect_loop_in_order (net env) failing a rest (-1) w Hfail Herrs Hok)
      as (w' & Hloop & Hlast & Hclosed).
    { intros ->. by destruct Hclean. }
    destruct (connect_loop_frame (net env) (failing ++ a :: rest) (-1) (-1) w) as [Fc Fh].
    rewrite Hloop in Fc, Fh |- *. exists w'. done.
  - intros -> Hstale. cbn [app]. rewrite connect_loop_cons. cbv zeta.
    rewrite Hok, Herrs. cbn [failed_sockets foldl errno emit].
    apply Z.eqb_neq in Hstale. rewrite Hstale. cbn [negb].
    eexists. split; [reflexivity|]. cbn [trace emit set_errno errno conns heap].
    by rewrite <- !app_assoc.
Qed.

Lemma create_socket_first_that_connects_witness :
  ∃ w', irc_create_socket init_world 0%nat
          (mk_env (Some [4%nat; 5%nat; 6%nat])
             (λ a, mk_attempt [] (Z.of_nat a)
                     (if decide (a = 4%nat) then ConnectFails 111 else ConnectOk))
             true true true)
        = Done (5, w') ∧
        last (trace w') = Some (EvConnect 5 5%nat 0) ∧
        closed (trace w') = closed (trace init_world) ++ [4] ∧
        conns w' = conns init_world ∧ heap w' = heap init_world.
Proof.
  destruct (create_socket_first_that_connects init_world 0%nat
              (mk_env (Some [4%nat; 5%nat; 6%nat])
                 (λ a, mk_attempt [] (Z.of_nat a)
                         (if decide (a = 4%nat) then ConnectFails 111 else ConnectOk))
                 true true true)
              [4%nat] 5%nat [6%nat]) as [Hclean _].
  - reflexivity.
  - intros b Hb. apply list_elem_of_singleton in Hb as ->. by exists 111.
  - reflexivity.
  - reflexivity.
  - apply Hclean. by left.
Defined.

(** With [errno] left at [EAGAIN] by an earlier read, a lone candidate
    that connects is closed again and its closed descriptor is returned. *)
Example create_socket_after_would_block :
  ∃ w', irc_create_socket (set_errno EAGAIN one_connection) 1%nat (friendly_net 1)
        = Done (4, w') ∧
        trace w' = trace one_connection
                   ++ [EvSocket 1%nat 4; EvConnect 4 1%nat 0; EvClose 4].
Proof. eexists. split; reflexivity. Qed.

(** ** More on connecting *)

(** X8.  What a returning [irc_server_connect] has done, in a reachable
    world.  It returns [-1] or [0].  On [-1] the world has gained one log
    call and nothing else.  On [0] a connection for [s] with empty queues
    was allocated, the registry holds one entry more, that entry is the
    only live one for [s], and both the lookup and [server_connected] find
    it. *)
Theorem connect_outcome `{External} w s env r w' :
  reachable w →
  irc_server_connect w s env = Done (r, w') →
  (r = -1 ∧ ∃ text, w' = emit (EvLog text) w) ∨
  (r = 0 ∧
   (∃ sock, heap w' = heap w ++ [Live (mk_conn s sock false [] [])]) ∧
   registered w' = S (registered w) ∧
   entries_for w' s = 1%nat ∧
   get_irc_server_connection w' s = Done (Some (length (heap w))) ∧
   server_connected w' s = Done true).
Proof.
  intros Hreach E. destruct (reachable_registry_ok w Hreach) as [ps Hok].
  destruct (connect_cases w s env r w' E)
    as [(-> & text & ->)|(-> & Hmiss & Hcap & sock & Hheap & Hconns)].
  { left. eauto. }
  right. split; [done|].
  pose proof (connect_registers w s env w' Hreach E) as Hfound.
  assert (registry_ok (conns w') (heap w') (ps ++ [length (heap w)])) as Hok'.
  { rewrite Hheap, Hconns. apply (registry_ok_connect _ _ _ s); [done | done | | done].
    intros Hfull. apply (cap_reached_iff w ps Hok) in Hfull. congruence. }
  split; [eauto|]. split.
  { rewrite (registered_count w' _ Hok'), (registered_count w ps Hok), length_app.
    simpl. lia. }
  split; [by apply (entries_for_one w' _ s (length (heap w)) Hok')|].
  split; [done|]. unfold server_connected. by rewrite Hfound.
Qed.

Lemma connect_outcome_witness :
  (0 = -1 ∧ ∃ text, one_connection = emit (EvLog text) init_world) ∨
  (0 = 0 ∧
   (∃ sock, heap one_connection = heap init_world ++ [Live (mk_conn 0%nat sock false [] [])]) ∧
   registered one_connection = S (registered init_world) ∧
   entries_for one_connection 0%nat = 1%nat ∧
   get_irc_server_connection one_connection 0%nat = Done (Some (length (heap init_world))) ∧
   server_connected one_connection 0%nat = Done true).
Proof.
  apply (@connect_outcome sample_external init_world 0%nat (friendly_net 0) 0 one_connection).
  - apply reach_init.
  - reflexivity.
Defined.

(** A lookup that is defined before a connection is appended gives the
    same answer afterwards, for any server but the new one. *)
Lemma scan_conns_appended h x s' ps m q :
  server x ≠ s' →
  scan_conns h s' ((Some <$> ps) ++ replicate (S (S m)) None) = Done q →
  scan_conns (h ++ [Live x]) s'
    ((Some <$> (ps ++ [length h])) ++ replicate (S m) None) = Done q.
Proof.
  intros Hx. induction ps as [|p ps IH]; intros E.
  - cbn in E. injection E as <-. cbn [fmap list_fmap app scan_conns].
    unfold load. rewrite list_lookup_middle by done. run_step.
    by rewrite decide_False by done.
  - rewrite fmap_cons in E. cbn [app scan_conns] in E.
    apply bind_Done in E as (c & Hc & E). apply load_Done in Hc.
    cbn [app]. rewrite fmap_cons. cbn [app scan_conns].
    unfold load at 1. rewrite (lookup_app_l_Some _ _ _ _ Hc). run_step.
    destruct (decide (s' = server c)); [done | by apply IH].
Qed.

(** X9.  Connecting one server does not disturb the lookup of another: in
    a reachable world, whatever the lookup of [s'] returned before a
    returning [irc_server_connect] on a different server, it returns
    after. *)
Theorem connect_keeps_other_lookups `{External} w s env r w' s' q :
  reachable w →
  irc_server_connect w s env = Done (r, w') →
  s' ≠ s →
  get_irc_server_connection w s' = Done q →
  get_irc_server_connection w' s' = Done q.
Proof.
  intros Hreach E Hne Hq. destruct (reachable_registry_ok w Hreach) as [ps Hok].
  destruct (connect_cases w s env r w' E)
    as [(-> & text & ->)|(-> & Hmiss & Hcap & sock & Hheap & Hconns)]; [done|].
  pose proof Hok as [Hslots Hle _ _ _].
  assert (length ps ≠ MAX_CONNECTIONS) as Hroom.
  { intros Hfull. apply (cap_reached_iff w ps Hok) in Hfull. congruence. }
  unfold get_irc_server_connection in *. rewrite Hconns, Hheap.
  rewrite Hslots in Hq |- *.
  replace (S MAX_CONNECTIONS - length ps)%nat
    with (S (S (MAX_CONNECTIONS - length ps - 1))) in Hq |- * by lia.
  rewrite entry_loop_first_free by lia. cbn [snd].
  by apply scan_conns_appended.
Qed.

Lemma connect_keeps_other_lookups_witness :
  ∃ w', irc_server_connect (H := sample_external) one_connection 1%nat (friendly_net 1)
        = Done (0, w') ∧
        get_irc_server_connection w' 0%nat = Done (Some 0%nat).
Proof.
  eexists. split.
  - vm_compute. reflexivity.
  - apply (@connect_keeps_other_lookups sample_external one_connection 1%nat
             (friendly_net 1) 0 _ 0%nat (Some 0%nat)).
    + exact one_connection_is_reachable.
    + vm_compute. reflexivity.
    + discriminate.
    + reflexivity.
Defined.

Lemma insert_first_free (ps : list conn_ptr) m (c : conn_ptr) :
  <[length ps := Some c]> ((Some <$> ps) ++ replicate (S m) None)
  = (Some <$> (ps ++ [c])) ++ replicate m None.
Proof.
  rewrite <- (length_fmap Some ps).
  rewrite <- (Nat.add_0_r (length (Some <$> ps))), insert_app_r.
  by rewrite fmap_app, <- app_assoc.
Qed.

(** X10.  [make_irc_connection_entry] in a reachable world: while fewer
    than [MAX_CONNECTIONS] slots are in use it stores the pointer in the
    first [NULL] slot (every slot before it is in use), changes no other
    slot and returns [0]; with [MAX_CONNECTIONS] slots in use it returns
    [-1] and changes nothing. *)
Theorem make_entry_first_free `{External} w c :
  reachable w →
  ((registered w < MAX_CONNECTIONS)%nat →
   make_irc_connection_entry w c
   = (0, set_conns (<[registered w := Some c]> (conns w)) w) ∧
   conns w !! registered w = Some None ∧
   ∀ i, (i < registered w)%nat → ∃ p, conns w !! i = Some (Some p)) ∧
  (registered w = MAX_CONNECTIONS → make_irc_connection_entry w c = (-1, w)).
Proof.
  intros Hreach. destruct (reachable_registry_ok w Hreach) as [ps Hok].
  pose proof (registered_count w ps Hok) as Hreg. rewrite Hreg.
  pose proof Hok as [Hslots Hcap _ _ _].
  split.
  - intros Hlt.
    assert (conns w = (Some <$> ps) ++ replicate (S (MAX_CONNECTIONS - length ps)) None)
      as Hslots' by (rewrite Hslots; f_equal; f_equal; lia).
    split; [|split].
    + unfold make_irc_connection_entry. rewrite Hslots' at 1.
      rewrite entry_loop_first_free by lia. f_equal. f_equal.
      by rewrite Hslots', insert_first_free.
    + rewrite Hslots', lookup_app_r by (by rewrite length_fmap).
      by rewrite length_fmap, Nat.sub_diag.
    + intros i Hi. rewrite Hslots', lookup_app_l by (by rewrite length_fmap).
      rewrite list_lookup_fmap.
      destruct (lookup_lt_is_Some_2 ps i Hi) as [q ->]. by exists q.
  - intros Hfull. by apply (make_entry_full w ps).
Qed.

Lemma make_entry_first_free_witness :
  (make_irc_connection_entry one_connection 5%nat
   = (0, set_conns (<[registered one_connection := Some 5%nat]> (conns one_connection))
           one_connection) ∧
   conns one_connection !! registered one_connection = Some None ∧
   ∀ i, (i < registered one_connection)%nat →
        ∃ p, conns one_connection !! i = Some (Some p)) ∧
  make_irc_connection_entry ten_connections 5%nat = (-1, ten_connections).
Proof.
  split.
  - apply (@make_entry_first_free sample_external one_connection 5%nat
             one_connection_is_reachable).
    vm_compute. lia.
  - apply (@make_entry_first_free sample_external ten_connections 5%nat
             ten_connections_reachable).
    reflexivity.
Defined.

(** X11.  [setup_irc_connection] does not look at what
    [make_irc_connection_entry] returns: called in a reachable world whose
    registry is full, with an environment that lets it through, it
    allocates the connection, leaves [conns] as it is and still returns
    [0]; no watcher lookup will find the new connection. *)
Theorem setup_on_full_registry `{External} w s sock env :
  reachable w →
  registered w = MAX_CONNECTIONS →
  malloc_ok env = true → nonblock_ok env = true → select_ok env = true →
  ∃ w', setup_irc_connection w s sock env = Done (0, w') ∧
        conns w' = conns w ∧
        heap w' = heap w ++ [Live (mk_conn s sock false [] [])] ∧
        get_irc_connection_from_watcher w' (length (heap w)) = Done None.
Proof.
  intros Hreach Hfull Hmalloc Hnonblock Hselect.
  destruct (reachable_registry_ok w Hreach) as [ps Hok].
  pose proof (registered_count w ps Hok) as Hreg. rewrite Hreg in Hfull.
  pose proof Hok as [Hslots _ Halloc _ _].
  assert (get_irc_connection_from_watcher
            (set_heap (heap w ++ [Live (mk_conn s sock false [] [])]) w)
            (length (heap w)) = Done None) as Hwt.
  { unfold get_irc_connection_from_watcher. cbn [conns set_heap]. rewrite Hslots.
    replace (S MAX_CONNECTIONS - length ps)%nat with 1%nat by lia.
    apply scan_watchers_absent. intros Hin. specialize (Halloc _ Hin). lia. }
  unfold setup_irc_connection, create_irc_connection. rewrite Hmalloc.
  unfold make_irc_connection_entry. cbn [conns set_heap].
  assert (entry_loop MAX_CONNECTIONS 0 (conns w) (length (heap w)) = (-1, conns w))
    as -> by (rewrite Hslots; apply entry_loop_full; lia).
  rewrite Hnonblock, Hselect. cbn [negb].
  destruct (secure (server_at s)).
  - unfold encrypt_irc_connection. run_step.
    unfold load. rewrite list_lookup_middle by done. run_step.
    eexists. split; [reflexivity|]. done.
  - run_step. eexists. split; [reflexivity|]. done.
Qed.

Lemma setup_on_full_registry_witness :
  ∃ w', setup_irc_connection (H := sample_external) ten_connections 10%nat 13
          (friendly_net 10) = Done (0, w') ∧
        conns w' = conns ten_connections ∧
        heap w' = heap ten_connections ++ [Live (mk_conn 10%nat 13 false [] [])] ∧
        get_irc_connection_from_watcher w' (length (heap ten_connections)) = Done None.
Proof.
  apply (@setup_on_full_registry sample_external ten_connections 10%nat 13
           (friendly_net 10) ten_connections_reachable); reflexivity.
Defined.

Lemma connect_at_cap_witness :
  (∃ text, irc_server_connect (H := sample_external) ten_connections 10%nat
             (friendly_net 10)
           = Done (-1, emit (EvLog text) ten_connections)) ∨
  (∃ f, irc_server_connect (H := sample_external) ten_connections 10%nat
          (friendly_net 10) = Undefined f).
Proof.
  apply (@connect_at_cap sample_external ten_connections 10%nat (friendly_net 10)).
  reflexivity.
Defined.

Lemma connect_twice_rejected_witness :
  irc_server_connect (H := sample_external) one_connection 0%nat refusing_net
  = Done (-1, emit (EvLog "Server already connected") one_connection) ∧
  entries_for one_connection 0%nat = 1%nat.
Proof.
  apply (@connect_twice_rejected sample_external init_world 0%nat (friendly_net 0)
           refusing_net one_connection).
  - apply reach_init.
  - reflexivity.
Defined.

Lemma read_drain_dispatches_witness :
  irc_process_read_message_queue (H := sample_external)
    (mk_world (conns one_connection)
       [Live (mk_conn 0%nat 3 true ["JUNK"; ""; "PING :a"] ["PONG :a"])] 0 [])
    0%nat
  = Done (mk_world (conns one_connection)
            (<[0%nat := Live (with_read_queue
                               (mk_conn 0%nat 3 true ["JUNK"; ""; "PING :a"] ["PONG :a"])
                               [])]>
               [Live (mk_conn 0%nat 3 true ["JUNK"; ""; "PING :a"] ["PONG :a"])])
            0
            ([] ++ concat (line_events (H := sample_external) 0%nat
                             <$> ["JUNK"; ""; "PING :a"]))).
Proof.
  apply (@read_drain_dispatches sample_external
           (mk_world (conns one_connection)
              [Live (mk_conn 0%nat 3 true ["JUNK"; ""; "PING :a"] ["PONG :a"])] 0 [])
           0%nat (mk_conn 0%nat 3 true ["JUNK"; ""; "PING :a"] ["PONG :a"])).
  reflexivity.
Defined.

(** ** Lookups that find nothing, lookups by name *)

(** X14.  A lookup that returns [NULL] in a reachable world means what it
    says: no live registry entry belongs to the server, every registered
    connection is alive (the walk went over all of them), and
    [server_connected] is false. *)
Theorem lookup_miss_means_absent `{External} w s :
  reachable w →
  get_irc_server_connection w s = Done None →
  entries_for w s = 0%nat ∧
  live_connections w = registered w ∧
  server_connected w s = Done false.
Proof.
  intros Hreach E. destruct (reachable_registry_ok w Hreach) as [ps Hok].
  pose proof Hok as [Hslots _ _ _ _].
  pose proof E as Hmiss. unfold get_irc_server_connection in Hmiss.
  rewrite Hslots in Hmiss.
  pose proof (scan_conns_miss _ _ _ _ Hmiss) as Hall.
  split; [|split].
  - unfold entries_for. rewrite Hslots, filter_slots by done.
    rewrite filter_none; [done|]. intros p Hp.
    destruct (Hall p Hp) as (c & Hc & Hne). simpl. rewrite Hc.
    by apply bool_decide_eq_false.
  - rewrite (live_count w ps Hok), (registered_count w ps Hok).
    rewrite List.forallb_filter_id; [done|].
    apply forallb_forall. intros p Hp. apply list_elem_of_In in Hp.
    destruct (Hall p Hp) as (c & Hc & _). simpl. by rewrite Hc.
  - unfold server_connected. by rewrite E.
Qed.

Lemma lookup_miss_means_absent_witness :
  entries_for one_connection 7%nat = 0%nat ∧
  live_connections one_connection = registered one_connection ∧
  server_connected one_connection 7%nat = Done false.
Proof.
  apply (@lookup_miss_means_absent sample_external one_connection 7%nat
           one_connection_is_reachable).
  reflexivity.
Defined.

Lemma scan_names_hit `{External} h nm cs s' :
  scan_names h nm cs = Done (Some s') →
  name (server_at s') = nm ∧ ∃ p, scan_conns h s' cs = Done (Some p).
Proof.
  induction cs as [|[p|] cs IH]; simpl; intros E; try discriminate.
  apply bind_Done in E as (c & Hc & E). rewrite Hc. run_step.
  destruct (decide (nm = name (server_at (server c)))) as [->|Hne].
  - injection E as <-. split; [done|]. rewrite decide_True by done. eauto.
  - destruct (IH E) as [Hnm [q Hq]]. split; [done|].
    destruct (decide (s' = server c)); eauto.
Qed.

Lemma scan_names_miss `{External} h nm cs :
  scan_names h nm cs = Done None →
  ∀ s, name (server_at s) = nm → scan_conns h s cs = Done None.
Proof.
  induction cs as [|[p|] cs IH]; simpl; intros E s Hs; try discriminate; [|done].
  apply bind_Done in E as (c & Hc & E). rewrite Hc. run_step.
  destruct (decide (nm = name (server_at (server c)))) as [->|Hne]; [discriminate|].
  rewrite decide_False by congruence. by apply IH.
Qed.

Lemma scan_names_complete `{External} h s cs p :
  scan_conns h s cs = Done (Some p) →
  ∃ s', scan_names h (name (server_at s)) cs = Done (Some s') ∧
        name (server_at s') = name (server_at s).
Proof.
  induction cs as [|[q|] cs IH]; simpl; intros E; try discriminate.
  apply bind_Done in E as (c & Hc & E). rewrite Hc. run_step.
  destruct (decide (name (server_at s) = name (server_at (server c)))) as [Heq|Hne].
  - exists (server c). done.
  - destruct (decide (s = server c)) as [->|Hs]; [done | by apply IH].
Qed.

(** X15.  What [irc_get_server_from_name] returns can be relied on: a
    server it returns bears the name that was asked for and is connected
    (the lookup by pointer finds a connection for it); when it returns
    [NULL], no server of that name is connected. *)
Theorem name_lookup_sound `{External} w nm r :
  irc_get_server_from_name w nm = Done r →
  match r with
  | Some s' =>
      irc_get_server_name s' = nm ∧ server_connected w s' = Done true
  | None =>
      ∀ s, irc_get_server_name s = nm → server_connected w s = Done false
  end.
Proof.
  unfold irc_get_server_from_name, irc_get_server_name, server_connected,
    get_irc_server_connection. intros E. destruct r as [s'|].
  - destruct (scan_names_hit _ _ _ _ E) as [Hnm [p Hp]]. by rewrite Hp.
  - intros s Hs. by rewrite (scan_names_miss _ _ _ E s Hs).
Qed.

Lemma name_lookup_sound_witness :
  (irc_get_server_name (H := sample_external) 0%nat = "libera" ∧
   server_connected one_connection 0%nat = Done true) ∧
  (∀ s, irc_get_server_name (H := sample_external) s = "oftc" →
        server_connected one_connection s = Done false).
Proof.
  split.
  - apply (@name_lookup_sound sample_external one_connection "libera" (Some 0%nat)).
    reflexivity.
  - apply (@name_lookup_sound sample_external one_connection "oftc" None).
    reflexivity.
Defined.

(** X16.  Every connected server can be found by its name: when the lookup
    by pointer finds a connection for [s], [irc_get_server_from_name] on
    the name of [s] returns a server of that name (the first one
    registered, should several share it). *)
Theorem name_lookup_complete `{External} w s p :
  get_irc_server_connection w s = Done (Some p) →
  ∃ s', irc_get_server_from_name w (irc_get_server_name s) = Done (Some s') ∧
        irc_get_server_name s' = irc_get_server_name s.
Proof.
  unfold irc_get_server_from_name, irc_get_server_name, get_irc_server_connection.
  apply scan_names_complete.
Qed.

Lemma name_lookup_complete_witness :
  ∃ s', irc_get_server_from_name (H := sample_external) ten_connections
          (irc_get_server_name (H := sample_external) 6%nat) = Done (Some s') ∧
        irc_get_server_name (H := sample_external) s'
        = irc_get_server_name (H := sample_external) 6%nat.
Proof.
  apply (@name_lookup_complete sample_external ten_connections 6%nat 6%nat).
  reflexivity.
Defined.

(** ** After quit *)

(** X18.  A server that has quit cannot be used again: once
    [quit_irc_connection] has returned, connecting the same server again,
    pushing a line for it, quitting it once more or starting its event
    loop all begin with a registry lookup that reads the freed
    connection. *)
Theorem quit_disables_server `{External} w s w' :
  quit_irc_connection w s = Done w' →
  (∀ env, irc_server_connect w' s env = Undefined UseAfterFree) ∧
  (∀ str, irc_push_string w' s str = Undefined UseAfterFree) ∧
  quit_irc_connection w' s = Undefined UseAfterFree ∧
  (∀ es input, irc_do_event_loop w' s es input = Undefined UseAfterFree).
Proof.
  intros E. destruct (quit_Done w s w' E) as (p & c & El & Hp & ->).
  assert (get_irc_server_connection
            (mk_world (conns w) (<[p := Freed]> (heap w)) (errno w)
                      (trace w ++ quit_events (socket c))) s
          = Undefined UseAfterFree) as Hdangling.
  { unfold get_irc_server_connection. simpl. by apply scan_conns_freed. }
  repeat split.
  - intros env. unfold irc_server_connect, server_connected. by rewrite Hdangling.
  - intros str. unfold irc_push_string. by rewrite Hdangling.
  - unfold quit_irc_connection. by rewrite Hdangling.
  - intros es input. unfold irc_do_event_loop. by rewrite Hdangling.
Qed.

Lemma quit_disables_server_witness :
  ∃ w', quit_irc_connection (H := sample_external) one_connection 0%nat = Done w' ∧
  (∀ env, irc_server_connect (H := sample_external) w' 0%nat env
          = Undefined UseAfterFree) ∧
  (∀ str, irc_push_string w' 0%nat str = Undefined UseAfterFree) ∧
  quit_irc_connection (H := sample_external) w' 0%nat = Undefined UseAfterFree ∧
  (∀ es input, irc_do_event_loop (H := sample_external) w' 0%nat es input
               = Undefined UseAfterFree).
Proof.
  eexists. split.
  - vm_compute. reflexivity.
  - apply (@quit_disables_server sample_external one_connection 0%nat).
    vm_compute. reflexivity.
Defined.

(** ** A wake-up with nothing to read *)

Lemma peek_zeroed (u : ascii * ascii) n acc st idx :
  fst u ≠ CR → fst u ≠ LF → snd u ≠ CR → snd u ≠ LF →
  peek (mk_reader u (replicate n NUL) acc st) idx ≠ CR ∧
  peek (mk_reader u (replicate n NUL) acc st) idx ≠ LF.
Proof.
  intros ? ? ? ?. unfold peek. cbn [under buf].
  destruct (idx =? -2); [done|]. destruct (idx =? -1); [done|].
  destruct (idx <? 0); [by split|].
  rewrite nth_lookup.
  destruct (replicate n NUL !! Z.to_nat idx) as [a|] eqn:Ha; [|by split].
  apply lookup_replicate in Ha as [-> _]. by split.
Qed.

(** On a zeroed buffer and a transport whose calls deliver nothing the
    call runs to the size limit, one call per slot, and leaves the buffer
    zeroed. *)
Lemma read_message_idle w s p under input :
  get_irc_server_connection w s = Done (Some p) →
  fst under ≠ CR → fst under ≠ LF → snd under ≠ CR → snd under ≠ LF →
  Forall delivers_nothing (take (Z.to_nat (IRC_MESSAGE_SIZE - 1)) input) →
  ∃ r', irc_read_message w s
          (mk_reader under (replicate (Z.to_nat IRC_MESSAGE_SIZE) NUL) [] input)
        = Done (IRC_MESSAGE_SIZE - 1, r',
                after_recvs (take (Z.to_nat (IRC_MESSAGE_SIZE - 1)) input) w) ∧
        buf r' = replicate (Z.to_nat IRC_MESSAGE_SIZE) NUL ∧
        stream r' = drop (Z.to_nat (IRC_MESSAGE_SIZE - 1)) input.
Proof.
  intros E Hu1 Hu2 Hu3 Hu4 Hnone. unfold irc_read_message, poke.
  pose proof (λ r, read_loop_idle (Z.to_nat (IRC_MESSAGE_SIZE - 1)) 0 w s p r E eq_refl)
    as Hidle.
  assert (Z.of_nat (Z.to_nat (IRC_MESSAGE_SIZE - 1)) = IRC_MESSAGE_SIZE - 1) as HK
    by (unfold IRC_MESSAGE_SIZE; lia).
  assert (replicate (Z.to_nat IRC_MESSAGE_SIZE) NUL !! Z.to_nat (IRC_MESSAGE_SIZE - 1)
          = Some NUL) as Hz
    by (apply lookup_replicate_2; unfold IRC_MESSAGE_SIZE; lia).
  revert Hidle HK Hnone Hz. generalize (Z.to_nat (IRC_MESSAGE_SIZE - 1)).
  intros K Hidle HK Hnone Hz.
  rewrite E. run_step.
  destruct (Hidle (mk_reader under (replicate (Z.to_nat IRC_MESSAGE_SIZE) NUL) [] input))
    as (r' & -> & Hbuf & Hstream); [exact Hnone | by intros idx; apply peek_zeroed |].
  cbn [buf stream] in Hbuf, Hstream. run_step. rewrite Nat.add_0_l, Nat2Z.id, HK.
  eexists. split; [reflexivity|]. cbn [buf stream].
  split; [|exact Hstream]. rewrite Hbuf.
  revert Hz. generalize (replicate (Z.to_nat IRC_MESSAGE_SIZE) NUL). intros l Hz.
  by rewrite !(list_insert_id l K NUL Hz).
Qed.

(** X19.  A readable wake-up on which no [recv] call delivers a byte (the
    peer has closed, or every call fails, with [EAGAIN] for one) makes no
    call to the hooks, the logger or the socket and leaves registry and
    connection as they were: the reader runs over the whole zeroed buffer,
    one call per slot, the empty line it queues is discarded by
    [handle_message], and for a connection with empty queues the turn of
    the event loop changes nothing but [errno], which holds what the failed
    calls left there.  With the peer closed from the start the world is
    exactly as it was.  (The bytes in front of the buffer are taken to be
    neither ['\r'] nor ['\n'].) *)
Theorem idle_wakeup_touches_only_errno `{External} w s conn c under input :
  get_irc_server_connection w s = Done (Some conn) →
  heap w !! conn = Some (Live c) →
  read_queue c = [] → write_queue c = [] →
  fst under ≠ CR → fst under ≠ LF → snd under ≠ CR → snd under ≠ LF →
  Forall delivers_nothing (take (Z.to_nat (IRC_MESSAGE_SIZE - 1)) input) →
  ∃ w', reactor_cycle w conn (Readable under) input
        = Done (w', drop (Z.to_nat (IRC_MESSAGE_SIZE - 1)) input) ∧
        w' = after_recvs (take (Z.to_nat (IRC_MESSAGE_SIZE - 1)) input) w ∧
        conns w' = conns w ∧ heap w' = heap w ∧ trace w' = trace w ∧
        (input = [] → w' = w).
Proof.
  intros E Hc Hrq Hwq Hu1 Hu2 Hu3 Hu4 Hnone.
  pose proof (lookup_hit_server w s conn c E Hc) as Hs.
  assert (mk_conn (server c) (socket c) (ev_is_running c) [] [] = c) as Hsame
    by (destruct c; simpl in *; by subst).
  destruct (read_message_idle w s conn under input E Hu1 Hu2 Hu3 Hu4 Hnone)
    as (r' & Hread & Hbuf & Hstream).
  pose proof (after_recvs_frame (take (Z.to_nat (IRC_MESSAGE_SIZE - 1)) input) w)
    as (Hc1 & Hh1 & Ht1).
  assert (input = [] →
          after_recvs (take (Z.to_nat (IRC_MESSAGE_SIZE - 1)) input) w = w) as Hnil
    by (intros ->; by rewrite take_nil).
  assert (c_string (replicate (Z.to_nat IRC_MESSAGE_SIZE) NUL) = "") as Hempty.
  { destruct (Z.to_nat IRC_MESSAGE_SIZE) eqn:Hn; [done|]. reflexivity. }
  rewrite <- Hbuf in Hempty. clear Hbuf Hnone.
  revert Hread Hstream Hc1 Hh1 Ht1 Hnil.
  generalize (drop (Z.to_nat (IRC_MESSAGE_SIZE - 1)) input).
  generalize (after_recvs (take (Z.to_nat (IRC_MESSAGE_SIZE - 1)) input) w).
  intros w1 rest Hread Hstream Hc1 Hh1 Ht1 Hnil.
  exists w1. split; [|by repeat split].
  unfold reactor_cycle, irc_loop_read_callback.
  rewrite (lookup_hit_watcher w s conn E). run_step.
  pose proof Hc as Hl. apply load_Done in Hl. rewrite Hl. run_step. rewrite Hs.
  rewrite Hread. run_step. rewrite Hh1, Hl. run_step. rewrite Hrq, ?Hs.
  assert (heap w1 !! conn = Some (Live c)) as Hc' by (by rewrite Hh1).
  rewrite (store_Done conn c _ w1 Hc'). run_step.
  rewrite Hempty, Hstream.
  rewrite <- outcome_bind_assoc.
  rewrite (drains_spec _ conn (mk_conn s (socket c) (ev_is_running c) [""] (write_queue c))).
  - run_step. rewrite list_insert_insert_eq. cbn [server socket ev_is_running
      read_queue write_queue].
    rewrite <- Hs, Hsame, (list_insert_id _ _ _ Hc'), Hwq.
    cbn. rewrite !app_nil_r. by destruct w1.
  - run_step. apply list_lookup_insert_eq. by apply lookup_lt_Some in Hc'.
  - unfold get_irc_server_connection in *. run_step. rewrite Hc1.
    erewrite scan_conns_insert_live; [by rewrite Hh1 | exact Hc' | by rewrite Hs].
Qed.

Lemma idle_wakeup_touches_only_errno_witness :
  ∃ w', reactor_cycle (H := sample_external) one_connection 0%nat (Readable (NUL, NUL))
          [would_block; would_block]
        = Done (w', drop (Z.to_nat (IRC_MESSAGE_SIZE - 1)) [would_block; would_block]) ∧
        w' = after_recvs
               (take (Z.to_nat (IRC_MESSAGE_SIZE - 1)) [would_block; would_block])
               one_connection ∧
        conns w' = conns one_connection ∧ heap w' = heap one_connection ∧
        trace w' = trace one_connection ∧
        ([would_block; would_block] = [] → w' = one_connection).
Proof.
  apply (@idle_wakeup_touches_only_errno sample_external one_connection 0%nat 0%nat
           (mk_conn 0%nat 3 false [] []) (NUL, NUL) [would_block; would_block]);
    first [reflexivity | discriminate | idtac].
  vm_compute. repeat constructor.
Defined.

(** What the witness amounts to: after two calls that fail with [EAGAIN]
    the turn has changed [errno] and nothing else; a later
    [irc_create_socket] tests that value. *)
Example idle_wakeup_leaves_eagain :
  after_recvs (take (Z.to_nat (IRC_MESSAGE_SIZE - 1)) [would_block; would_block])
    one_connection
  = set_errno EAGAIN one_connection.
Proof. reflexivity. Qed.

(** ** A line longer than the buffer *)

(** X20.  An over-long line is cut, not rejected: when the coming [recv]
    calls deliver, one byte per call and none of them failing,
    [IRC_MESSAGE_SIZE - 1] bytes free of ['\r'] and ['\n'] (and the two
    bytes in front of the buffer do not look like a terminator),
    [irc_read_message] stores exactly those bytes, terminates them with
    ['\0'] in the last slot, returns [IRC_MESSAGE_SIZE - 1], leaves every
    later answer of the transport for the next read, and the world is as
    it was. *)
Theorem read_message_truncates w s p r body rest :
  get_irc_server_connection w s = Done (Some p) →
  length (buf r) = Z.to_nat IRC_MESSAGE_SIZE →
  stream r = (Received <$> body) ++ rest →
  Forall (λ a, a ≠ CR ∧ a ≠ LF) body →
  Z.of_nat (length body) = IRC_MESSAGE_SIZE - 1 →
  fst (under r) ≠ CR → snd (under r) ≠ CR → snd (under r) ≠ LF →
  ∃ r', irc_read_message w s r = Done (IRC_MESSAGE_SIZE - 1, r', w) ∧
        stream r' = rest ∧
        take (length body) (buf r') = body ∧
        buf r' !! length body = Some NUL.
Proof.
  intros E Hlen Hs Hplain Hfull Hu2 Hu1 Hu1'.
  destruct (read_loop_from_start w s p r E)
    as (n & r1 & Hloop & Hn & Hstream & Hbuf & _).
  assert (length (buf r1) = length (buf r)) as Hlen1
    by (by rewrite Hbuf, recv_into_length).
  assert (n = length body) as ->.
  { assert (Z.of_nat (Z.to_nat (IRC_MESSAGE_SIZE - 1)) = IRC_MESSAGE_SIZE - 1) as HK
      by (unfold IRC_MESSAGE_SIZE; lia).
    pose proof (read_loop_plain body 0 (Z.to_nat (IRC_MESSAGE_SIZE - 1)) w s p r
                  rest E eq_refl Hlen Hs) as Hbody.
    pose proof (λ r0, read_loop_turn (Z.to_nat (IRC_MESSAGE_SIZE - 1)) 0 w s p r0 E
                        (Nat.add_0_r _)) as Hturn.
    revert HK Hloop Hbody Hturn. generalize (Z.to_nat (IRC_MESSAGE_SIZE - 1)).
    intros K HK Hloop Hbody Hturn.
    assert (length body = K) as HbK by lia.
    destruct Hbody as (r0 & Hloop0 & Hs0 & _);
      [lia | done | exact Hu2 | exact Hu1 | exact Hu1' |].
    rewrite HbK, Nat.sub_diag in Hloop0.
    assert (∃ r2, read_loop 0 w s r0 = Done (Z.of_nat K, r2, w)) as [r2 Hstop].
    { rewrite Hturn. destruct (Ascii.eqb _ CR); [by eexists|].
      destruct (Ascii.eqb _ LF); by eexists. }
    rewrite Hloop0, Hstop in Hloop. injection Hloop as Hn' _ _. lia. }
  assert (take (length body) (stream r) = Received <$> body) as Htk
    by (rewrite Hs; apply take_app_length'; by rewrite length_fmap).
  assert (drop (length body) (stream r) = rest) as Hdr
    by (rewrite Hs; apply drop_app_length'; by rewrite length_fmap).
  rewrite Htk, after_recvs_received in Hloop. rewrite Htk in Hbuf.
  destruct (read_message_of_loop w s p r (length body) r1 w E
              ltac:(congruence) ltac:(lia) Hloop) as
    (r' & Hmsg & Hs' & Htake & Hnul & _ & _ & Hlen').
  exists r'. rewrite <- Hfull. split; [done|]. split; [congruence|].
  split; [|done].
  rewrite Htake, Hbuf, recv_into_bytes.
  - rewrite take_0. cbn [app]. by apply take_app_length'.
  - rewrite Hlen. unfold IRC_MESSAGE_SIZE in *. lia.
Qed.

Lemma read_message_truncates_witness :
  ∃ r', irc_read_message one_connection 0%nat
          (fresh_reader (replicate (Z.to_nat (IRC_MESSAGE_SIZE - 1)) "x"%char
                         ++ ["y"; CR; LF]%char))
        = Done (IRC_MESSAGE_SIZE - 1, r', one_connection) ∧
        stream r' = Received <$> ["y"; CR; LF]%char ∧
        take (length (replicate (Z.to_nat (IRC_MESSAGE_SIZE - 1)) "x"%char)) (buf r')
        = replicate (Z.to_nat (IRC_MESSAGE_SIZE - 1)) "x"%char ∧
        buf r' !! length (replicate (Z.to_nat (IRC_MESSAGE_SIZE - 1)) "x"%char)
        = Some NUL.
Proof.
  apply (read_message_truncates one_connection 0%nat 0%nat
           (fresh_reader (replicate (Z.to_nat (IRC_MESSAGE_SIZE - 1)) "x"%char
                          ++ ["y"; CR; LF]%char))
           (replicate (Z.to_nat (IRC_MESSAGE_SIZE - 1)) "x"%char)
           (Received <$> ["y"; CR; LF]%char)).
  - reflexivity.
  - exact (length_replicate _ _).
  - exact (fmap_app Received _ _).
  - apply Forall_replicate. split; discriminate.
  - rewrite length_replicate. apply Z2Nat.id. discriminate.
  - discriminate.
  - discriminate.
  - discriminate.
Defined.

(** ** Allocations and registry slots *)

(** In a reachable world the registry holds the connections in the order
    they were allocated, and all of them. *)
Lemma reachable_registry_all `{External} w :
  reachable w → registry_ok (conns w) (heap w) (seq 0 (length (heap w))).
Proof.
  induction 1 as [|w c w' Hreach Hok Hexec].
  - apply registry_ok_init.
  - destruct (call_connect_or_not c) as [(s & env & ->)|Hother].
    + cbn [exec] in Hexec.
      apply bind_Done in Hexec as ([r w1] & Hconnect & Hexec).
      injection Hexec as ->.
      destruct (connect_cases w s env r w' Hconnect)
        as [(_ & text & ->)|(_ & Hmiss & Hcap & sock & Hheap & Hconns)].
      * exact Hok.
      * rewrite Hheap, Hconns, length_app. cbn [length].
        rewrite Nat.add_1_r, seq_S. cbn [Nat.add].
        apply (registry_ok_connect _ _ _ s); [done | done | | done].
        intros Hfull. apply (cap_reached_iff w _ Hok) in Hfull. congruence.
    + pose proof (exec_quiet w c w' Hexec Hother) as Hq.
      destruct Hq as [Hc [Hlen Hlive]]. rewrite Hlen.
      apply (registry_ok_quiet w w'); [done | by repeat split].
Qed.

(** X21.  Registry slots are never given back and connections are never
    lost: in every world the module can reach, the number of used slots is
    the number of connections ever allocated, at most [MAX_CONNECTIONS],
    and each of them, freed or not, is still referenced by [conns] and
    found by its watcher. *)
Theorem allocations_stay_registered `{External} w :
  reachable w →
  registered w = length (heap w) ∧
  (length (heap w) ≤ MAX_CONNECTIONS)%nat ∧
  ∀ p, (p < length (heap w))%nat →
       Some p ∈ conns w ∧
       get_irc_connection_from_watcher w p = Done (Some p).
Proof.
  intros Hreach. pose proof (reachable_registry_all w Hreach) as Hok.
  split; [|split].
  - by rewrite (registered_count w _ Hok), length_seq.
  - pose proof (ok_cap _ _ _ Hok) as Hcap. by rewrite length_seq in Hcap.
  - intros p Hp.
    assert (p ∈ seq 0 (length (heap w))) as Hin by (apply elem_of_seq; lia).
    split.
    + rewrite (ok_slots _ _ _ Hok). apply elem_of_app. left.
      by apply list_elem_of_fmap_2.
    + by apply (watcher_lookup_registered w _ p Hok).
Qed.

Lemma allocations_stay_registered_witness :
  registered ten_connections = length (heap ten_connections) ∧
  (length (heap ten_connections) ≤ MAX_CONNECTIONS)%nat ∧
  ∀ p, (p < length (heap ten_connections))%nat →
       Some p ∈ conns ten_connections ∧
       get_irc_connection_from_watcher ten_connections p = Done (Some p).
Proof.
  exact (@allocations_stay_registered sample_external ten_connections
           ten_connections_reachable).
Defined.
